(** * drone-portainer: the deployment run of [src/index.ts]

    A shallow embedding of the plugin's single asynchronous run, in its
    current form (registry credentials resolved per image): the
    module-level option handling, the registry cache ([getRegistries],
    [getRegistryAuth]), the concurrent image pulls and the create-or-update
    decision for the stack.

    Conventions of the embedding.
    - An environment variable is an [option string] ([None] is JavaScript's
      [undefined]); a string is a sequence of one-byte characters.
    - A remote call appends the request to the run's trace; its response is
      taken from a [World], an oracle that sees every request issued so far.
      Response payloads are taken at the types the source annotates them
      with ([{ Id: number; Name: string }], ...); identifiers are integers.
    - The axios instance accepts every status below 5000
      ([validateStatus]), which every HTTP status is: no call is rejected
      for its status. Transport failures are not modelled.
    - [process.exit(1)] is the outcome [Exit 1]; it stops everything.
    - An [async] function is cut at its [await]s: one definition per
      segment, named after the function. The callbacks of the pull stage
      are tasks that a schedule resumes in any order.
    - [JSON.parse] and [fs.readFileSync] are parameters of the program.
    - Console output is not modelled. *)

From Stdlib Require Import String Ascii List ZArith Lia Bool DecimalString.
From Stdlib Require Import Sorted Permutation.
Import ListNotations.

Open Scope string_scope.
Open Scope list_scope.

Notation "a +:+ b" := (String.append a b) (at level 60, right associativity).

(** ** The fragment of JavaScript the program uses *)

Module JS.

(** Template-literal and [+] coercion of a [string | undefined]. *)
Definition toStr (o : option string) : string :=
  match o with
  | Some s => s
  | None => "undefined"
  end.

(** Decimal rendering of an integer number, as [`${n}`] and
    [JSON.stringify(n)] give it. *)
Definition numToStr (z : Z) : string := NilZero.string_of_int (Z.to_int z).

(** Truthiness of a string: every string but the empty one. *)
Definition truthyStr (s : string) : bool := negb (s =? "").

(** Truthiness of a [string | undefined]. *)
Definition truthyOpt (o : option string) : bool :=
  match o with
  | Some s => truthyStr s
  | None => false
  end.

(** A value of type [string | boolean], as [process.env.X ?? false] has. *)
Inductive strOrBool : Type :=
| IsStr (s : string)
| IsBool (b : bool).

Definition truthy (v : strOrBool) : bool :=
  match v with
  | IsStr s => truthyStr s
  | IsBool b => b
  end.

(** [o ?? d] *)
Definition nullish (o : option string) (d : strOrBool) : strOrBool :=
  match o with
  | Some s => IsStr s
  | None => d
  end.

(** [s.split(sep)] for a one-character separator. *)
Fixpoint split (sep : ascii) (s : string) : list string :=
  match s with
  | EmptyString => [""]
  | String c rest =>
      if Ascii.eqb c sep then "" :: split sep rest
      else match split sep rest with
           | piece :: pieces => String c piece :: pieces
           | [] => [String c ""]
           end
  end.

(** [a[0]] of a string array, coerced where it is used as a string. *)
Definition first (a : list string) : option string :=
  match a with
  | x :: _ => Some x
  | [] => None
  end.

(** [Array.prototype.find]: the first element the predicate accepts. *)
Definition find {A : Type} (p : A -> bool) (a : list A) : option A :=
  List.find p a.

(** Values that travel in request bodies and parameters. *)
#[local] Set Warnings "-register-all".
Inductive value : Type :=
| Undefined
| Bool (b : bool)
| Num (z : Z)
| Str (s : string)
| Arr (items : list value)
| Obj (props : list (string * value)).

Definition ofOpt (o : option string) : value :=
  match o with
  | Some s => Str s
  | None => Undefined
  end.

(** An object is its own properties in creation order. *)
Definition object : Type := list (string * value).

Fixpoint get (k : string) (o : object) : option value :=
  match o with
  | [] => None
  | (k', v) :: rest => if k' =? k then Some v else get k rest
  end.

(** Assignment to a property: an existing key keeps its place. *)
Fixpoint set (k : string) (v : value) (o : object) : object :=
  match o with
  | [] => [(k, v)]
  | (k', v') :: rest =>
      if k' =? k then (k', v) :: rest else (k', v') :: set k v rest
  end.

(** [{ ...a, ...b }] *)
Definition spread (a b : object) : object :=
  fold_left (fun o kv => set (fst kv) (snd kv) o) b a.

(** An object literal [{ k1: v1, ..., kn: vn }]. *)
Definition literal (props : list (string * value)) : object :=
  spread [] props.

(** [Object.keys(o)] *)
Definition keys {V : Type} (o : list (string * V)) : list string :=
  map fst o.

(** [o[k]] on a string-valued record. *)
Fixpoint prop (k : string) (o : list (string * string)) : option string :=
  match o with
  | [] => None
  | (k', v) :: rest => if k' =? k then Some v else prop k rest
  end.

(** The double-quote character. *)
Definition dquote : string := String (ascii_of_nat 34) EmptyString.

(** [Buffer.from(s).toString("base64")] for a string of one-byte
    characters. *)
Definition b64alphabet : string :=
  "ABCDEFGHIJKLMNOPQRSTUVWXYZabcdefghijklmnopqrstuvwxyz0123456789+/".

Definition b64char (n : N) : string :=
  match String.get (N.to_nat n) b64alphabet with
  | Some c => String c EmptyString
  | None => ""
  end.

Fixpoint b64bytes (bs : list N) : string :=
  match bs with
  | [] => ""
  | [a] =>
      b64char (N.shiftr a 2)
      +:+ b64char (N.shiftl (N.land a 3) 4)
      +:+ "=="
  | [a; b] =>
      b64char (N.shiftr a 2)
      +:+ b64char (N.lor (N.shiftl (N.land a 3) 4) (N.shiftr b 4))
      +:+ b64char (N.shiftl (N.land b 15) 2)
      +:+ "="
  | a :: b :: c :: rest =>
      b64char (N.shiftr a 2)
      +:+ b64char (N.lor (N.shiftl (N.land a 3) 4) (N.shiftr b 4))
      +:+ b64char (N.lor (N.shiftl (N.land b 15) 2) (N.shiftr c 6))
      +:+ b64char (N.land c 63)
      +:+ b64bytes rest
  end.

Definition base64 (s : string) : string :=
  b64bytes (map N_of_ascii (list_ascii_of_string s)).

End JS.

(** ** Process configuration: the environment variables the plugin reads *)

Record ProcessEnv : Type := {
  DRONE_BRANCH : option string;
  DRONE_COMMIT_SHA : option string;
  PLUGIN_PORTAINER_URL : option string;
  PLUGIN_PORTAINER_USERNAME : option string;
  PLUGIN_PORTAINER_PASSWORD : option string;
  PLUGIN_IMAGES : option string;
  PLUGIN_STACK_NAME : option string;
  PLUGIN_ENDPOINT : option string;
  PLUGIN_COMPOSE_ENVIRONMENT : option string;
  PLUGIN_COMPOSE_FILE : option string;
  PLUGIN_STANDALONE : option string;
  PLUGIN_FORCE_PULL : option string
}.

(** ** Requests, responses and the control plane *)

Inductive Method : Type := GET | POST | PUT.

Definition Method_eqb (a b : Method) : bool :=
  match a, b with
  | GET, GET | POST, POST | PUT, PUT => true
  | _, _ => false
  end.

(** One call of [axios.get], [axios.post] or [axios.put]: the URL relative to
    the base URL, the headers sent, the query parameters and the body. *)
Record Request : Type := {
  method : Method;
  url : string;
  headers : list (string * string);
  params : option JS.object;
  body : option JS.object
}.

Record Response (T : Type) : Type := {
  status : Z;
  data : T
}.
Arguments status {T} _.
Arguments data {T} _.

(** [{ Id: number; Name: string }]: an endpoint or a stack. *)
Module Entry.
Record t : Type := { Id : Z; Name : string }.
End Entry.

(** [{ Id: number; URL: string }] *)
Module Registry.
Record t : Type := { Id : Z; URL : string }.
End Registry.

(** [validateStatus] of the axios instance. *)
Definition validateStatus (status : Z) : bool := (status <? 5000)%Z.

(** The control plane answers a request knowing every request issued so
    far, the answered one last. *)
Record World : Type := {
  auth_reply : list Request -> Response string;
  endpoints_reply : list Request -> Response (list Entry.t);
  registries_reply : list Request -> Response (list Registry.t);
  pull_reply : list Request -> Response unit;
  swarm_reply : list Request -> Response string;
  stacks_reply : list Request -> Response (list Entry.t);
  create_reply : list Request -> Response unit;
  update_reply : list Request -> Response unit
}.

(** ** The state of a run and its monad *)

(** [trace]: the requests issued, oldest first. [registries]: the module
    variable of that name. [authorization]: the default [Authorization]
    header of the axios instance. *)
Record St : Type := {
  trace : list Request;
  registries : option (list Registry.t);
  authorization : option string
}.

Definition initial : St :=
  {| trace := []; registries := None; authorization := None |}.

Inductive Result (A : Type) : Type :=
| Ret (a : A) (st : St)
| Exit (code : Z) (st : St).
Arguments Ret {A} _ _.
Arguments Exit {A} _ _.

Definition final {A : Type} (r : Result A) : St :=
  match r with
  | Ret _ st => st
  | Exit _ st => st
  end.

Definition M (A : Type) : Type := St -> Result A.

Definition ret {A : Type} (a : A) : M A := fun st => Ret a st.

Definition bind {A B : Type} (m : M A) (k : A -> M B) : M B :=
  fun st =>
    match m st with
    | Ret a st' => k a st'
    | Exit code st' => Exit code st'
    end.

Notation "x <- m ;; k" := (bind m (fun x => k))
  (at level 61, m at next level, right associativity).
Notation "m ;;; k" := (bind m (fun _ => k))
  (at level 61, right associativity).

(** [process.exit(code)] *)
Definition exit {A : Type} (code : Z) : M A := fun st => Exit code st.

Fixpoint mapM {A B : Type} (f : A -> M B) (l : list A) : M (list B) :=
  match l with
  | [] => ret []
  | x :: rest => y <- f x ;; ys <- mapM f rest ;; ret (y :: ys)
  end.

Definition defaultHeaders (st : St) : list (string * string) :=
  match authorization st with
  | Some v => [("Authorization", v)]
  | None => []
  end.

Definition withDefaults (st : St) (r : Request) : Request :=
  {| method := method r; url := url r;
     headers := defaultHeaders st ++ headers r;
     params := params r; body := body r |}.

(** Calling axios: the request leaves with the instance's default headers
    in front of its own, and its response is fixed by the world. *)
Definition issue {T : Type} (reply : list Request -> Response T)
    (r : Request) : M (Response T) :=
  fun st =>
    let tr := trace st ++ [withDefaults st r] in
    Ret (reply tr)
        {| trace := tr; registries := registries st;
           authorization := authorization st |}.

Definition setRegistries (rs : list Registry.t) : M unit :=
  fun st =>
    Ret tt {| trace := trace st; registries := Some rs;
              authorization := authorization st |}.

Definition setAuthorization (v : string) : M unit :=
  fun st =>
    Ret tt {| trace := trace st; registries := registries st;
              authorization := Some v |}.

(** ** Which call a request is *)

Definition isAuth (r : Request) : bool :=
  Method_eqb (method r) POST && (url r =? "/auth").

Definition isEndpointsList (r : Request) : bool :=
  Method_eqb (method r) GET && (url r =? "/endpoints").

Definition isRegistriesFetch (r : Request) : bool :=
  Method_eqb (method r) GET && (url r =? "/registries").

Definition isImagePull (r : Request) : bool :=
  Method_eqb (method r) POST && prefix "/endpoints/" (url r).

Definition isSwarmFetch (r : Request) : bool :=
  Method_eqb (method r) GET && prefix "/endpoints/" (url r).

Definition isStacksList (r : Request) : bool :=
  Method_eqb (method r) GET && (url r =? "/stacks").

Definition isStackCreate (r : Request) : bool :=
  Method_eqb (method r) POST && prefix "/stacks?" (url r).

Definition isStackUpdate (r : Request) : bool :=
  Method_eqb (method r) PUT && prefix "/stacks/" (url r).

Definition isStackRequest (r : Request) : bool :=
  isStacksList r || isStackCreate r || isStackUpdate r.

(** ** The program *)

Section Program.

(** [JSON.parse] at the type the source gives its result,
    [Record<string, string>]: the properties in [Object.keys] order. *)
Variable JSON_parse : string -> list (string * string).

(** [fs.readFileSync(path)]: the content, or [None] when it throws. *)
Variable readFileSync : string -> option string.

Variable env : ProcessEnv.
Variable world : World.

(** *** Module-level constants *)

Definition branchName : option string := DRONE_BRANCH env.
Definition commitHash : option string := DRONE_COMMIT_SHA env.
Definition portainerUrl : option string := PLUGIN_PORTAINER_URL env.
Definition portainerUsername : option string := PLUGIN_PORTAINER_USERNAME env.
Definition portainerPassword : option string := PLUGIN_PORTAINER_PASSWORD env.

Definition images : string :=
  match PLUGIN_IMAGES env with
  | Some s => s
  | None => ""
  end.

Definition stackName : option string := PLUGIN_STACK_NAME env.
Definition endpoint : option string := PLUGIN_ENDPOINT env.
Definition composeEnvStr : option string := PLUGIN_COMPOSE_ENVIRONMENT env.

Definition standalone : JS.strOrBool :=
  JS.nullish (PLUGIN_STANDALONE env) (JS.IsBool false).

Definition forcePull : JS.strOrBool :=
  JS.nullish (PLUGIN_FORCE_PULL env) (JS.IsBool false).

Definition additionalComposeEnv : list (string * string) :=
  match composeEnvStr with
  | Some s => if JS.truthyStr s && negb (s =? "") then JSON_parse s else []
  | None => []
  end.

Definition dockerComposeFile : string :=
  match PLUGIN_COMPOSE_FILE env with
  | Some s => if negb (JS.truthyStr s) || (s =? "") then "docker-compose.yml" else s
  | None => "docker-compose.yml"
  end.

Definition baseURL : string := JS.toStr portainerUrl +:+ "/api".

(** *** The registry cache *)

Definition registriesRequest : Request :=
  {| method := GET; url := "/registries"; headers := [];
     params := None; body := None |}.

(** [getRegistries] up to its [await]: the cached list, or the response the
    call waits for. *)
Definition getRegistries_call : M (list Registry.t + Response (list Registry.t)) :=
  fun st =>
    match registries st with
    | Some cached => ret (inl cached) st
    | None =>
        (registriesResponse <- issue (registries_reply world) registriesRequest ;;
         ret (inr registriesResponse)) st
    end.

(** [getRegistries] from the arrival of its response. *)
Definition getRegistries_resume
    (registriesResponse : Response (list Registry.t)) : M (list Registry.t) :=
  if negb (status registriesResponse =? 200)%Z then exit 1
  else
    setRegistries (data registriesResponse) ;;;
    ret (data registriesResponse).

(** [getRegistryAuth] from the point where it holds the registry list. *)
Definition getRegistryAuth_resume (registryUrl : string)
    (currentRegistries : list Registry.t) : M string :=
  match JS.find (fun reg => Registry.URL reg =? registryUrl) currentRegistries with
  | None => exit 1
  | Some registryFromList =>
      let xRegistryAuth :=
        "{" +:+ JS.dquote +:+ "registryId" +:+ JS.dquote +:+ ":"
            +:+ JS.numToStr (Registry.Id registryFromList) +:+ "}" in
      ret (JS.base64 xRegistryAuth)
  end.

(** *** Pulling the images *)

Definition imageRequest (localEp : Entry.t) (releaseTag imageName : string)
    (registryAuth : option string) : Request :=
  {| method := POST;
     url := "/endpoints/" +:+ JS.numToStr (Entry.Id localEp)
              +:+ "/docker/images/create";
     headers :=
       match registryAuth with
       | Some v => [("X-Registry-Auth", v)]
       | None => []
       end;
     params :=
       Some (JS.literal [("fromImage", JS.Str imageName);
                         ("tag", JS.Str releaseTag)]);
     body := Some (JS.literal []) |}.

(** Where the callback of one image stands: waiting for the registry list,
    holding a cached list and about to go on, waiting for the answer to
    its pull, or finished. *)
Inductive Task : Type :=
| AwaitRegistries (imageName registry : string)
    (registriesResponse : Response (list Registry.t))
| Resume (imageName registry : string) (currentRegistries : list Registry.t)
| AwaitPull (imageName : string) (imageResponse : Response unit)
| Settled.

Definition registryOf (imageName : string) : string :=
  JS.toStr (JS.first (JS.split "/" imageName)).

(** The callback from its start to its first [await]. *)
Definition pull_start (localEp : Entry.t) (releaseTag imageName : string)
    : M Task :=
  let registry := registryOf imageName in
  if negb (registry =? "docker.io") then
    r <- getRegistries_call ;;
    match r with
    | inl cached => ret (Resume imageName registry cached)
    | inr registriesResponse =>
        ret (AwaitRegistries imageName registry registriesResponse)
    end
  else
    imageResponse <- issue (pull_reply world)
                       (imageRequest localEp releaseTag imageName None) ;;
    ret (AwaitPull imageName imageResponse).

(** The callback from the registry list to the [await] of its pull. *)
Definition pull_withAuth (localEp : Entry.t) (releaseTag imageName registry : string)
    (currentRegistries : list Registry.t) : M Task :=
  registryAuth <- getRegistryAuth_resume registry currentRegistries ;;
  imageResponse <- issue (pull_reply world)
                     (imageRequest localEp releaseTag imageName (Some registryAuth)) ;;
  ret (AwaitPull imageName imageResponse).

(** One resumption of a callback: everything it does until it waits again. *)
Definition pull_step (localEp : Entry.t) (releaseTag : string) (t : Task)
    : M Task :=
  match t with
  | AwaitRegistries imageName registry registriesResponse =>
      currentRegistries <- getRegistries_resume registriesResponse ;;
      pull_withAuth localEp releaseTag imageName registry currentRegistries
  | Resume imageName registry currentRegistries =>
      pull_withAuth localEp releaseTag imageName registry currentRegistries
  | AwaitPull imageName imageResponse =>
      if negb (status imageResponse =? 200)%Z then exit 1 else ret Settled
  | Settled => ret Settled
  end.

Definition awaitsResponse (t : Task) : bool :=
  match t with
  | AwaitRegistries _ _ _ | AwaitPull _ _ => true
  | Resume _ _ _ | Settled => false
  end.

(** The callbacks that did not have to wait go on once every callback has
    started. *)
Definition pull_microtask (localEp : Entry.t) (releaseTag : string) (t : Task)
    : M Task :=
  if awaitsResponse t then ret t else pull_step localEp releaseTag t.

Fixpoint replaceAt (i : nat) (t : Task) (tasks : list Task) {struct tasks}
    : list Task :=
  match tasks, i with
  | [], _ => []
  | _ :: rest, O => t :: rest
  | x :: rest, S j => x :: replaceAt j t rest
  end.

(** The response the [i]-th callback waits for arrives. *)
Definition deliver (localEp : Entry.t) (releaseTag : string) (i : nat)
    (tasks : list Task) : M (list Task) :=
  match nth_error tasks i with
  | Some t =>
      if awaitsResponse t then
        t' <- pull_step localEp releaseTag t ;;
        ret (replaceAt i t' tasks)
      else ret tasks
  | None => ret tasks
  end.

Fixpoint arrivals (localEp : Entry.t) (releaseTag : string) (order : list nat)
    (tasks : list Task) : M (list Task) :=
  match order with
  | [] => ret tasks
  | i :: later =>
      tasks' <- deliver localEp releaseTag i tasks ;;
      arrivals localEp releaseTag later tasks'
  end.

(** [await Promise.all(images.split(",").map(async ...))]. Every callback
    runs to its first [await] in list order; then responses arrive, first
    in the order [order] names the callbacks (an index that waits for
    nothing is skipped), then in list order until every callback has
    finished: a callback waits at most twice. *)
Definition pullTasks (localEp : Entry.t) (releaseTag : string)
    (order : list nat) : M (list Task) :=
  tasks <- mapM (pull_start localEp releaseTag) (JS.split "," images) ;;
  tasks <- mapM (pull_microtask localEp releaseTag) tasks ;;
  tasks <- arrivals localEp releaseTag order tasks ;;
  tasks <- mapM (pull_step localEp releaseTag) tasks ;;
  mapM (pull_step localEp releaseTag) tasks.

Definition pullImages (localEp : Entry.t) (releaseTag : string)
    (order : list nat) : M unit :=
  pullTasks localEp releaseTag order ;;; ret tt.

(** *** Session and endpoint *)

Definition authRequest : Request :=
  {| method := POST; url := "/auth"; headers := []; params := None;
     body := Some (JS.literal [("Username", JS.ofOpt portainerUsername);
                               ("Password", JS.ofOpt portainerPassword)]) |}.

Definition endpointsRequest : Request :=
  {| method := GET; url := "/endpoints"; headers := [];
     params := None; body := None |}.

Definition releaseTagOf (hash : string) : string :=
  JS.toStr branchName +:+ "-" +:+ substring 0 8 hash.

(** [s === o] for a string [s] and a [string | undefined]. *)
Definition sameName (s : string) (o : option string) : bool :=
  match o with
  | Some t => s =? t
  | None => false
  end.

(** From the start of the run to the resolved endpoint: the commit-hash
    guard, the release tag, the login and the endpoint lookup. The status
    tested after the endpoint list is the one of [response], the login's. *)
Definition connect : M (Entry.t * string) :=
  match commitHash with
  | None => exit 1
  | Some hash =>
      if negb (JS.truthyStr hash) then exit 1
      else
        let releaseTag := releaseTagOf hash in
        response <- issue (auth_reply world) authRequest ;;
        if negb (status response =? 200)%Z then exit 1
        else
          let bearerToken := data response in
          setAuthorization ("Bearer " +:+ bearerToken) ;;;
          endpointsReponse <- issue (endpoints_reply world) endpointsRequest ;;
          if negb (status response =? 200)%Z then exit 1
          else
            match JS.find (fun ep => sameName (Entry.Name ep) endpoint)
                    (data endpointsReponse) with
            | None => exit 1
            | Some localEp => ret (localEp, releaseTag)
            end
  end.

(** *** The stack *)

Definition swarmRequest (localEp : Entry.t) : Request :=
  {| method := GET;
     url := "/endpoints/" +:+ JS.numToStr (Entry.Id localEp) +:+ "/docker/swarm";
     headers := []; params := None; body := None |}.

Definition stacksRequest (stackOptions : option JS.object) : Request :=
  {| method := GET; url := "/stacks"; headers := [];
     params := stackOptions; body := None |}.

(** Everything the create-or-update decision reads. *)
Record Context : Type := {
  localEp : Entry.t;
  releaseTag : string;
  swarmId : string;
  stacksData : list Entry.t;
  stackToUpdate : option Entry.t;
  composeFile : string
}.

(** From the swarm lookup to the compose file. *)
Definition resolveStack (ep : Entry.t) (tag : string) : M Context :=
  mode <-
    (if negb (JS.truthy standalone) then
       swarmResponse <- issue (swarm_reply world) (swarmRequest ep) ;;
       if negb (status swarmResponse =? 200)%Z then exit 1
       else
         let id := data swarmResponse in
         ret (Some (JS.literal
                      [("filters", JS.Obj (JS.literal [("SwarmID", JS.Str id)]))]),
              id)
     else ret (None, "")) ;;
  let stackOptions := fst mode in
  stacksResponse <- issue (stacks_reply world) (stacksRequest stackOptions) ;;
  if negb (status stacksResponse =? 200)%Z then exit 1
  else
    let found :=
      JS.find (fun stack => sameName (Entry.Name stack) stackName)
        (data stacksResponse) in
    match readFileSync dockerComposeFile with
    | None => exit 1
    | Some content =>
        ret {| localEp := ep; releaseTag := tag; swarmId := snd mode;
               stacksData := data stacksResponse; stackToUpdate := found;
               composeFile := content |}
    end.

Definition urlPrefix : string :=
  if sameName "main" branchName then "" else JS.toStr branchName +:+ ".".

Definition envEntry (name : string) (value : JS.value) : JS.value :=
  JS.Obj (JS.literal [("name", JS.Str name); ("value", value)]).

(** The three entries of the array literal, then one [push] per key of
    [additionalComposeEnv], which is an object and so passes the [if]. *)
Definition composeEnvArray (tag : string) : list JS.value :=
  [ envEntry "RELEASE_TAG" (JS.Str tag);
    envEntry "URL_PREFIX" (JS.Str urlPrefix);
    envEntry "STACK_NAME" (JS.ofOpt stackName) ]
  ++ map (fun k => envEntry k (JS.ofOpt (JS.prop k additionalComposeEnv)))
       (JS.keys additionalComposeEnv).

Definition operationType : Z :=
  if negb (JS.truthy standalone) then 1%Z else 2%Z.

Definition stackCreateOptions (c : Context) : JS.object :=
  let options :=
    JS.literal [("Name", JS.ofOpt stackName);
                ("StackFileContent", JS.Str (composeFile c));
                ("Env", JS.Arr (composeEnvArray (releaseTag c)));
                ("Prune", JS.Bool true)] in
  if negb (JS.truthy standalone) then
    JS.spread options (JS.literal [("SwarmID", JS.Str (swarmId c))])
  else options.

Definition stackCreateRequest (c : Context) : Request :=
  {| method := POST;
     url := "/stacks?type=" +:+ JS.numToStr operationType
              +:+ "&method=string&endpointId="
              +:+ JS.numToStr (Entry.Id (localEp c));
     headers := []; params := None;
     body := Some (stackCreateOptions c) |}.

Definition stackUpdateBody (c : Context) (stack : Entry.t) : JS.object :=
  JS.literal [("id", JS.Num (Entry.Id stack));
              ("StackFileContent", JS.Str (composeFile c));
              ("Env", JS.Arr (composeEnvArray (releaseTag c)));
              ("Prune", JS.Bool true);
              ("PullImage", JS.Bool (negb (negb (JS.truthy forcePull))))].

Definition stackUpdateRequest (c : Context) (stack : Entry.t) : Request :=
  {| method := PUT;
     url := "/stacks/" +:+ JS.numToStr (Entry.Id stack)
              +:+ "?endpointId=" +:+ JS.numToStr (Entry.Id (localEp c));
     headers := []; params := None;
     body := Some (stackUpdateBody c stack) |}.

(** [if (!stackToUpdate) { create } else { update }] *)
Definition createOrUpdate (c : Context) : M unit :=
  match stackToUpdate c with
  | None =>
      stackCreateResponse <- issue (create_reply world) (stackCreateRequest c) ;;
      if negb (status stackCreateResponse =? 200)%Z then exit 1 else ret tt
  | Some stack =>
      stackUpdateResponse <- issue (update_reply world)
                               (stackUpdateRequest c stack) ;;
      if negb (status stackUpdateResponse =? 200)%Z then exit 1 else ret tt
  end.

(** The run up to the decision, and the whole run. [order] is the order in
    which the responses of the pull stage arrive. *)
Definition prepare (order : list nat) : M Context :=
  session <- connect ;;
  (if JS.truthyStr images && negb (images =? "")
   then pullImages (fst session) (snd session) order
   else ret tt) ;;;
  resolveStack (fst session) (snd session).

Definition main (order : list nat) : M unit :=
  c <- prepare order ;;
  createOrUpdate c.

End Program.

(** ** Reading a request back *)

Fixpoint lookup (k : string) (l : list (string * string)) : option string :=
  match l with
  | [] => None
  | (k', v) :: rest => if k' =? k then Some v else lookup k rest
  end.

Definition header (k : string) (r : Request) : option string :=
  lookup k (headers r).

Definition param (k : string) (r : Request) : option JS.value :=
  match params r with
  | Some o => JS.get k o
  | None => None
  end.

Definition bodyProp (k : string) (r : Request) : option JS.value :=
  match body r with
  | Some o => JS.get k o
  | None => None
  end.

Definition fromImage (r : Request) : option string :=
  match param "fromImage" r with
  | Some (JS.Str s) => Some s
  | _ => None
  end.

(** ** The words of the specification *)

(** The substring before the first occurrence of a character; the whole
    string when the character does not occur. *)
Fixpoint beforeFirst (sep : ascii) (s : string) : string :=
  match s with
  | EmptyString => EmptyString
  | String c rest =>
      if Ascii.eqb c sep then EmptyString else String c (beforeFirst sep rest)
  end.

(** The first [n] characters. *)
Definition firstChars (n : nat) (s : string) : string :=
  string_of_list_ascii (firstn n (list_ascii_of_string s)).

(** How many requests of a kind a trace holds. *)
Definition count (kind : Request -> bool) (tr : list Request) : nat :=
  length (filter kind tr).

(** A computation emits requests that satisfy [P] and returns values that
    satisfy [Q]: from every state, the trace only grows, by requests in
    [P], and a returned value is in [Q]. *)
Definition emits {A : Type} (P : Request -> Prop) (Q : A -> Prop) (m : M A)
    : Prop :=
  forall st,
    (exists new, trace (final (m st)) = trace st ++ new /\ Forall P new)
    /\ (forall a st', m st = Ret a st' -> Q a).

(** A task belongs to an image of the list; one that waits for, or holds,
    a registry list belongs to an image whose registry is not the exempted
    one. *)
Definition taskOk (names : list string) (t : Task) : Prop :=
  match t with
  | AwaitRegistries imageName registry _
  | Resume imageName registry _ =>
      In imageName names
      /\ registry = registryOf imageName
      /\ registryOf imageName <> "docker.io"
  | AwaitPull imageName _ => In imageName names
  | Settled => True
  end.

(** After one resumption a task waits for its pull or has finished. *)
Definition pastRegistries (t : Task) : Prop :=
  match t with
  | AwaitPull _ _ | Settled => True
  | AwaitRegistries _ _ _ | Resume _ _ _ => False
  end.

Definition swarmFilter (id : string) : JS.object :=
  JS.literal [("filters", JS.Obj (JS.literal [("SwarmID", JS.Str id)]))].

Definition matchesStack (env : ProcessEnv) (stack : Entry.t) : bool :=
  sameName (Entry.Name stack) (stackName env).

(** A context as [resolveStack] builds it in a run whose commit hash is
    [hash]. *)
Definition contextOk (env : ProcessEnv) (hash : string) (c : Context) : Prop :=
  releaseTag c = releaseTagOf env hash
  /\ stackToUpdate c = JS.find (matchesStack env) (stacksData c).

(** The requests each stage of a run can issue, each with what is known
    where the program issues it. *)

Inductive Connecting (env : ProcessEnv) : Request -> Prop :=
| IssuedAuth st :
    Connecting env (withDefaults st (authRequest env))
| IssuedEndpoints st :
    Connecting env (withDefaults st endpointsRequest).

(** The callbacks up to their first [await]. *)
Inductive Launching (env : ProcessEnv) : Request -> Prop :=
| IssuedRegistries st :
    JS.truthyStr (images env) = true ->
    Launching env (withDefaults st registriesRequest)
| IssuedPlainPull st ep hash imageName :
    commitHash env = Some hash ->
    JS.truthyStr (images env) = true ->
    In imageName (JS.split "," (images env)) ->
    registryOf imageName = "docker.io" ->
    Launching env
      (withDefaults st (imageRequest ep (releaseTagOf env hash) imageName None)).

(** The callbacks from the registry list on. *)
Inductive Resuming (env : ProcessEnv) : Request -> Prop :=
| IssuedAuthPull st ep hash imageName registryAuth :
    commitHash env = Some hash ->
    JS.truthyStr (images env) = true ->
    In imageName (JS.split "," (images env)) ->
    registryOf imageName <> "docker.io" ->
    Resuming env
      (withDefaults st
         (imageRequest ep (releaseTagOf env hash) imageName (Some registryAuth))).

Inductive Resolving (env : ProcessEnv) : Request -> Prop :=
| IssuedSwarm st ep :
    JS.truthy (standalone env) = false ->
    Resolving env (withDefaults st (swarmRequest ep))
| IssuedStacksAll st :
    JS.truthy (standalone env) = true ->
    Resolving env (withDefaults st (stacksRequest None))
| IssuedStacksOfSwarm st id :
    JS.truthy (standalone env) = false ->
    Resolving env (withDefaults st (stacksRequest (Some (swarmFilter id)))).

Inductive Deciding (JSON_parse : string -> list (string * string))
    (env : ProcessEnv) : Request -> Prop :=
| IssuedCreate st hash c :
    commitHash env = Some hash ->
    contextOk env hash c ->
    stackToUpdate c = None ->
    Deciding JSON_parse env
      (withDefaults st (stackCreateRequest JSON_parse env c))
| IssuedUpdate st hash c stack :
    commitHash env = Some hash ->
    contextOk env hash c ->
    stackToUpdate c = Some stack ->
    Deciding JSON_parse env
      (withDefaults st (stackUpdateRequest JSON_parse env c stack)).

Definition Pulling (env : ProcessEnv) (r : Request) : Prop :=
  Launching env r \/ Resuming env r.

Definition Prepared (env : ProcessEnv) (r : Request) : Prop :=
  Connecting env r \/ Pulling env r \/ Resolving env r.

Definition Issued (JSON_parse : string -> list (string * string))
    (env : ProcessEnv) (r : Request) : Prop :=
  Prepared env r \/ Deciding JSON_parse env r.

Definition isStackWrite (r : Request) : bool :=
  isStackCreate r || isStackUpdate r.

(** ** Shapes of requests *)

(** The images whose callback resolves a registry credential. *)
Definition needsAuth (imageName : string) : bool :=
  negb (registryOf imageName =? "docker.io").

(** What the release tag looks like in the requests that carry it. *)
Definition carriesTag (tag : string) (r : Request) : Prop :=
  (isImagePull r = true -> param "tag" r = Some (JS.Str tag))
  /\ (isStackWrite r = true ->
      exists others,
        bodyProp "Env" r
        = Some (JS.Arr (envEntry "RELEASE_TAG" (JS.Str tag) :: others))).

(** How a request looks in standalone mode. *)
Definition standaloneShape (r : Request) : Prop :=
  isSwarmFetch r = false
  /\ (isStacksList r = true -> params r = None)
  /\ (isStackCreate r = true ->
      prefix "/stacks?type=2&" (url r) = true
      /\ bodyProp "SwarmID" r = None).

(** How a request looks in clustered mode. *)
Definition clusteredShape (r : Request) : Prop :=
  (isStacksList r = true -> exists id, params r = Some (swarmFilter id))
  /\ (isStackCreate r = true ->
      prefix "/stacks?type=1&" (url r) = true
      /\ exists id, bodyProp "SwarmID" r = Some (JS.Str id)).

(** A context without what was learnt from the stack list. *)
Definition forgetStacks (c : Context) : Context :=
  {| localEp := localEp c; releaseTag := releaseTag c; swarmId := swarmId c;
     stacksData := []; stackToUpdate := None; composeFile := composeFile c |}.

(** ** Sample inputs *)

Module Sample.

(** The text [{"A":"1","B":"2"}]. *)
Definition composeEnvText : string :=
  "{" +:+ JS.dquote +:+ "A" +:+ JS.dquote +:+ ":" +:+ JS.dquote +:+ "1"
      +:+ JS.dquote +:+ "," +:+ JS.dquote +:+ "B" +:+ JS.dquote +:+ ":"
      +:+ JS.dquote +:+ "2" +:+ JS.dquote +:+ "}".

Definition JSON_parse (s : string) : list (string * string) :=
  if s =? composeEnvText then [("A", "1"); ("B", "2")] else [].

Definition readFileSync (path : string) : option string :=
  if path =? "docker-compose.yml" then Some "services: {}" else None.

Definition env (imageList standaloneFlag : option string) : ProcessEnv :=
  {| DRONE_BRANCH := Some "dev";
     DRONE_COMMIT_SHA := Some "0123456789abcdef";
     PLUGIN_PORTAINER_URL := Some "https://portainer.example.com";
     PLUGIN_PORTAINER_USERNAME := Some "ci";
     PLUGIN_PORTAINER_PASSWORD := Some "secret";
     PLUGIN_IMAGES := imageList;
     PLUGIN_STACK_NAME := Some "web";
     PLUGIN_ENDPOINT := Some "local";
     PLUGIN_COMPOSE_ENVIRONMENT := Some composeEnvText;
     PLUGIN_COMPOSE_FILE := None;
     PLUGIN_STANDALONE := standaloneFlag;
     PLUGIN_FORCE_PULL := Some "false" |}.

Definition ok {T : Type} (d : T) (history : list Request) : Response T :=
  {| status := 200; data := d |}.

Definition endpoints : list Entry.t :=
  [ {| Entry.Id := 1; Entry.Name := "local" |} ].

(** A control plane that answers every call with 200, knows one
    registry and holds the stacks [stacks]. *)
Definition world (stacks : list Entry.t) : World :=
  {| auth_reply := ok "token";
     endpoints_reply := ok endpoints;
     registries_reply :=
       ok [ {| Registry.Id := 7; Registry.URL := "registry.example.com" |} ];
     pull_reply := ok tt;
     swarm_reply := ok "swarm1";
     stacks_reply := ok stacks;
     create_reply := ok tt;
     update_reply := ok tt |}.

(** The same control plane, but the endpoint list comes with status 500. *)
Definition worldEndpointsFailing (stacks : list Entry.t) : World :=
  {| auth_reply := ok "token";
     endpoints_reply := fun _ => {| status := 500; data := endpoints |};
     registries_reply := registries_reply (world stacks);
     pull_reply := ok tt;
     swarm_reply := ok "swarm1";
     stacks_reply := ok stacks;
     create_reply := ok tt;
     update_reply := ok tt |}.

Definition web : Entry.t := {| Entry.Id := 7; Entry.Name := "web" |}.

End Sample.

(** ** The run in detail *)

(** A request as it leaves when the default [Authorization] header is
    [a]. *)
Definition sentWith (a : option string) (r : Request) : Request :=
  withDefaults {| trace := []; registries := None; authorization := a |} r.

(** The value [getRegistryAuth] returns for a registry. *)
Definition credential (reg : Registry.t) : string :=
  JS.base64 ("{" +:+ JS.dquote +:+ "registryId" +:+ JS.dquote +:+ ":"
                 +:+ JS.numToStr (Registry.Id reg) +:+ "}").

(** The first two requests of a run and what the run knows after them. *)
Definition sentAuth (env : ProcessEnv) : Request :=
  sentWith None (authRequest env).

Definition bearer (env : ProcessEnv) (world : World) : string :=
  "Bearer " +:+ data (auth_reply world [sentAuth env]).

Definition sentEndpoints (env : ProcessEnv) (world : World) : Request :=
  sentWith (Some (bearer env world)) endpointsRequest.

Definition connected (env : ProcessEnv) (world : World) : St :=
  {| trace := [sentAuth env; sentEndpoints env world];
     registries := None;
     authorization := Some (bearer env world) |}.

Definition resolvedEndpoint (env : ProcessEnv) (world : World)
    : option Entry.t :=
  JS.find (fun ep => sameName (Entry.Name ep) (endpoint env))
    (data (endpoints_reply world (trace (connected env world)))).

(** The run from the resolved endpoint on. *)
Definition afterConnect (JSON_parse : string -> list (string * string))
    (readFileSync : string -> option string) (env : ProcessEnv)
    (world : World) (ep : Entry.t) (tag : string) (order : list nat) : M unit :=
  (if JS.truthyStr (images env) && negb (images env =? "")
   then pullImages env world ep tag order
   else ret tt) ;;;
  c <- resolveStack readFileSync env world ep tag ;;
  createOrUpdate JSON_parse env world c.

(** A registry that some registry list with status 200 holds. *)
Definition Listed (world : World) (reg : Registry.t) : Prop :=
  exists tr,
    status (registries_reply world tr) = 200%Z
    /\ In reg (data (registries_reply world tr)).

(** The state a computation after the login keeps: the default header is
    [a] and a cached registry list came from the control plane. *)
Definition keeps (world : World) (a : option string) (st : St) : Prop :=
  authorization st = a
  /\ forall rs, registries st = Some rs -> Forall (Listed world) rs.

(** [emits] from the states that [keeps] describes, which are kept. *)
Definition emitsA {A : Type} (world : World) (a : option string)
    (P : Request -> Prop) (Q : A -> Prop) (m : M A) : Prop :=
  forall st,
    keeps world a st ->
    keeps world a (final (m st))
    /\ (exists new, trace (final (m st)) = trace st ++ new /\ Forall P new)
    /\ (forall v st', m st = Ret v st' -> Q v).

(** A task with the origin of what it holds. *)
Definition taskFrom (world : World) (names : list string) (t : Task) : Prop :=
  match t with
  | AwaitRegistries imageName registry response =>
      In imageName names
      /\ registry = registryOf imageName
      /\ registryOf imageName <> "docker.io"
      /\ exists tr, response = registries_reply world tr
  | Resume imageName registry cached =>
      In imageName names
      /\ registry = registryOf imageName
      /\ registryOf imageName <> "docker.io"
      /\ Forall (Listed world) cached
  | AwaitPull imageName _ => In imageName names
  | Settled => True
  end.

(** The image whose pull a task has still to issue. *)
Definition unpulled (t : Task) : list string :=
  match t with
  | AwaitRegistries imageName _ _ | Resume imageName _ _ => [imageName]
  | AwaitPull _ _ | Settled => []
  end.

(** The images pulled in a trace, in the order of their pulls. *)
Definition pulled (tr : list Request) : list string :=
  flat_map (fun r =>
              if isImagePull r
              then match fromImage r with
                   | Some imageName => [imageName]
                   | None => []
                   end
              else []) tr.

(** The request with which the callback of an image starts. *)
Definition launchRequest (a : option string) (ep : Entry.t) (tag : string)
    (imageName : string) : Request :=
  sentWith a (if needsAuth imageName then registriesRequest
              else imageRequest ep tag imageName None).

(** [pieces.join(sep)] *)
Fixpoint join (sep : string) (pieces : list string) : string :=
  match pieces with
  | [] => ""
  | [piece] => piece
  | piece :: rest => piece +:+ sep +:+ join sep rest
  end.

(** Whether a character occurs in a string. *)
Fixpoint occurs (ch : ascii) (s : string) : bool :=
  match s with
  | EmptyString => false
  | String c rest => Ascii.eqb c ch || occurs ch rest
  end.

(** What the context of a decision holds, for the endpoint [ep] and the
    tag [tag]. *)
Definition contextFrom (readFileSync : string -> option string)
    (env : ProcessEnv) (ep : Entry.t) (tag : string) (c : Context) : Prop :=
  localEp c = ep
  /\ releaseTag c = tag
  /\ readFileSync (dockerComposeFile env) = Some (composeFile c)
  /\ stackToUpdate c = JS.find (matchesStack env) (stacksData c).

(** A request that names an endpoint names [ep]. *)
Definition addresses (ep : Entry.t) (r : Request) : Prop :=
  let id := JS.numToStr (Entry.Id ep) in
  (isImagePull r = true ->
   url r = "/endpoints/" +:+ id +:+ "/docker/images/create")
  /\ (isSwarmFetch r = true ->
      url r = "/endpoints/" +:+ id +:+ "/docker/swarm")
  /\ (isStackCreate r = true ->
      exists type,
        url r = "/stacks?type=" +:+ type +:+ "&method=string&endpointId=" +:+ id)
  /\ (isStackUpdate r = true ->
      exists stackId,
        url r = "/stacks/" +:+ stackId +:+ "?endpointId=" +:+ id).

(** The stage a request belongs to: session and endpoint, image pulls,
    stack lookup, stack write. *)
Definition stageOf (r : Request) : nat :=
  if isAuth r || isEndpointsList r then 0
  else if isRegistriesFetch r || isImagePull r then 1
  else if isSwarmFetch r || isStacksList r then 2
  else 3.

(** A computation stops with no other code than 1. *)
Definition exitsWith1 {A : Type} (m : M A) : Prop :=
  forall st code st', m st = Exit code st' -> code = 1%Z.

(** How often an image name occurs in a list. *)
Definition occ (imageName : string) (l : list string) : nat :=
  count_occ string_dec l imageName.

(** The pull stage from the moment every callback waits or is ready. *)
Definition settle (world : World) (ep : Entry.t) (tag : string)
    (order : list nat) (tasks0 : list Task) : M (list Task) :=
  tasks <- mapM (pull_microtask world ep tag) tasks0 ;;
  tasks <- arrivals world ep tag order tasks ;;
  tasks <- mapM (pull_step world ep tag) tasks ;;
  mapM (pull_step world ep tag) tasks.

(** The stack stage. *)
Definition finish (JSON_parse : string -> list (string * string))
    (readFileSync : string -> option string) (env : ProcessEnv)
    (world : World) (ep : Entry.t) (tag : string) : M unit :=
  c <- resolveStack readFileSync env world ep tag ;;
  createOrUpdate JSON_parse env world c.

(** The trace when the callback of [imageName] has issued its first
    request: [base], what the run issued before the pull stage, then the
    first requests of the callbacks of the images listed before it, then
    its own. *)
Definition launchedTo (a : option string) (ep : Entry.t) (tag : string)
    (base : list Request) (earlier : list string) (imageName : string)
    : list Request :=
  base ++ map (launchRequest a ep tag) (earlier ++ [imageName]).

(** A callback that waits for a registry list waits for the answer to its
    own fetch; none holds a cached list. *)
Definition ownList (world : World) (a : option string) (ep : Entry.t)
    (tag : string) (base : list Request) (names : list string) (t : Task)
    : Prop :=
  match t with
  | AwaitRegistries imageName registry response =>
      exists earlier later,
        names = earlier ++ imageName :: later
        /\ needsAuth imageName = true
        /\ registry = registryOf imageName
        /\ response
           = registries_reply world
               (launchedTo a ep tag base earlier imageName)
  | Resume _ _ _ => False
  | AwaitPull _ _ | Settled => True
  end.

(** The credential of a pull belongs to the first registry with the URL of
    the image's registry in the list that answered, with status 200, the
    fetch of the image's own callback. *)
Definition ownCredential (world : World) (a : option string) (ep : Entry.t)
    (tag : string) (base : list Request) (names : list string) (r : Request)
    : Prop :=
  isImagePull r = true ->
  forall v,
    header "X-Registry-Auth" r = Some v ->
    exists imageName earlier later reg,
      names = earlier ++ imageName :: later
      /\ needsAuth imageName = true
      /\ fromImage r = Some imageName
      /\ status (registries_reply world
                   (launchedTo a ep tag base earlier imageName)) = 200%Z
      /\ JS.find (fun reg => Registry.URL reg =? registryOf imageName)
           (data (registries_reply world
                    (launchedTo a ep tag base earlier imageName)))
         = Some reg
      /\ v = credential reg.

(** The same in terms of the trace [tr] of the run alone: the image is the
    one at some position of the list [names]; the request of the trace at
    that position after the first two is a registry fetch and comes before
    the pull; the answer to it had status 200; and the credential is that
    of the first registry of the answer whose URL is the part of the image
    name before the first "/". *)
Definition credentialOfOwnLookup (world : World) (names : list string)
    (tr : list Request) (r : Request) : Prop :=
  isImagePull r = true ->
  forall v,
    header "X-Registry-Auth" r = Some v ->
    exists imageName earlier later before fetch after reg,
      names = earlier ++ imageName :: later
      /\ fromImage r = Some imageName
      /\ tr = before ++ fetch :: after
      /\ length before = 2 + length earlier
      /\ isRegistriesFetch fetch = true
      /\ In r after
      /\ status (registries_reply world (before ++ [fetch])) = 200%Z
      /\ JS.find (fun reg => Registry.URL reg =? beforeFirst "/" imageName)
           (data (registries_reply world (before ++ [fetch])))
         = Some reg
      /\ v = credential reg.

(** A create or update carries the content of the compose file. *)
Definition carriesComposeFile (readFileSync : string -> option string)
    (env : ProcessEnv) (r : Request) : Prop :=
  isStackWrite r = true ->
  exists content,
    readFileSync (dockerComposeFile env) = Some content
    /\ bodyProp "StackFileContent" r = Some (JS.Str content).

(** The pulls issued and the pulls owed, counted for one image name,
    add up to the same number before and after. *)
Definition conserves {A B : Type} (ownedBefore : A -> list string)
    (ownedAfter : B -> list string) (f : A -> M B) : Prop :=
  forall x st y st',
    f x st = Ret y st' ->
    forall n,
      occ n (pulled (trace st')) + occ n (ownedAfter y)
      = occ n (pulled (trace st)) + occ n (ownedBefore x).

(** The status with which the control plane answered a request of the
    pull stage; [tr] is the trace up to and with the request. *)
Definition answerOf (world : World) (tr : list Request) (r : Request)
    : list Z :=
  if isImagePull r then [status (pull_reply world tr)]
  else if isRegistriesFetch r then [status (registries_reply world tr)]
  else [].

(** The statuses that answered the pull-stage requests of [tr], issued
    after [before]. *)
Fixpoint answersFrom (world : World) (before tr : list Request) : list Z :=
  match tr with
  | [] => []
  | r :: rest =>
      answerOf world (before ++ [r]) r ++ answersFrom world (before ++ [r]) rest
  end.

(** The status of the response a task waits for. *)
Definition awaited (t : Task) : list Z :=
  match t with
  | AwaitRegistries _ _ response => [status response]
  | AwaitPull _ response => [status response]
  | Resume _ _ _ | Settled => []
  end.

(** Every answer so far is 200 or is one a task still waits for. *)
Definition answeredOrAwaited (world : World) (pending : list Z) (st : St)
    : Prop :=
  Forall (fun s => s = 200%Z \/ In s pending)
    (answersFrom world [] (trace st)).

(** ** Tactics *)

(** Case analysis on the innermost scrutinee of nested matches. *)
Ltac destruct_innermost m :=
  lazymatch m with
  | match ?m' with _ => _ end => destruct_innermost m'
  | _ => destruct m
  end.

(** * Properties *)

(** ** Rules for [emits] *)

Lemma emits_ret {A : Type} (P : Request -> Prop) (Q : A -> Prop) (a : A) :
  Q a -> emits P Q (ret a).
Proof.
  intros HQ st; split.
  - exists []. simpl. now rewrite app_nil_r.
  - intros a' st' E. unfold ret in E. now inversion E; subst.
Qed.

Lemma emits_exit {A : Type} (P : Request -> Prop) (Q : A -> Prop) (code : Z) :
  emits P Q (exit code).
Proof.
  intros st; split.
  - exists []. simpl. now rewrite app_nil_r.
  - intros a st' E. discriminate E.
Qed.

Lemma emits_bind {A B : Type} (P : Request -> Prop)
    (Q1 : A -> Prop) (Q2 : B -> Prop) (m : M A) (k : A -> M B) :
  emits P Q1 m ->
  (forall a, Q1 a -> emits P Q2 (k a)) ->
  emits P Q2 (bind m k).
Proof.
  intros Hm Hk st. destruct (Hm st) as [[new1 [E1 F1]] R1].
  unfold bind. destruct (m st) as [a st1 | code st1] eqn:Em; simpl in E1.
  - destruct (Hk a (R1 a st1 eq_refl) st1) as [[new2 [E2 F2]] R2]. split.
    + exists (new1 ++ new2). rewrite E2, E1, app_assoc. split; [reflexivity|].
      apply Forall_app; now split.
    + exact R2.
  - split.
    + exists new1. now split.
    + intros b st' E. discriminate E.
Qed.

Lemma emits_weaken {A : Type} (P P' : Request -> Prop) (Q Q' : A -> Prop)
    (m : M A) :
  (forall r, P' r -> P r) -> (forall a, Q' a -> Q a) ->
  emits P' Q' m -> emits P Q m.
Proof.
  intros HP HQ Hm st. destruct (Hm st) as [[new [E F]] R]. split.
  - exists new. split; [exact E|]. eapply Forall_impl; [|exact F]. exact HP.
  - intros a st' Ea. apply HQ. eapply R. exact Ea.
Qed.

Lemma emits_mapM {A B : Type} (P : Request -> Prop)
    (Pre : A -> Prop) (Q : B -> Prop) (f : A -> M B) (l : list A) :
  (forall x, Pre x -> emits P Q (f x)) ->
  Forall Pre l ->
  emits P (Forall Q) (mapM f l).
Proof.
  intros Hf. induction l as [|x rest IH]; intros HPre; simpl.
  - apply emits_ret. constructor.
  - inversion HPre as [|? ? Hx Hrest]; subst.
    apply (emits_bind P Q); [now apply Hf|]. intros y Hy.
    apply (emits_bind P (Forall Q)); [now apply IH|]. intros ys Hys.
    apply emits_ret. now constructor.
Qed.

Lemma emits_issue {T : Type} (P : Request -> Prop) (Q : Response T -> Prop)
    (reply : list Request -> Response T) (r : Request) :
  (forall st, P (withDefaults st r)) ->
  (forall x, Q x) ->
  emits P Q (issue reply r).
Proof.
  intros HP HQ st; split.
  - exists [withDefaults st r]. simpl. split; [reflexivity|].
    constructor; [apply HP | constructor].
  - intros a st' _. apply HQ.
Qed.

Lemma emits_setRegistries (P : Request -> Prop) (rs : list Registry.t) :
  emits P (fun _ => True) (setRegistries rs).
Proof.
  intros st; split; [|trivial]. exists []. simpl. now rewrite app_nil_r.
Qed.

Lemma emits_setAuthorization (P : Request -> Prop) (v : string) :
  emits P (fun _ => True) (setAuthorization v).
Proof.
  intros st; split; [|trivial]. exists []. simpl. now rewrite app_nil_r.
Qed.

(** What a whole run emits, from the empty trace. *)
Lemma emits_initial {A : Type} (P : Request -> Prop) (Q : A -> Prop) (m : M A) :
  emits P Q m -> Forall P (trace (final (m initial))).
Proof.
  intros H. destruct (H initial) as [[new [E F]] _].
  rewrite E. exact F.
Qed.

(** ** The requests of each stage *)

Lemma status_check_emits {A : Type} (P : Request -> Prop) (Q : A -> Prop)
    (code : Z) (m : M A) :
  emits P Q m ->
  forall b : bool, emits P Q (if b then exit code else m).
Proof. intros Hm [|]; [apply emits_exit | exact Hm]. Qed.

Section Stages.

Variable JSON_parse : string -> list (string * string).
Variable readFileSync : string -> option string.
Variable env : ProcessEnv.
Variable world : World.

Lemma connect_emits :
  emits (Connecting env)
    (fun session =>
       exists hash, commitHash env = Some hash
                    /\ snd session = releaseTagOf env hash)
    (connect env world).
Proof.
  unfold connect. destruct (commitHash env) as [hash|] eqn:Eh;
    [|apply emits_exit].
  apply status_check_emits.
  eapply emits_bind with (Q1 := fun _ => True).
  { apply emits_issue; [intros st; apply IssuedAuth | trivial]. }
  intros response _. apply status_check_emits.
  eapply emits_bind; [apply emits_setAuthorization|]. intros _ _.
  eapply emits_bind with (Q1 := fun _ => True).
  { apply emits_issue; [intros st; apply IssuedEndpoints | trivial]. }
  intros endpointsReponse _. apply status_check_emits.
  destruct (JS.find _ _) as [ep|]; [|apply emits_exit].
  apply emits_ret. exists hash. now split.
Qed.

Section Pull.

Variable hash : string.
Hypothesis Hhash : commitHash env = Some hash.
Hypothesis Himages : JS.truthyStr (images env) = true.
Variable ep : Entry.t.

Let names : list string := JS.split "," (images env).
Let tag : string := releaseTagOf env hash.

Lemma getRegistries_call_emits :
  emits (Launching env) (fun _ => True) (getRegistries_call world).
Proof.
  intros st. unfold getRegistries_call.
  destruct (registries st) as [cached|].
  - now apply emits_ret.
  - revert st.
    change (emits (Launching env)
              (fun _ : list Registry.t + Response (list Registry.t) => True)
              (registriesResponse <- issue (registries_reply world) registriesRequest ;;
               ret (inr registriesResponse))).
    eapply emits_bind with (Q1 := fun _ => True).
    + apply emits_issue; [intros st; now apply IssuedRegistries | trivial].
    + intros r _. now apply emits_ret.
Qed.

Lemma pull_start_emits (imageName : string) :
  In imageName names ->
  emits (Launching env) (taskOk names) (pull_start world ep tag imageName).
Proof.
  intros Hin. unfold pull_start.
  destruct (registryOf imageName =? "docker.io") eqn:Ereg; simpl.
  - apply String.eqb_eq in Ereg.
    eapply emits_bind with (Q1 := fun _ => True).
    + apply emits_issue; [|trivial]. intros st.
      now apply IssuedPlainPull.
    + intros r _. apply emits_ret. exact Hin.
  - apply String.eqb_neq in Ereg.
    eapply emits_bind; [apply getRegistries_call_emits|].
    intros [cached|response] _; apply emits_ret; simpl; auto.
Qed.

Lemma pull_withAuth_emits (imageName : string) (rs : list Registry.t) :
  In imageName names ->
  registryOf imageName <> "docker.io" ->
  emits (Resuming env) (fun t => taskOk names t /\ pastRegistries t)
    (pull_withAuth world ep tag imageName (registryOf imageName) rs).
Proof.
  intros Hin Hreg. unfold pull_withAuth.
  eapply emits_bind with (Q1 := fun _ => True).
  { unfold getRegistryAuth_resume.
    destruct (JS.find _ rs); [now apply emits_ret | apply emits_exit]. }
  intros registryAuth _.
  eapply emits_bind with (Q1 := fun _ => True).
  - apply emits_issue; [|trivial]. intros st.
    now apply IssuedAuthPull.
  - intros r _. apply emits_ret. simpl. auto.
Qed.

Lemma pull_step_emits (t : Task) :
  taskOk names t ->
  emits (Resuming env) (fun t' => taskOk names t' /\ pastRegistries t')
    (pull_step world ep tag t).
Proof.
  destruct t as [imageName registry response | imageName registry rs
                | imageName response | ]; simpl.
  - intros [Hin [-> Hreg]].
    eapply emits_bind with (Q1 := fun _ => True).
    + unfold getRegistries_resume. apply status_check_emits.
      eapply emits_bind; [apply emits_setRegistries|].
      intros _ _. now apply emits_ret.
    + intros rs _. now apply pull_withAuth_emits.
  - intros [Hin [-> Hreg]]. now apply pull_withAuth_emits.
  - intros Hin. apply status_check_emits. apply emits_ret. simpl. auto.
  - intros _. apply emits_ret. simpl. auto.
Qed.

Lemma pull_settles (t : Task) :
  pastRegistries t ->
  emits (Resuming env) (fun t' => t' = Settled) (pull_step world ep tag t).
Proof.
  destruct t; simpl; try contradiction; intros _.
  - apply status_check_emits. now apply emits_ret.
  - now apply emits_ret.
Qed.

Lemma pull_microtask_emits (t : Task) :
  taskOk names t ->
  emits (Resuming env) (taskOk names) (pull_microtask world ep tag t).
Proof.
  intros Hok. unfold pull_microtask. destruct (awaitsResponse t).
  - now apply emits_ret.
  - apply emits_weaken with (P' := Resuming env)
      (Q' := fun t' => taskOk names t' /\ pastRegistries t').
    + auto.
    + now intros t' [H _].
    + now apply pull_step_emits.
Qed.

Lemma replaceAt_ok (Q : Task -> Prop) (i : nat) (t : Task) (tasks : list Task) :
  Q t -> Forall Q tasks -> Forall Q (replaceAt i t tasks).
Proof.
  intros Ht Hall. revert i.
  induction Hall as [|x rest Hx Hrest IH]; intros i; simpl.
  - constructor.
  - destruct i; constructor; auto.
Qed.

Lemma deliver_emits (i : nat) (tasks : list Task) :
  Forall (taskOk names) tasks ->
  emits (Resuming env) (Forall (taskOk names)) (deliver world ep tag i tasks).
Proof.
  intros Hall. unfold deliver.
  destruct (nth_error tasks i) as [t|] eqn:Ei; [|now apply emits_ret].
  destruct (awaitsResponse t); [|now apply emits_ret].
  eapply emits_bind.
  - apply pull_step_emits.
    apply nth_error_In in Ei. rewrite Forall_forall in Hall. now apply Hall.
  - intros t' [Hok _]. apply emits_ret. now apply replaceAt_ok.
Qed.

Lemma arrivals_emits (order : list nat) (tasks : list Task) :
  Forall (taskOk names) tasks ->
  emits (Resuming env) (Forall (taskOk names))
    (arrivals world ep tag order tasks).
Proof.
  revert tasks. induction order as [|i later IH]; intros tasks Hall; simpl.
  - now apply emits_ret.
  - eapply emits_bind; [now apply deliver_emits|]. exact IH.
Qed.

Lemma launch_emits :
  emits (Launching env) (Forall (taskOk names))
    (mapM (pull_start world ep tag) names).
Proof.
  apply emits_mapM with (Pre := fun n => In n names).
  - intros n Hn. now apply pull_start_emits.
  - apply Forall_forall. auto.
Qed.

(** What follows the launch issues only pulls that carry a registry
    credential, and when it returns every callback has finished. *)
Lemma afterLaunch_emits (order : list nat) (tasks0 : list Task) :
  Forall (taskOk names) tasks0 ->
  emits (Resuming env) (Forall (fun t => t = Settled))
    (tasks <- mapM (pull_microtask world ep tag) tasks0 ;;
     tasks <- arrivals world ep tag order tasks ;;
     tasks <- mapM (pull_step world ep tag) tasks ;;
     mapM (pull_step world ep tag) tasks).
Proof.
  intros H0.
  eapply emits_bind.
  { apply emits_mapM with (Pre := taskOk names) (Q := taskOk names);
      [apply pull_microtask_emits | exact H0]. }
  intros tasks1 H1.
  eapply emits_bind; [apply arrivals_emits; exact H1|].
  intros tasks2 H2.
  eapply emits_bind.
  { apply emits_mapM with (Pre := taskOk names)
      (Q := fun t => taskOk names t /\ pastRegistries t);
      [apply pull_step_emits | exact H2]. }
  intros tasks3 H3.
  apply emits_mapM with (Pre := pastRegistries);
    [apply pull_settles|].
  eapply Forall_impl; [|exact H3]. now intros t [_ H].
Qed.

(** The pull stage issues only registry fetches and pulls, and when it
    returns every callback has finished. *)
Lemma pullTasks_emits (order : list nat) :
  emits (Pulling env) (Forall (fun t => t = Settled))
    (pullTasks env world ep tag order).
Proof.
  unfold pullTasks.
  eapply emits_bind.
  { eapply emits_weaken; [| |apply launch_emits].
    - intros r Hr. left. exact Hr.
    - intros a Ha. exact Ha. }
  intros tasks0 H0.
  eapply emits_weaken; [| |apply afterLaunch_emits; exact H0].
  - intros r Hr. right. exact Hr.
  - auto.
Qed.

Lemma pullImages_emits (order : list nat) :
  emits (Pulling env) (fun _ => True) (pullImages env world ep tag order).
Proof.
  unfold pullImages. eapply emits_bind; [apply pullTasks_emits|].
  intros _ _. now apply emits_ret.
Qed.

End Pull.

Lemma resolveStack_emits (hash : string) (ep : Entry.t) :
  emits (Resolving env) (contextOk env hash)
    (resolveStack readFileSync env world ep (releaseTagOf env hash)).
Proof.
  unfold resolveStack.
  eapply emits_bind with
    (Q1 := fun mode =>
             if JS.truthy (standalone env) then fst mode = None
             else exists id, fst mode = Some (swarmFilter id)).
  { destruct (JS.truthy (standalone env)) eqn:Es; simpl.
    - now apply emits_ret.
    - eapply emits_bind with (Q1 := fun _ => True).
      + apply emits_issue; [intros st; now apply IssuedSwarm | trivial].
      + intros swarmResponse _. apply status_check_emits.
        apply emits_ret. simpl. now exists (data swarmResponse). }
  intros [stackOptions id] Hmode. simpl in Hmode |- *.
  eapply emits_bind with (Q1 := fun _ => True).
  { apply emits_issue; [|trivial]. intros st.
    destruct (JS.truthy (standalone env)) eqn:Es.
    - subst stackOptions. now apply IssuedStacksAll.
    - destruct Hmode as [id' ->]. now apply IssuedStacksOfSwarm. }
  intros stacksResponse _. apply status_check_emits.
  destruct (readFileSync _); [|apply emits_exit].
  apply emits_ret. split; reflexivity.
Qed.

Lemma createOrUpdate_emits (hash : string) (c : Context) :
  commitHash env = Some hash ->
  contextOk env hash c ->
  emits (Deciding JSON_parse env) (fun _ => True)
    (createOrUpdate JSON_parse env world c).
Proof.
  intros Hhash Hc. unfold createOrUpdate.
  destruct (stackToUpdate c) as [stack|] eqn:Eu.
  - eapply emits_bind with (Q1 := fun _ => True).
    + apply emits_issue; [|trivial]. intros st.
      now apply IssuedUpdate with (hash := hash).
    + intros r _. apply status_check_emits. now apply emits_ret.
  - eapply emits_bind with (Q1 := fun _ => True).
    + apply emits_issue; [|trivial]. intros st.
      now apply IssuedCreate with (hash := hash).
    + intros r _. apply status_check_emits. now apply emits_ret.
Qed.

Lemma prepare_emits (order : list nat) :
  emits (Prepared env)
    (fun c => exists hash, commitHash env = Some hash /\ contextOk env hash c)
    (prepare readFileSync env world order).
Proof.
  unfold prepare.
  eapply emits_bind.
  { eapply emits_weaken; [| |apply connect_emits].
    - intros r Hr. left. exact Hr.
    - intros a Ha. exact Ha. }
  intros [ep tag] [hash [Hhash Htag]]. simpl in Htag |- *. subst tag.
  eapply emits_bind with (Q1 := fun _ => True).
  { destruct (JS.truthyStr (images env)) eqn:Ei; simpl; [|now apply emits_ret].
    destruct (images env =? ""); simpl; [now apply emits_ret|].
    eapply emits_weaken; [| |now apply pullImages_emits].
    - intros r Hr. right. left. exact Hr.
    - auto. }
  intros _ _.
  eapply emits_weaken; [| |apply resolveStack_emits].
  - intros r Hr. right. right. exact Hr.
  - intros c Hc. exists hash. split; [exact Hhash | exact Hc].
Qed.

(** Every request of a run is one the program issues where [Issued] says. *)
Lemma main_emits (order : list nat) :
  emits (Issued JSON_parse env) (fun _ => True)
    (main JSON_parse readFileSync env world order).
Proof.
  unfold main. eapply emits_bind.
  { eapply emits_weaken; [| |apply prepare_emits].
    - intros r Hr. left. exact Hr.
    - intros a Ha. exact Ha. }
  intros c [hash [Hhash Hc]].
  eapply emits_weaken; [| |now apply createOrUpdate_emits with (hash := hash)].
  - intros r Hr. right. exact Hr.
  - auto.
Qed.

End Stages.

(** Every request of a run from the empty trace is an [Issued] one. *)
Lemma main_trace_issued (JSON_parse : string -> list (string * string))
    (readFileSync : string -> option string) (env : ProcessEnv)
    (world : World) (order : list nat) :
  Forall (Issued JSON_parse env)
    (trace (final (main JSON_parse readFileSync env world order initial))).
Proof. eapply emits_initial. apply main_emits. Qed.

(** ** The bodies of the two stack requests *)

Lemma create_Prune (JSON_parse : string -> list (string * string))
    (env : ProcessEnv) (c : Context) :
  JS.get "Prune" (stackCreateOptions JSON_parse env c) = Some (JS.Bool true).
Proof.
  unfold stackCreateOptions. destruct (JS.truthy (standalone env)); reflexivity.
Qed.

Lemma create_Env (JSON_parse : string -> list (string * string))
    (env : ProcessEnv) (c : Context) :
  JS.get "Env" (stackCreateOptions JSON_parse env c)
  = Some (JS.Arr (composeEnvArray JSON_parse env (releaseTag c))).
Proof.
  unfold stackCreateOptions. destruct (JS.truthy (standalone env)); reflexivity.
Qed.

(** C4: whatever the options, the body of the create request and the body of
    the update request hold [Prune: true], with and without the swarm
    options spread in; so does every create or update request a run
    issues. *)
Theorem prune_is_true_in_both_bodies
    (JSON_parse : string -> list (string * string))
    (readFileSync : string -> option string) (env : ProcessEnv)
    (world : World) (order : list nat) :
  (forall c, JS.get "Prune" (stackCreateOptions JSON_parse env c)
             = Some (JS.Bool true))
  /\ (forall c stack, JS.get "Prune" (stackUpdateBody JSON_parse env c stack)
                      = Some (JS.Bool true))
  /\ Forall (fun r => isStackWrite r = true ->
                      bodyProp "Prune" r = Some (JS.Bool true))
       (trace (final (main JSON_parse readFileSync env world order initial))).
Proof.
  split; [apply create_Prune|]. split; [reflexivity|].
  eapply Forall_impl; [|apply main_trace_issued].
  intros r [[Hr | [[Hr | Hr] | Hr]] | Hr]; destruct Hr;
    unfold isStackWrite; simpl; try discriminate; intros _.
  - apply create_Prune.
  - reflexivity.
Qed.

Lemma update_Env (JSON_parse : string -> list (string * string))
    (env : ProcessEnv) (c : Context) (stack : Entry.t) :
  JS.get "Env" (stackUpdateBody JSON_parse env c stack)
  = Some (JS.Arr (composeEnvArray JSON_parse env (releaseTag c))).
Proof. reflexivity. Qed.

(** ** The compose environment *)

(** C8: for a branch other than "main" the URL prefix is the branch name
    followed by "."; for "main" it is empty; and it is the value of the
    second entry, URL_PREFIX, of the compose environment. *)
Theorem url_prefix_of_branch
    (JSON_parse : string -> list (string * string)) (env : ProcessEnv)
    (branch tag : string) :
  branchName env = Some branch ->
  (branch <> "main" -> urlPrefix env = branch +:+ ".")
  /\ (branch = "main" -> urlPrefix env = "")
  /\ nth_error (composeEnvArray JSON_parse env tag) 1
     = Some (envEntry "URL_PREFIX" (JS.Str (urlPrefix env))).
Proof.
  intros Hb. split; [|split].
  - intros Hne. unfold urlPrefix, sameName. rewrite Hb.
    destruct ("main" =? branch) eqn:E; [|reflexivity].
    apply String.eqb_eq in E. now elim Hne.
  - intros ->. unfold urlPrefix, sameName. rewrite Hb. reflexivity.
  - reflexivity.
Qed.

Lemma url_prefix_of_branch_witness :
  (urlPrefix (Sample.env None None) = "dev.")
  /\ nth_error (composeEnvArray Sample.JSON_parse (Sample.env None None) "t") 1
     = Some (envEntry "URL_PREFIX" (JS.Str "dev.")).
Proof.
  destruct (url_prefix_of_branch Sample.JSON_parse (Sample.env None None)
              "dev" "t" eq_refl) as [Hdev [_ Hentry]].
  split.
  - apply Hdev. discriminate.
  - rewrite Hentry, Hdev; [reflexivity | discriminate].
Defined.

Lemma prop_of_entry (k v : string) (before after : list (string * string)) :
  ~ In k (JS.keys before) ->
  JS.prop k (before ++ (k, v) :: after) = Some v.
Proof.
  induction before as [|[k' v'] rest IH]; simpl; intros Hnot.
  - now rewrite String.eqb_refl.
  - destruct (k' =? k) eqn:E.
    + apply String.eqb_eq in E. elim Hnot. now left.
    + apply IH. intros Hin. apply Hnot. now right.
Qed.

(** With distinct keys, reading each key of a record back gives its
    entries in order. *)
Lemma entries_by_key (o : list (string * string)) :
  NoDup (JS.keys o) ->
  map (fun k => (k, JS.prop k o)) (JS.keys o)
  = map (fun kv => (fst kv, Some (snd kv))) o.
Proof.
  intros Hnd.
  assert (G : forall before rest,
             o = before ++ rest ->
             map (fun k => (k, JS.prop k o)) (JS.keys rest)
             = map (fun kv => (fst kv, Some (snd kv))) rest).
  { intros before rest. revert before.
    induction rest as [|[k v] rest IH]; intros before Ho; [reflexivity|].
    simpl. f_equal.
    - f_equal. rewrite Ho. apply prop_of_entry.
      rewrite Ho in Hnd. unfold JS.keys in Hnd |- *.
      rewrite map_app in Hnd. simpl in Hnd.
      now apply NoDup_remove_2 in Hnd as Hk; intros Hin; apply Hk, in_or_app; left.
    - apply (IH (before ++ [(k, v)])). now rewrite <- app_assoc. }
  exact (G [] o eq_refl).
Qed.

(** C7: the compose environment is the three mandatory entries RELEASE_TAG,
    URL_PREFIX, STACK_NAME in that order, followed by the additional
    entries in the iteration order of their record (whose keys are
    distinct, as an object's are); this array is the [Env] of the create
    body and of the update body. *)
Theorem compose_env_mandatory_then_additional
    (JSON_parse : string -> list (string * string)) (env : ProcessEnv)
    (tag : string) :
  NoDup (JS.keys (additionalComposeEnv JSON_parse env)) ->
  composeEnvArray JSON_parse env tag
  = [ envEntry "RELEASE_TAG" (JS.Str tag);
      envEntry "URL_PREFIX" (JS.Str (urlPrefix env));
      envEntry "STACK_NAME" (JS.ofOpt (stackName env)) ]
    ++ map (fun kv => envEntry (fst kv) (JS.Str (snd kv)))
         (additionalComposeEnv JSON_parse env)
  /\ (forall c, releaseTag c = tag ->
                JS.get "Env" (stackCreateOptions JSON_parse env c)
                = Some (JS.Arr (composeEnvArray JSON_parse env tag)))
  /\ (forall c stack, releaseTag c = tag ->
                      JS.get "Env" (stackUpdateBody JSON_parse env c stack)
                      = Some (JS.Arr (composeEnvArray JSON_parse env tag))).
Proof.
  intros Hnd. split; [|split].
  - unfold composeEnvArray. f_equal.
    pose proof (entries_by_key _ Hnd) as E.
    apply (f_equal (map (fun p => envEntry (fst p) (JS.ofOpt (snd p))))) in E.
    rewrite !map_map in E. simpl in E. exact E.
  - intros c <-. apply create_Env.
  - intros c stack <-. apply update_Env.
Qed.

Lemma compose_env_mandatory_then_additional_witness :
  composeEnvArray Sample.JSON_parse (Sample.env None None) "dev-01234567"
  = [ envEntry "RELEASE_TAG" (JS.Str "dev-01234567");
      envEntry "URL_PREFIX" (JS.Str "dev.");
      envEntry "STACK_NAME" (JS.Str "web");
      envEntry "A" (JS.Str "1");
      envEntry "B" (JS.Str "2") ].
Proof.
  assert (Hnd : NoDup (JS.keys (additionalComposeEnv Sample.JSON_parse
                                  (Sample.env None None)))).
  { vm_compute. repeat constructor; simpl; intuition discriminate. }
  exact (proj1 (compose_env_mandatory_then_additional Sample.JSON_parse
                  (Sample.env None None) "dev-01234567" Hnd)).
Defined.

(** ** The release tag *)

Lemma substring_firstChars (n : nat) (s : string) :
  substring 0 n s = firstChars n s.
Proof.
  revert s. induction n as [|n IH]; intros [|c s]; try reflexivity.
  unfold firstChars. simpl. f_equal. apply IH.
Qed.

Lemma no_hash_exits (JSON_parse : string -> list (string * string))
    (readFileSync : string -> option string) (env : ProcessEnv)
    (world : World) (order : list nat) :
  commitHash env = None \/ commitHash env = Some "" ->
  main JSON_parse readFileSync env world order initial = Exit 1 initial.
Proof.
  intros H. unfold main, prepare, bind, connect.
  destruct H as [-> | ->]; reflexivity.
Qed.

Lemma issued_carriesTag (JSON_parse : string -> list (string * string))
    (env : ProcessEnv) (hash : string) (r : Request) :
  commitHash env = Some hash ->
  Issued JSON_parse env r ->
  carriesTag (releaseTagOf env hash) r.
Proof.
  intros Hhash [[Hr | [[Hr | Hr] | Hr]] | Hr]; destruct Hr;
    unfold carriesTag, isStackWrite; simpl; split;
    try discriminate; intros _;
    repeat match goal with
    | H : commitHash env = Some ?h |- _ =>
        rewrite Hhash in H; injection H as <-
    end;
    try reflexivity.
  - match goal with H : contextOk _ _ _ |- _ => destruct H as [Htag _] end.
    eexists. unfold bodyProp, withDefaults, stackCreateRequest. cbn [body].
    rewrite create_Env, Htag. reflexivity.
  - match goal with H : contextOk _ _ _ |- _ => destruct H as [Htag _] end.
    eexists. unfold bodyProp, withDefaults, stackUpdateRequest. cbn [body].
    rewrite update_Env, Htag. reflexivity.
Qed.

(** C3: a run whose commit hash is absent or empty exits with code 1 before
    any request. Otherwise the release tag is the branch name (as the
    string concatenation renders it), then "-", then the first 8
    characters of the commit hash; every image pull of the run carries it
    as its [tag] parameter, and the create or update body carries it as the
    value of RELEASE_TAG, the first entry of [Env]. *)
Theorem release_tag_of_branch_and_commit
    (JSON_parse : string -> list (string * string))
    (readFileSync : string -> option string) (env : ProcessEnv)
    (world : World) (order : list nat) :
  let run := main JSON_parse readFileSync env world order initial in
  ((commitHash env = None \/ commitHash env = Some "")
   /\ run = Exit 1 initial /\ trace (final run) = [])
  \/ (exists hash,
        commitHash env = Some hash /\ hash <> ""
        /\ releaseTagOf env hash
           = JS.toStr (branchName env) +:+ "-" +:+ firstChars 8 hash
        /\ (forall branch, branchName env = Some branch ->
                           releaseTagOf env hash
                           = branch +:+ "-" +:+ firstChars 8 hash)
        /\ Forall (carriesTag (releaseTagOf env hash)) (trace (final run))).
Proof.
  intros run. destruct (commitHash env) as [hash|] eqn:Eh.
  - destruct (string_dec hash "") as [-> | Hne].
    + left. split; [now right|].
      unfold run. rewrite no_hash_exits; [now split | now right].
    + right. exists hash. split; [reflexivity|]. split; [exact Hne|].
      split; [|split].
      * unfold releaseTagOf. now rewrite substring_firstChars.
      * intros branch Hb. unfold releaseTagOf.
        now rewrite Hb, substring_firstChars.
      * eapply Forall_impl; [|apply main_trace_issued].
        intros r. now apply issued_carriesTag.
  - left. split; [now left|].
    unfold run. rewrite no_hash_exits; [now split | now left].
Qed.

(** ** Which pulls carry a registry credential *)

Lemma first_split (sep : ascii) (s : string) :
  JS.first (JS.split sep s) = Some (beforeFirst sep s).
Proof.
  induction s as [|c rest IH]; simpl; [reflexivity|].
  destruct (Ascii.eqb c sep); [reflexivity|].
  destruct (JS.split sep rest) as [|piece pieces]; simpl in IH |- *.
  - discriminate IH.
  - now injection IH as ->.
Qed.

Lemma registryOf_beforeFirst (imageName : string) :
  registryOf imageName = beforeFirst "/" imageName.
Proof. unfold registryOf. now rewrite first_split. Qed.

Lemma header_of_pull (st : St) (ep : Entry.t) (tag imageName : string)
    (registryAuth : option string) :
  header "X-Registry-Auth"
    (withDefaults st (imageRequest ep tag imageName registryAuth))
  = registryAuth.
Proof.
  unfold header, withDefaults, defaultHeaders. cbn [headers imageRequest].
  destruct (authorization st), registryAuth; reflexivity.
Qed.

(** The first segment of the callback of one image: either the registry
    is the exempted one and the pull leaves at once, without credential; or
    a registry lookup starts, which fetches the list when no list is cached
    and otherwise goes on with the cached one. *)
Lemma pull_start_cases (world : World) (ep : Entry.t) (tag imageName : string)
    (st : St) :
  let plain := withDefaults st (imageRequest ep tag imageName None) in
  (beforeFirst "/" imageName = "docker.io"
   /\ header "X-Registry-Auth" plain = None
   /\ exists imageResponse st',
        pull_start world ep tag imageName st
        = Ret (AwaitPull imageName imageResponse) st'
        /\ trace st' = trace st ++ [plain])
  \/ (beforeFirst "/" imageName <> "docker.io"
      /\ ((registries st = None
           /\ exists registriesResponse st',
                pull_start world ep tag imageName st
                = Ret (AwaitRegistries imageName (beforeFirst "/" imageName)
                         registriesResponse) st'
                /\ trace st' = trace st ++ [withDefaults st registriesRequest])
          \/ (exists cached,
                registries st = Some cached
                /\ pull_start world ep tag imageName st
                   = Ret (Resume imageName (beforeFirst "/" imageName) cached)
                       st))).
Proof.
  intros plain. unfold pull_start. rewrite registryOf_beforeFirst.
  destruct (beforeFirst "/" imageName =? "docker.io") eqn:E; simpl.
  - apply String.eqb_eq in E. left. split; [exact E|].
    split; [apply header_of_pull|].
    unfold bind, issue, ret. eexists. eexists. split; reflexivity.
  - apply String.eqb_neq in E. right. split; [exact E|].
    unfold bind, getRegistries_call.
    destruct (registries st) as [cached|] eqn:Er.
    + right. exists cached. split; reflexivity.
    + left. split; [reflexivity|].
      unfold bind, issue, ret. eexists. eexists. split; reflexivity.
Qed.

(** The resumption of a lookup that finds the registry issues the pull with
    the credential of that registry. *)
Lemma pull_withAuth_found (world : World) (ep : Entry.t)
    (tag imageName registry : string) (rs : list Registry.t)
    (found : Registry.t) (st : St) :
  JS.find (fun reg => Registry.URL reg =? registry) rs = Some found ->
  exists registryAuth imageResponse st',
    pull_withAuth world ep tag imageName registry rs st
    = Ret (AwaitPull imageName imageResponse) st'
    /\ trace st'
       = trace st
         ++ [withDefaults st (imageRequest ep tag imageName (Some registryAuth))].
Proof.
  intros Hfound. unfold pull_withAuth, bind, getRegistryAuth_resume.
  rewrite Hfound. unfold ret, issue. eexists. eexists. eexists.
  split; reflexivity.
Qed.

Lemma issued_pull_header (JSON_parse : string -> list (string * string))
    (env : ProcessEnv) (r : Request) :
  Issued JSON_parse env r ->
  isImagePull r = true ->
  exists imageName,
    In imageName (JS.split "," (images env))
    /\ fromImage r = Some imageName
    /\ (header "X-Registry-Auth" r <> None
        <-> beforeFirst "/" imageName <> "docker.io").
Proof.
  intros [[Hr | [[Hr | Hr] | Hr]] | Hr]; destruct Hr; simpl;
    try discriminate; intros _; exists imageName;
    (split; [assumption|]); (split; [reflexivity|]);
    rewrite header_of_pull, <- registryOf_beforeFirst.
  - split; [intros Hn; now elim Hn | intros Hn; contradiction].
  - split; [intros _; assumption | intros _; discriminate].
Qed.

(** ** A run without images *)

Lemma no_images_empty (env : ProcessEnv) :
  PLUGIN_IMAGES env = None \/ PLUGIN_IMAGES env = Some "" ->
  images env = "".
Proof. unfold images. now intros [-> | ->]. Qed.

Lemma issued_without_images (JSON_parse : string -> list (string * string))
    (env : ProcessEnv) (r : Request) :
  images env = "" ->
  Issued JSON_parse env r ->
  isImagePull r = false /\ isRegistriesFetch r = false.
Proof.
  intros Hi [[Hr | [[Hr | Hr] | Hr]] | Hr]; destruct Hr;
    try match goal with
    | H : JS.truthyStr (images env) = true |- _ =>
        rewrite Hi in H; discriminate H
    end;
    split; reflexivity.
Qed.

(** C9: when the image list is unset or empty, the run is the login and
    endpoint lookup followed at once by the stack stage (swarm lookup when
    clustered, stack list, decision), from any state; and it issues no image
    pull and no registry-list fetch. *)
Theorem no_images_skips_pull_stage
    (JSON_parse : string -> list (string * string))
    (readFileSync : string -> option string) (env : ProcessEnv)
    (world : World) (order : list nat) :
  PLUGIN_IMAGES env = None \/ PLUGIN_IMAGES env = Some "" ->
  (forall st,
     main JSON_parse readFileSync env world order st
     = (session <- connect env world ;;
        c <- resolveStack readFileSync env world (fst session) (snd session) ;;
        createOrUpdate JSON_parse env world c) st)
  /\ Forall (fun r => isImagePull r = false /\ isRegistriesFetch r = false)
       (trace (final (main JSON_parse readFileSync env world order initial))).
Proof.
  intros Hunset. apply no_images_empty in Hunset. split.
  - intros st. unfold main, prepare. rewrite Hunset. cbn [JS.truthyStr].
    unfold bind. destruct (connect env world st) as [session st1|code st1];
      reflexivity.
  - eapply Forall_impl; [|apply main_trace_issued].
    intros r. now apply issued_without_images.
Qed.

Lemma no_images_skips_pull_stage_witness :
  map url
    (trace (final (main Sample.JSON_parse Sample.readFileSync
                     (Sample.env (Some "") (Some "true"))
                     (Sample.world []) [] initial)))
  = ["/auth"; "/endpoints"; "/stacks";
     "/stacks?type=2&method=string&endpointId=1"].
Proof.
  rewrite (proj1 (no_images_skips_pull_stage Sample.JSON_parse
                    Sample.readFileSync (Sample.env (Some "") (Some "true"))
                    (Sample.world []) [] (or_intror eq_refl))).
  reflexivity.
Defined.

(** ** The standalone and force-pull options *)

Lemma truthy_flag (o : option string) :
  JS.truthy (JS.nullish o (JS.IsBool false)) = false
  <-> o = None \/ o = Some "".
Proof.
  destruct o as [[|ch s]|]; simpl; split; intros H;
    try reflexivity; try discriminate; auto.
  destruct H as [H | H]; discriminate H.
Qed.

Lemma truthy_nonempty (o : option string) (s : string) :
  o = Some s -> s <> "" ->
  JS.truthy (JS.nullish o (JS.IsBool false)) = true.
Proof.
  intros -> Hne. destruct s; [now elim Hne | reflexivity].
Qed.

Lemma issued_standalone (JSON_parse : string -> list (string * string))
    (env : ProcessEnv) (r : Request) :
  JS.truthy (standalone env) = true ->
  Issued JSON_parse env r -> standaloneShape r.
Proof.
  intros Hs [[Hr | [[Hr | Hr] | Hr]] | Hr]; destruct Hr;
    try match goal with
    | H : JS.truthy (standalone env) = false |- _ =>
        rewrite Hs in H; discriminate H
    end;
    unfold standaloneShape; simpl;
    (split; [reflexivity|]); split; try discriminate; try reflexivity.
  intros _.
  unfold bodyProp, withDefaults, stackCreateRequest, stackCreateOptions,
    operationType.
  cbn [url body]. rewrite Hs. split; reflexivity.
Qed.

Lemma issued_clustered (JSON_parse : string -> list (string * string))
    (env : ProcessEnv) (r : Request) :
  JS.truthy (standalone env) = false ->
  Issued JSON_parse env r -> clusteredShape r.
Proof.
  intros Hs [[Hr | [[Hr | Hr] | Hr]] | Hr]; destruct Hr;
    try match goal with
    | H : JS.truthy (standalone env) = true |- _ =>
        rewrite Hs in H; discriminate H
    end;
    unfold clusteredShape; simpl; split; try discriminate; intros _.
  - now exists id.
  - unfold bodyProp, withDefaults, stackCreateRequest, stackCreateOptions,
      operationType.
    cbn [url body]. rewrite Hs. split; [reflexivity|].
    now exists (swarmId c).
Qed.

Lemma issued_forcePull (JSON_parse : string -> list (string * string))
    (env : ProcessEnv) (r : Request) :
  JS.truthy (forcePull env) = true ->
  Issued JSON_parse env r ->
  isStackUpdate r = true -> bodyProp "PullImage" r = Some (JS.Bool true).
Proof.
  intros Hf [[Hr | [[Hr | Hr] | Hr]] | Hr]; destruct Hr; simpl;
    try discriminate; intros _.
  unfold bodyProp, withDefaults, stackUpdateRequest, stackUpdateBody.
  cbn [body]. rewrite Hf. reflexivity.
Qed.

(** In clustered mode the stack stage begins with the swarm lookup. *)
Lemma clustered_asks_swarm (readFileSync : string -> option string)
    (env : ProcessEnv) (world : World) (ep : Entry.t) (tag : string) (st : St) :
  JS.truthy (standalone env) = false ->
  exists later,
    trace (final (resolveStack readFileSync env world ep tag st))
    = trace st ++ withDefaults st (swarmRequest ep) :: later.
Proof.
  intros Hs. unfold resolveStack, bind. rewrite Hs. cbn [negb].
  unfold issue at 1. cbv beta iota zeta.
  destruct (negb (status _ =? 200)%Z) eqn:E1.
  - exists []. reflexivity.
  - unfold ret, issue. cbv beta iota zeta.
    repeat match goal with
    | |- context [if ?b then _ else _] => destruct b
    | |- context [match readFileSync ?x with _ => _ end] =>
        destruct (readFileSync x)
    end; unfold exit; cbn [final trace]; rewrite <- app_assoc;
      eexists; reflexivity.
Qed.

(** C10: the two options are read by truthiness. The standalone option
    selects clustered mode exactly when it is unset or empty. For every
    non-empty value, "false" included, a run issues no swarm request, lists
    the stacks without parameters, and creates with operation type 2 and
    no SwarmID; when unset or empty the stack stage starts with the swarm
    request, the listing is filtered and a create has type 1 and a SwarmID.
    For every non-empty force-pull value, "false" included, the update body
    holds PullImage: true. *)
Theorem flags_are_read_by_truthiness
    (JSON_parse : string -> list (string * string))
    (readFileSync : string -> option string) (env : ProcessEnv)
    (world : World) (order : list nat) :
  let tr :=
    trace (final (main JSON_parse readFileSync env world order initial)) in
  (JS.truthy (standalone env) = false
   <-> PLUGIN_STANDALONE env = None \/ PLUGIN_STANDALONE env = Some "")
  /\ (forall s, PLUGIN_STANDALONE env = Some s -> s <> "" ->
                Forall standaloneShape tr)
  /\ (PLUGIN_STANDALONE env = None \/ PLUGIN_STANDALONE env = Some "" ->
      Forall clusteredShape tr
      /\ forall ep tag st, exists later,
           trace (final (resolveStack readFileSync env world ep tag st))
           = trace st ++ withDefaults st (swarmRequest ep) :: later)
  /\ (forall s, PLUGIN_FORCE_PULL env = Some s -> s <> "" ->
                (forall c stack,
                   JS.get "PullImage" (stackUpdateBody JSON_parse env c stack)
                   = Some (JS.Bool true))
                /\ Forall (fun r => isStackUpdate r = true ->
                                    bodyProp "PullImage" r = Some (JS.Bool true))
                     tr).
Proof.
  intros tr. split; [apply truthy_flag|]. split; [|split].
  - intros s Hs Hne.
    eapply Forall_impl; [|apply main_trace_issued].
    intros r. apply issued_standalone.
    exact (truthy_nonempty _ s Hs Hne).
  - intros Hunset. apply truthy_flag in Hunset. split.
    + eapply Forall_impl; [|apply main_trace_issued].
      intros r. now apply issued_clustered.
    + intros ep tag st. now apply clustered_asks_swarm.
  - intros s Hs Hne.
    pose proof (truthy_nonempty _ s Hs Hne) as Hf. split.
    + intros c stack. unfold stackUpdateBody.
      fold (forcePull env) in Hf. rewrite Hf. reflexivity.
    + eapply Forall_impl; [|apply main_trace_issued].
      intros r. now apply issued_forcePull.
Qed.

(** ** Create or update *)

Lemma prepared_no_write (env : ProcessEnv) (r : Request) :
  Prepared env r -> isStackWrite r = false.
Proof.
  intros [Hr | [[Hr | Hr] | Hr]]; destruct Hr; reflexivity.
Qed.

(** When [resolveStack] returns, the last request is the stack list and the
    context holds the list that came back. *)
Lemma resolveStack_Ret (readFileSync : string -> option string)
    (env : ProcessEnv) (world : World) (ep : Entry.t) (tag : string)
    (st0 st : St) (c : Context) :
  resolveStack readFileSync env world ep tag st0 = Ret c st ->
  (exists before q, trace st = before ++ [q] /\ isStacksList q = true)
  /\ stacksData c = data (stacks_reply world (trace st))
  /\ localEp c = ep.
Proof.
  unfold resolveStack, bind.
  destruct (JS.truthy (standalone env)); cbn [negb].
  - unfold ret, issue. cbv beta iota zeta.
    destruct (negb (status _ =? 200)%Z); [discriminate|].
    destruct (readFileSync _); [|discriminate].
    intros H. injection H as <- <-. cbn [trace stacksData localEp].
    split; [|split; reflexivity]. eexists. eexists. split; reflexivity.
  - unfold issue at 1. cbv beta iota zeta.
    destruct (negb (status _ =? 200)%Z); [discriminate|].
    unfold ret, issue. cbv beta iota zeta.
    destruct (negb (status _ =? 200)%Z); [discriminate|].
    destruct (readFileSync _); [|discriminate].
    intros H. injection H as <- <-. cbn [trace stacksData localEp].
    split; [|split; reflexivity]. eexists. eexists. split; reflexivity.
Qed.

Lemma prepare_Ret (readFileSync : string -> option string)
    (env : ProcessEnv) (world : World) (order : list nat)
    (st0 st : St) (c : Context) :
  prepare readFileSync env world order st0 = Ret c st ->
  exists ep tag st1, resolveStack readFileSync env world ep tag st1 = Ret c st.
Proof.
  unfold prepare, bind.
  destruct (connect env world st0) as [[ep tag] st1|]; [|discriminate].
  match goal with
  | |- context [match ?m st1 with _ => _ end] => destruct (m st1) as [u st2|]
  end; [|discriminate].
  intros H. now exists ep, tag, st2.
Qed.

Lemma count_app (kind : Request -> bool) (a b : list Request) :
  count kind (a ++ b) = count kind a + count kind b.
Proof. unfold count. now rewrite filter_app, length_app. Qed.

Lemma count_none (kind : Request -> bool) (tr : list Request) :
  Forall (fun r => kind r = false) tr -> count kind tr = 0.
Proof.
  unfold count. induction 1 as [|r rest Hr _ IH]; simpl; [reflexivity|].
  now rewrite Hr.
Qed.

Lemma count_one (kind : Request -> bool) (r : Request) :
  kind r = true -> count kind [r] = 1.
Proof. intros H. unfold count. simpl. now rewrite H. Qed.

Lemma update_isStackUpdate (JSON_parse : string -> list (string * string))
    (env : ProcessEnv) (c : Context) (stack : Entry.t) (st : St) :
  isStackUpdate (withDefaults st (stackUpdateRequest JSON_parse env c stack))
  = true.
Proof.
  unfold isStackUpdate. simpl.
  now destruct (JS.numToStr (Entry.Id stack) +:+ _).
Qed.

(** C1: in a run that reaches the decision, no create or update request
    was issued before it, the last request before it is the stack list,
    and exactly one request follows. When the list that came back holds an
    entry whose Name is the configured stack name, the first such entry is
    found and the request is the update, addressed to its Id. Otherwise no
    entry has that Name and the request is the create, built without
    anything from the list. *)
Theorem create_or_update_by_name
    (JSON_parse : string -> list (string * string))
    (readFileSync : string -> option string) (env : ProcessEnv)
    (world : World) (order : list nat) (c : Context) (st : St) :
  prepare readFileSync env world order initial = Ret c st ->
  let run := main JSON_parse readFileSync env world order initial in
  let listed := data (stacks_reply world (trace st)) in
  exists r,
    trace (final run) = trace st ++ [r]
    /\ count isStackWrite (trace st) = 0
    /\ count isStackWrite (trace (final run)) = 1
    /\ (exists before q, trace st = before ++ [q] /\ isStacksList q = true)
    /\ match JS.find (matchesStack env) listed with
       | Some stack =>
           In stack listed
           /\ stackName env = Some (Entry.Name stack)
           /\ r = withDefaults st (stackUpdateRequest JSON_parse env c stack)
           /\ isStackUpdate r = true /\ isStackCreate r = false
           /\ url r = "/stacks/" +:+ JS.numToStr (Entry.Id stack)
                        +:+ "?endpointId="
                        +:+ JS.numToStr (Entry.Id (localEp c))
           /\ bodyProp "id" r = Some (JS.Num (Entry.Id stack))
       | None =>
           (forall entry, In entry listed ->
                          stackName env <> Some (Entry.Name entry))
           /\ r = withDefaults st
                    (stackCreateRequest JSON_parse env (forgetStacks c))
           /\ isStackCreate r = true /\ isStackUpdate r = false
       end.
Proof.
  intros Hprep run listed.
  destruct (prepare_emits readFileSync env world order initial)
    as [[new [Hnew Hall]] Hctx].
  rewrite Hprep in Hnew. cbn [final trace initial app] in Hnew.
  destruct (Hctx c st Hprep) as [hash [_ [_ Hfind]]].
  destruct (prepare_Ret _ _ _ _ _ _ _ Hprep) as [ep [tag [st1 Hres]]].
  destruct (resolveStack_Ret _ _ _ _ _ _ _ _ Hres) as [Hlast [Hdata _]].
  assert (Hnone : count isStackWrite (trace st) = 0).
  { apply count_none. rewrite Hnew.
    eapply Forall_impl; [|exact Hall]. apply prepared_no_write. }
  assert (Hrun : forall r,
             createOrUpdate JSON_parse env world c st = Ret tt
               {| trace := trace st ++ [r]; registries := registries st;
                  authorization := authorization st |}
             \/ createOrUpdate JSON_parse env world c st = Exit 1
                  {| trace := trace st ++ [r]; registries := registries st;
                     authorization := authorization st |} ->
             trace (final run) = trace st ++ [r]).
  { intros r Hr. unfold run, main, bind. rewrite Hprep.
    destruct Hr as [-> | ->]; reflexivity. }
  rewrite Hdata in Hfind. fold listed in Hfind.
  unfold createOrUpdate in Hrun. rewrite Hfind in Hrun.
  destruct (JS.find (matchesStack env) listed) as [stack|] eqn:Ef.
  - exists (withDefaults st (stackUpdateRequest JSON_parse env c stack)).
    assert (Ht : trace (final run)
                 = trace st
                   ++ [withDefaults st (stackUpdateRequest JSON_parse env c stack)]).
    { apply Hrun. unfold bind, issue, ret, exit. cbv beta iota zeta.
      destruct (negb (status _ =? 200)%Z); [right | left]; reflexivity. }
    pose proof (update_isStackUpdate JSON_parse env c stack st) as Hupd.
    split; [exact Ht|]. split; [exact Hnone|].
    split.
    { rewrite Ht, count_app, Hnone. apply count_one.
      unfold isStackWrite. rewrite Hupd. apply orb_true_r. }
    split; [exact Hlast|].
    apply find_some in Ef. destruct Ef as [Hin Hname].
    unfold matchesStack, sameName in Hname.
    destruct (stackName env) as [n|]; [|discriminate].
    apply String.eqb_eq in Hname. subst n.
    repeat split; auto.
  - exists (withDefaults st (stackCreateRequest JSON_parse env (forgetStacks c))).
    assert (Ht : trace (final run)
                 = trace st
                   ++ [withDefaults st
                         (stackCreateRequest JSON_parse env (forgetStacks c))]).
    { apply Hrun. unfold bind, issue, ret, exit. cbv beta iota zeta.
      destruct (negb (status _ =? 200)%Z); [right | left]; reflexivity. }
    split; [exact Ht|]. split; [exact Hnone|].
    split; [rewrite Ht, count_app, Hnone; apply count_one; reflexivity|].
    split; [exact Hlast|].
    split; [|repeat split].
    intros entry Hin Hname.
    pose proof (find_none _ _ Ef entry Hin) as Hno.
    unfold matchesStack, sameName in Hno. rewrite Hname in Hno.
    now rewrite String.eqb_refl in Hno.
Qed.

Lemma create_or_update_by_name_witness :
  exists r,
    In r (trace (final (main Sample.JSON_parse Sample.readFileSync
                          (Sample.env None None)
                          (Sample.world [Sample.web]) [] initial)))
    /\ isStackUpdate r = true
    /\ url r = "/stacks/7?endpointId=1".
Proof.
  let v := eval vm_compute in
             (prepare Sample.readFileSync (Sample.env None None)
                (Sample.world [Sample.web]) [] initial) in
  lazymatch v with
  | Ret ?c ?st =>
      destruct (create_or_update_by_name Sample.JSON_parse Sample.readFileSync
                  (Sample.env None None) (Sample.world [Sample.web]) []
                  c st eq_refl) as [r [Ht [_ [_ [_ Hm]]]]]
  end.
  change (JS.find _ _) with (Some Sample.web) in Hm.
  destruct Hm as [_ [_ [_ [Hupd [_ [Hurl _]]]]]].
  exists r. split; [|split].
  - rewrite Ht. apply in_or_app. right. now left.
  - exact Hupd.
  - exact Hurl.
Defined.

(** ** A failing endpoint list *)

(** The status of the endpoint list plays no part: with a successful login
    and the endpoint in the list that came back, [connect] returns. *)
Lemma connect_ignores_endpoints_status (env : ProcessEnv) (world : World)
    (hash : string) :
  commitHash env = Some hash -> hash <> "" ->
  let sentAuth := withDefaults initial (authRequest env) in
  let afterAuth :=
    {| trace := [sentAuth]; registries := None;
       authorization := Some ("Bearer " +:+ data (auth_reply world [sentAuth])) |} in
  let tr := [sentAuth; withDefaults afterAuth endpointsRequest] in
  status (auth_reply world [sentAuth]) = 200%Z ->
  forall ep,
    JS.find (fun e => sameName (Entry.Name e) (endpoint env))
      (data (endpoints_reply world tr)) = Some ep ->
    connect env world initial
    = Ret (ep, releaseTagOf env hash)
        {| trace := tr; registries := None;
           authorization := authorization afterAuth |}.
Proof.
  intros Hhash Hne sentAuth afterAuth tr Hauth ep Hfind.
  unfold connect. rewrite Hhash.
  destruct hash as [|ch hash']; [now elim Hne|]. cbn [JS.truthyStr String.eqb negb].
  unfold bind, issue, setAuthorization. cbn [trace initial app].
  fold sentAuth. rewrite Hauth. cbn [Z.eqb Pos.eqb negb].
  match goal with
  | |- match ?f with _ => _ end _ = _ =>
      change f with
        (JS.find (fun e => sameName (Entry.Name e) (endpoint env))
           (data (endpoints_reply world tr)))
  end.
  rewrite Hfind. reflexivity.
Qed.

(** A login that fails ends the run with exit code 1 after that one
    request. *)
Lemma login_failure_halts (JSON_parse : string -> list (string * string))
    (readFileSync : string -> option string) (env : ProcessEnv)
    (world : World) (order : list nat) (hash : string) :
  commitHash env = Some hash -> hash <> "" ->
  status (auth_reply world [withDefaults initial (authRequest env)]) <> 200%Z ->
  main JSON_parse readFileSync env world order initial
  = Exit 1 {| trace := [withDefaults initial (authRequest env)];
              registries := None; authorization := None |}.
Proof.
  intros Hhash Hne Hstatus. unfold main, prepare, bind, connect.
  rewrite Hhash. destruct hash as [|ch hash']; [now elim Hne|].
  cbn [JS.truthyStr String.eqb negb]. unfold bind, issue.
  cbn [trace initial app registries authorization].
  apply Z.eqb_neq in Hstatus. rewrite Hstatus. reflexivity.
Qed.

(** C2, at the failing input: the endpoint list comes back with status 500
    and the run goes on all the same: it pulls the image, lists the
    stacks, creates the stack and ends normally. *)
Theorem endpoint_list_failure_does_not_halt :
  let env := Sample.env (Some "docker.io/app:latest") (Some "true") in
  let world := Sample.worldEndpointsFailing [] in
  let run := main Sample.JSON_parse Sample.readFileSync env world [] initial in
  status (endpoints_reply world
            (firstn 2 (trace (final run)))) = 500%Z
  /\ run = Ret tt (final run)
  /\ map url (trace (final run))
     = ["/auth"; "/endpoints"; "/endpoints/1/docker/images/create";
        "/stacks"; "/stacks?type=2&method=string&endpointId=1"]
  /\ count isImagePull (trace (final run)) = 1
  /\ count isStackRequest (trace (final run)) = 2.
Proof.
  cbv zeta. repeat split; vm_compute; reflexivity.
Qed.

(** ** The registry list *)

(** Resolutions one after the other: once a fetch has come back with 200,
    the next call of [getRegistries] returns the list it stored and issues
    nothing. *)
Lemma getRegistries_hits_cache (world : World) (st st1 st2 : St)
    (registriesResponse : Response (list Registry.t)) (rs : list Registry.t) :
  getRegistries_call world st = Ret (inr registriesResponse) st1 ->
  getRegistries_resume registriesResponse st1 = Ret rs st2 ->
  getRegistries_call world st2 = Ret (inl rs) st2.
Proof.
  intros _. unfold getRegistries_resume.
  destruct (negb (status registriesResponse =? 200)%Z); [discriminate|].
  unfold bind, setRegistries, ret. intros H. injection H as <- <-.
  reflexivity.
Qed.

(** The callbacks all start before any response has come back: each one
    that needs a credential finds no list cached and fetches it. *)
Lemma launch_fetches (world : World) (ep : Entry.t) (tag : string)
    (names : list string) (st : St) :
  registries st = None ->
  exists tasks st',
    mapM (pull_start world ep tag) names st = Ret tasks st'
    /\ registries st' = None
    /\ count isRegistriesFetch (trace st')
       = count isRegistriesFetch (trace st) + length (filter needsAuth names).
Proof.
  revert st. induction names as [|imageName rest IH]; intros st Hnone.
  - exists [], st. split; [reflexivity|]. split; [exact Hnone|].
    simpl. lia.
  - simpl mapM. unfold bind at 1.
    assert (Hstart : exists t st1,
               pull_start world ep tag imageName st = Ret t st1
               /\ registries st1 = None
               /\ count isRegistriesFetch (trace st1)
                  = count isRegistriesFetch (trace st)
                    + (if needsAuth imageName then 1 else 0)).
    { unfold pull_start, needsAuth.
      destruct (registryOf imageName =? "docker.io"); cbn [negb].
      - unfold bind, issue, ret. eexists. eexists.
        split; [reflexivity|]. split; [exact Hnone|].
        cbn [trace]. rewrite count_app. f_equal.
      - unfold bind, getRegistries_call. rewrite Hnone.
        unfold bind, issue, ret. eexists. eexists.
        split; [reflexivity|]. split; [exact Hnone|].
        cbn [trace]. rewrite count_app. f_equal. }
    destruct Hstart as [t [st1 [-> [Hnone1 Hcount1]]]].
    destruct (IH st1 Hnone1) as [tasks [st' [Hrest [Hnone' Hcount']]]].
    unfold bind. rewrite Hrest. exists (t :: tasks), st'.
    split; [reflexivity|]. split; [exact Hnone'|].
    rewrite Hcount', Hcount1. simpl filter.
    destruct (needsAuth imageName); simpl; lia.
Qed.

Lemma after_launch_no_fetch (JSON_parse : string -> list (string * string))
    (env : ProcessEnv) (r : Request) :
  Resuming env r \/ Resolving env r \/ Deciding JSON_parse env r ->
  isRegistriesFetch r = false.
Proof. intros [Hr | [Hr | Hr]]; destruct Hr; reflexivity. Qed.

Lemma connecting_no_fetch (env : ProcessEnv) (r : Request) :
  Connecting env r -> isRegistriesFetch r = false.
Proof. intros Hr; destruct Hr; reflexivity. Qed.

(** In a run that reaches the pull stage, the registry list is fetched once
    for every image of the list whose registry is not "docker.io",
    whatever the order in which the responses arrive. *)
Lemma registry_list_fetched_per_image
    (JSON_parse : string -> list (string * string))
    (readFileSync : string -> option string) (env : ProcessEnv)
    (world : World) (order : list nat) (session : Entry.t * string) (st1 : St) :
  connect env world initial = Ret session st1 ->
  images env <> "" ->
  count isRegistriesFetch
    (trace (final (main JSON_parse readFileSync env world order initial)))
  = length (filter needsAuth (JS.split "," (images env))).
Proof.
  intros Hconnect Himages.
  destruct (connect_emits env world initial) as [[new1 [Hnew1 Hall1]] Hq].
  rewrite Hconnect in Hnew1. cbn [final trace initial app] in Hnew1.
  destruct (Hq session st1 Hconnect) as [hash [Hhash Htag]].
  destruct session as [ep tag]. cbn [snd] in Htag. subst tag.
  assert (Htruthy : JS.truthyStr (images env) = true).
  { unfold JS.truthyStr. apply String.eqb_neq in Himages. now rewrite Himages. }
  assert (Hreg1 : registries st1 = None).
  { revert Hconnect. unfold connect. rewrite Hhash.
    destruct (negb (JS.truthyStr hash)); [discriminate|].
    unfold bind, issue, setAuthorization. cbv beta iota zeta.
    destruct (negb (status _ =? 200)%Z); [discriminate|].
    destruct (JS.find _ _); [|discriminate].
    unfold ret. intros H. injection H as _ <-. reflexivity. }
  destruct (launch_fetches world ep (releaseTagOf env hash)
              (JS.split "," (images env)) st1 Hreg1)
    as [tasks0 [st2 [Hlaunch [_ Hcount]]]].
  destruct (launch_emits env world hash Hhash Htruthy ep st1)
    as [_ Hok].
  specialize (Hok tasks0 st2 Hlaunch).
  pose (rest :=
          (pulled <- (tasks <- mapM (pull_microtask world ep (releaseTagOf env hash)) tasks0 ;;
                      tasks <- arrivals world ep (releaseTagOf env hash) order tasks ;;
                      tasks <- mapM (pull_step world ep (releaseTagOf env hash)) tasks ;;
                      mapM (pull_step world ep (releaseTagOf env hash)) tasks) ;;
           c <- resolveStack readFileSync env world ep (releaseTagOf env hash) ;;
           createOrUpdate JSON_parse env world c)).
  assert (Hmain : main JSON_parse readFileSync env world order initial = rest st2).
  { unfold main, prepare, pullImages, pullTasks, rest, bind.
    rewrite Hconnect. cbn [fst snd]. rewrite Htruthy.
    apply String.eqb_neq in Himages. rewrite Himages. cbn [negb andb].
    rewrite Hlaunch. unfold ret.
    repeat (cbv beta iota;
            match goal with
            | |- match ?m with _ => _ end = _ => destruct_innermost m
            end);
      reflexivity. }
  assert (Hrest : emits
            (fun r => Resuming env r \/ Resolving env r \/ Deciding JSON_parse env r)
            (fun _ => True) rest).
  { unfold rest. eapply emits_bind.
    { eapply emits_weaken;
        [| |exact (afterLaunch_emits env world hash Hhash Htruthy
                     ep order tasks0 Hok)].
      - intros r Hr. left. exact Hr.
      - intros a Ha. exact Ha. }
    intros _ _. eapply emits_bind.
    { eapply emits_weaken; [| |apply resolveStack_emits with (hash := hash)].
      - intros r Hr. right. left. exact Hr.
      - intros a Ha. exact Ha. }
    intros c Hc.
    eapply emits_weaken;
      [| |exact (createOrUpdate_emits JSON_parse env world hash c Hhash Hc)].
    - intros r Hr. right. right. exact Hr.
    - auto. }
  destruct (Hrest st2) as [[new3 [Hnew3 Hall3]] _].
  rewrite Hmain, Hnew3, count_app, Hcount.
  rewrite (count_none isRegistriesFetch new3).
  - rewrite (count_none isRegistriesFetch (trace st1)); [lia|].
    rewrite Hnew1. eapply Forall_impl; [|exact Hall1].
    apply connecting_no_fetch.
  - eapply Forall_impl; [|exact Hall3].
    apply after_launch_no_fetch.
Qed.

(** C6, at the failing input: two images of the same registry. Whatever
    the order of the responses, the run fetches the registry list twice. *)
Theorem registry_list_fetched_twice (order : list nat) :
  count isRegistriesFetch
    (trace (final (main Sample.JSON_parse Sample.readFileSync
                     (Sample.env
                        (Some "registry.example.com/a,registry.example.com/b")
                        None)
                     (Sample.world []) order initial)))
  = 2.
Proof.
  set (env := Sample.env
                (Some "registry.example.com/a,registry.example.com/b") None).
  destruct (connect env (Sample.world []) initial) as [session st1|] eqn:E;
    [|discriminate E].
  rewrite (registry_list_fetched_per_image Sample.JSON_parse
             Sample.readFileSync env (Sample.world []) order session st1 E);
    [reflexivity | discriminate].
Qed.

(** ** Concrete runs *)

Example split_images :
  JS.split "," "docker.io/app:latest,registry.example.com/svc:latest"
  = ["docker.io/app:latest"; "registry.example.com/svc:latest"].
Proof. reflexivity. Qed.

Example split_trailing_separator : JS.split "," "a," = ["a"; ""].
Proof. reflexivity. Qed.

Example registryOf_without_slash : registryOf "nginx" = "nginx".
Proof. reflexivity. Qed.

Example base64_of_registry_7 :
  JS.base64 ("{" +:+ JS.dquote +:+ "registryId" +:+ JS.dquote +:+ ":7}")
  = "eyJyZWdpc3RyeUlkIjo3fQ==".
Proof. reflexivity. Qed.

Example spread_overrides_in_place :
  JS.spread (JS.literal [("a", JS.Num 1); ("b", JS.Num 2)]) [("a", JS.Num 3)]
  = [("a", JS.Num 3); ("b", JS.Num 2)].
Proof. reflexivity. Qed.

Example release_tag_of_sample :
  releaseTagOf (Sample.env None None) "0123456789abcdef" = "dev-01234567".
Proof. reflexivity. Qed.

(** The image list of the specification: the pull of the docker.io image
    leaves first and without credential; the other image fetches the
    registry list and then pulls with the credential of registry 7. *)
Example pull_of_mixed_registries :
  map (fun r => (url r, header "X-Registry-Auth" r))
    (trace (final (main Sample.JSON_parse Sample.readFileSync
                     (Sample.env
                        (Some "docker.io/app:latest,registry.example.com/svc:latest")
                        None)
                     (Sample.world [Sample.web]) [] initial)))
  = [("/auth", None); ("/endpoints", None);
     ("/endpoints/1/docker/images/create", None);
     ("/registries", None);
     ("/endpoints/1/docker/images/create", Some "eyJyZWdpc3RyeUlkIjo3fQ==");
     ("/endpoints/1/docker/swarm", None); ("/stacks", None);
     ("/stacks/7?endpointId=1", None)].
Proof. vm_compute. reflexivity. Qed.

(** The standalone option set to the text "false" is standalone mode. *)
Example standalone_false_is_standalone :
  map url
    (trace (final (main Sample.JSON_parse Sample.readFileSync
                     (Sample.env None (Some "false"))
                     (Sample.world []) [] initial)))
  = ["/auth"; "/endpoints"; "/stacks";
     "/stacks?type=2&method=string&endpointId=1"].
Proof. vm_compute. reflexivity. Qed.

(** A registry that the control plane does not know ends the run before
    the pull of its image. *)
Example unknown_registry_exits :
  main Sample.JSON_parse Sample.readFileSync
    (Sample.env (Some "other.example.com/app:1") None)
    (Sample.world []) [] initial
  = Exit 1 (final (main Sample.JSON_parse Sample.readFileSync
                     (Sample.env (Some "other.example.com/app:1") None)
                     (Sample.world []) [] initial))
  /\ count isImagePull
       (trace (final (main Sample.JSON_parse Sample.readFileSync
                        (Sample.env (Some "other.example.com/app:1") None)
                        (Sample.world []) [] initial))) = 0.
Proof. split; vm_compute; reflexivity. Qed.

(** ** The status checks of the other stages *)

(** A registry list or a pull that comes back with another status than 200
    ends the run when its callback resumes. *)
Lemma pull_step_halts_on_failure (world : World) (ep : Entry.t) (tag : string)
    (t : Task) (st : St) :
  match t with
  | AwaitRegistries _ _ response => status response <> 200%Z
  | AwaitPull _ response => status response <> 200%Z
  | Resume _ _ _ | Settled => False
  end ->
  pull_step world ep tag t st = Exit 1 st.
Proof.
  destruct t as [imageName registry response | imageName registry rs
                | imageName response | ]; try contradiction;
    intros Hstatus; apply Z.eqb_neq in Hstatus; simpl.
  - unfold bind, getRegistries_resume. now rewrite Hstatus.
  - now rewrite Hstatus.
Qed.

(** A swarm lookup that fails ends the run before the stack list. *)
Lemma swarm_failure_halts (readFileSync : string -> option string)
    (env : ProcessEnv) (world : World) (ep : Entry.t) (tag : string) (st : St) :
  JS.truthy (standalone env) = false ->
  let tr := trace st ++ [withDefaults st (swarmRequest ep)] in
  status (swarm_reply world tr) <> 200%Z ->
  resolveStack readFileSync env world ep tag st
  = Exit 1 {| trace := tr; registries := registries st;
              authorization := authorization st |}.
Proof.
  intros Hs tr Hstatus. apply Z.eqb_neq in Hstatus.
  unfold resolveStack, bind. rewrite Hs. cbn [negb].
  unfold issue at 1. cbv beta iota zeta. fold tr. now rewrite Hstatus.
Qed.

(** A stack list that fails ends the run before the decision (standalone
    mode, where it is the first request of the stage). *)
Lemma stack_list_failure_halts (readFileSync : string -> option string)
    (env : ProcessEnv) (world : World) (ep : Entry.t) (tag : string) (st : St) :
  JS.truthy (standalone env) = true ->
  let tr := trace st ++ [withDefaults st (stacksRequest None)] in
  status (stacks_reply world tr) <> 200%Z ->
  resolveStack readFileSync env world ep tag st
  = Exit 1 {| trace := tr; registries := registries st;
              authorization := authorization st |}.
Proof.
  intros Hs tr Hstatus. apply Z.eqb_neq in Hstatus.
  unfold resolveStack, bind. rewrite Hs. cbn [negb].
  unfold ret, issue. cbv beta iota zeta. cbn [fst]. fold tr.
  now rewrite Hstatus.
Qed.

(** A create or an update that fails ends the run with exit code 1. *)
Lemma write_failure_exits (JSON_parse : string -> list (string * string))
    (env : ProcessEnv) (world : World) (c : Context) (st : St) :
  let r :=
    match stackToUpdate c with
    | Some stack => stackUpdateRequest JSON_parse env c stack
    | None => stackCreateRequest JSON_parse env c
    end in
  let tr := trace st ++ [withDefaults st r] in
  match stackToUpdate c with
  | Some _ => status (update_reply world tr) <> 200%Z
  | None => status (create_reply world tr) <> 200%Z
  end ->
  createOrUpdate JSON_parse env world c st
  = Exit 1 {| trace := tr; registries := registries st;
              authorization := authorization st |}.
Proof.
  intros r tr. unfold createOrUpdate, r in *. subst tr.
  destruct (stackToUpdate c); intros Hstatus; apply Z.eqb_neq in Hstatus;
    unfold bind, issue; cbv beta iota zeta; now rewrite Hstatus.
Qed.

(** * Beyond the claims *)

(** ** Rules for [emitsA] *)

Lemma withDefaults_sentWith (st : St) (r : Request) :
  withDefaults st r = sentWith (authorization st) r.
Proof. reflexivity. Qed.

Lemma emitsA_ret {A : Type} (world : World) (a : option string)
    (P : Request -> Prop) (Q : A -> Prop) (v : A) :
  Q v -> emitsA world a P Q (ret v).
Proof.
  intros HQ st Hk. split; [exact Hk|]. split.
  - exists []. simpl. now rewrite app_nil_r.
  - intros v' st' E. unfold ret in E. now inversion E; subst.
Qed.

Lemma emitsA_exit {A : Type} (world : World) (a : option string)
    (P : Request -> Prop) (Q : A -> Prop) (code : Z) :
  emitsA world a P Q (exit code).
Proof.
  intros st Hk. split; [exact Hk|]. split.
  - exists []. simpl. now rewrite app_nil_r.
  - intros v st' E. discriminate E.
Qed.

Lemma emitsA_bind {A B : Type} (world : World) (a : option string)
    (P : Request -> Prop) (Q1 : A -> Prop) (Q2 : B -> Prop)
    (m : M A) (k : A -> M B) :
  emitsA world a P Q1 m ->
  (forall v, Q1 v -> emitsA world a P Q2 (k v)) ->
  emitsA world a P Q2 (bind m k).
Proof.
  intros Hm Hk st Hst. destruct (Hm st Hst) as [K1 [[new1 [E1 F1]] R1]].
  unfold bind. destruct (m st) as [v st1 | code st1] eqn:Em;
    cbn [final] in K1, E1.
  - destruct (Hk v (R1 v st1 eq_refl) st1 K1) as [K2 [[new2 [E2 F2]] R2]].
    split; [exact K2|]. split.
    + exists (new1 ++ new2). rewrite E2, E1, app_assoc. split; [reflexivity|].
      apply Forall_app; now split.
    + exact R2.
  - split; [exact K1|]. split.
    + exists new1. now split.
    + intros b st' E. discriminate E.
Qed.

Lemma emitsA_mapM {A B : Type} (world : World) (a : option string)
    (P : Request -> Prop) (Pre : A -> Prop) (Q : B -> Prop)
    (f : A -> M B) (l : list A) :
  (forall x, Pre x -> emitsA world a P Q (f x)) ->
  Forall Pre l ->
  emitsA world a P (Forall Q) (mapM f l).
Proof.
  intros Hf. induction l as [|x rest IH]; intros HPre; simpl.
  - apply emitsA_ret. constructor.
  - inversion HPre as [|? ? Hx Hrest]; subst.
    apply (emitsA_bind world a P Q); [now apply Hf|]. intros y Hy.
    apply (emitsA_bind world a P (Forall Q)); [now apply IH|]. intros ys Hys.
    apply emitsA_ret. now constructor.
Qed.

Lemma emitsA_post {A : Type} (world : World) (a : option string)
    (P : Request -> Prop) (Q Q' : A -> Prop) (m : M A) :
  (forall v, Q' v -> Q v) ->
  emitsA world a P Q' m -> emitsA world a P Q m.
Proof.
  intros HQ Hm st Hst. destruct (Hm st Hst) as [K [E R]].
  split; [exact K|]. split; [exact E|].
  intros v st' Ev. apply HQ. eapply R. exact Ev.
Qed.

Lemma emitsA_check {A : Type} (world : World) (a : option string)
    (P : Request -> Prop) (Q : A -> Prop) (code : Z) (m : M A) (b : bool) :
  (b = false -> emitsA world a P Q m) ->
  emitsA world a P Q (if b then exit code else m).
Proof. destruct b; intros Hm; [apply emitsA_exit | now apply Hm]. Qed.

Lemma emitsA_issue {T : Type} (world : World) (a : option string)
    (P : Request -> Prop) (Q : Response T -> Prop)
    (reply : list Request -> Response T) (r : Request) :
  P (sentWith a r) ->
  (forall tr, Q (reply tr)) ->
  emitsA world a P Q (issue reply r).
Proof.
  intros HP HQ st [Ha Hc]. split; [now split|]. split.
  - exists [withDefaults st r]. split; [reflexivity|].
    constructor; [|constructor].
    rewrite withDefaults_sentWith, Ha. exact HP.
  - intros v st' E. unfold issue in E. injection E as <- _. apply HQ.
Qed.

(** ** The stages after the login, site by site *)

Section Detail.

Variable JSON_parse : string -> list (string * string).
Variable readFileSync : string -> option string.
Variable env : ProcessEnv.
Variable world : World.
Variable a : option string.
Variable ep : Entry.t.
Variable tag : string.
Variable P : Request -> Prop.

Let names : list string := JS.split "," (images env).

Hypothesis Pfetch : P (sentWith a registriesRequest).
Hypothesis Pplain :
  forall imageName,
    In imageName names -> registryOf imageName = "docker.io" ->
    P (sentWith a (imageRequest ep tag imageName None)).
Hypothesis Pcred :
  forall imageName reg,
    In imageName names -> registryOf imageName <> "docker.io" ->
    Listed world reg -> Registry.URL reg = registryOf imageName ->
    P (sentWith a (imageRequest ep tag imageName (Some (credential reg)))).

Lemma getRegistries_call_A :
  emitsA world a P
    (fun r => match r with
              | inl cached => Forall (Listed world) cached
              | inr response => exists tr, response = registries_reply world tr
              end)
    (getRegistries_call world).
Proof.
  intros st Hst. unfold getRegistries_call.
  destruct (registries st) as [cached|] eqn:Ec.
  - split; [exact Hst|]. split.
    + exists []. simpl. now rewrite app_nil_r.
    + intros v st' E. unfold ret in E. injection E as <- _.
      destruct Hst as [_ Hc]. now apply Hc.
  - assert (H : emitsA world a P
                  (fun r : list Registry.t + Response (list Registry.t) =>
                     match r with
                     | inl cached => Forall (Listed world) cached
                     | inr response =>
                         exists tr, response = registries_reply world tr
                     end)
                  (registriesResponse <- issue (registries_reply world)
                                           registriesRequest ;;
                   ret (inr registriesResponse))).
    { eapply emitsA_bind with
        (Q1 := fun response => exists tr, response = registries_reply world tr).
      - apply emitsA_issue; [exact Pfetch|]. intros tr. now exists tr.
      - intros response Hr. now apply emitsA_ret. }
    exact (H st Hst).
Qed.

Lemma getRegistries_resume_A (response : Response (list Registry.t)) :
  (exists tr, response = registries_reply world tr) ->
  emitsA world a P (Forall (Listed world)) (getRegistries_resume response).
Proof.
  intros [tr ->]. unfold getRegistries_resume.
  apply emitsA_check. intros Hstatus.
  apply negb_false_iff, Z.eqb_eq in Hstatus.
  assert (Hall : Forall (Listed world) (data (registries_reply world tr))).
  { apply Forall_forall. intros reg Hin. exists tr. now split. }
  intros st [Ha Hc]. unfold bind, setRegistries, ret. cbn [final].
  split; [split; [exact Ha|]|split].
  - cbn [registries]. intros rs E. now injection E as <-.
  - exists []. cbn [trace]. now rewrite app_nil_r.
  - intros v st' E. now injection E as <- _.
Qed.

Lemma pull_start_A (imageName : string) :
  In imageName names ->
  emitsA world a P (taskFrom world names) (pull_start world ep tag imageName).
Proof.
  intros Hin. unfold pull_start.
  destruct (registryOf imageName =? "docker.io") eqn:Ereg; cbn [negb].
  - apply String.eqb_eq in Ereg.
    eapply emitsA_bind with (Q1 := fun _ => True).
    + apply emitsA_issue; [now apply Pplain | trivial].
    + intros r _. apply emitsA_ret. exact Hin.
  - apply String.eqb_neq in Ereg.
    eapply emitsA_bind; [apply getRegistries_call_A|].
    intros [cached|response] Hr; apply emitsA_ret; simpl; auto.
Qed.

Lemma pull_withAuth_A (imageName : string) (rs : list Registry.t) :
  In imageName names ->
  registryOf imageName <> "docker.io" ->
  Forall (Listed world) rs ->
  emitsA world a P (fun t => taskFrom world names t /\ pastRegistries t)
    (pull_withAuth world ep tag imageName (registryOf imageName) rs).
Proof.
  intros Hin Hreg Hrs. unfold pull_withAuth.
  eapply emitsA_bind with
    (Q1 := fun v => exists reg, Listed world reg
                                /\ Registry.URL reg = registryOf imageName
                                /\ v = credential reg).
  { unfold getRegistryAuth_resume.
    destruct (JS.find _ rs) as [reg|] eqn:Ef; [|apply emitsA_exit].
    apply emitsA_ret. exists reg.
    apply find_some in Ef. destruct Ef as [Hinr Hurl].
    apply String.eqb_eq in Hurl. rewrite Forall_forall in Hrs.
    split; [now apply Hrs|]. split; [exact Hurl | reflexivity]. }
  intros registryAuth [reg [Hl [Hurl ->]]].
  eapply emitsA_bind with (Q1 := fun _ => True).
  - apply emitsA_issue; [now apply Pcred | trivial].
  - intros r _. apply emitsA_ret. simpl. auto.
Qed.

Lemma pull_step_A (t : Task) :
  taskFrom world names t ->
  emitsA world a P (fun t' => taskFrom world names t' /\ pastRegistries t')
    (pull_step world ep tag t).
Proof.
  destruct t as [imageName registry response | imageName registry rs
                | imageName response | ]; simpl.
  - intros [Hin [-> [Hreg Hfrom]]].
    eapply emitsA_bind; [now apply getRegistries_resume_A|].
    intros rs Hrs. now apply pull_withAuth_A.
  - intros [Hin [-> [Hreg Hrs]]]. now apply pull_withAuth_A.
  - intros Hin. apply emitsA_check. intros _. apply emitsA_ret. simpl. auto.
  - intros _. apply emitsA_ret. simpl. auto.
Qed.

Lemma pull_settles_A (t : Task) :
  pastRegistries t ->
  emitsA world a P (fun t' => t' = Settled) (pull_step world ep tag t).
Proof.
  destruct t; simpl; try contradiction; intros _.
  - apply emitsA_check. intros _. now apply emitsA_ret.
  - now apply emitsA_ret.
Qed.

Lemma pull_microtask_A (t : Task) :
  taskFrom world names t ->
  emitsA world a P (taskFrom world names) (pull_microtask world ep tag t).
Proof.
  intros Hok. unfold pull_microtask. destruct (awaitsResponse t).
  - now apply emitsA_ret.
  - apply emitsA_post with
      (Q' := fun t' => taskFrom world names t' /\ pastRegistries t').
    + now intros t' [H _].
    + now apply pull_step_A.
Qed.

Lemma deliver_A (i : nat) (tasks : list Task) :
  Forall (taskFrom world names) tasks ->
  emitsA world a P (Forall (taskFrom world names))
    (deliver world ep tag i tasks).
Proof.
  intros Hall. unfold deliver.
  destruct (nth_error tasks i) as [t|] eqn:Ei; [|now apply emitsA_ret].
  destruct (awaitsResponse t); [|now apply emitsA_ret].
  eapply emitsA_bind.
  - apply pull_step_A.
    apply nth_error_In in Ei. rewrite Forall_forall in Hall. now apply Hall.
  - intros t' [Hok _]. apply emitsA_ret. now apply replaceAt_ok.
Qed.

Lemma arrivals_A (order : list nat) (tasks : list Task) :
  Forall (taskFrom world names) tasks ->
  emitsA world a P (Forall (taskFrom world names))
    (arrivals world ep tag order tasks).
Proof.
  revert tasks. induction order as [|i later IH]; intros tasks Hall; simpl.
  - now apply emitsA_ret.
  - eapply emitsA_bind; [now apply deliver_A|]. exact IH.
Qed.

Lemma pullImages_A (order : list nat) :
  emitsA world a P (fun _ => True) (pullImages env world ep tag order).
Proof.
  unfold pullImages, pullTasks.
  eapply emitsA_bind with (Q1 := fun _ => True); [|intros; now apply emitsA_ret].
  eapply emitsA_bind.
  { apply emitsA_mapM with (Pre := fun n => In n names).
    - intros n Hn. now apply pull_start_A.
    - apply Forall_forall. auto. }
  intros tasks0 H0.
  eapply emitsA_bind.
  { apply emitsA_mapM with (Pre := taskFrom world names);
      [apply pull_microtask_A | exact H0]. }
  intros tasks1 H1.
  eapply emitsA_bind; [apply arrivals_A; exact H1|].
  intros tasks2 H2.
  eapply emitsA_bind.
  { apply emitsA_mapM with (Pre := taskFrom world names);
      [apply pull_step_A | exact H2]. }
  intros tasks3 H3.
  apply emitsA_post with (Q' := Forall (fun t => t = Settled)); [trivial|].
  apply emitsA_mapM with (Pre := pastRegistries); [apply pull_settles_A|].
  eapply Forall_impl; [|exact H3]. now intros t [_ H].
Qed.

Hypothesis Pswarm :
  JS.truthy (standalone env) = false -> P (sentWith a (swarmRequest ep)).
Hypothesis PstacksAll :
  JS.truthy (standalone env) = true -> P (sentWith a (stacksRequest None)).
Hypothesis PstacksOf :
  forall id,
    JS.truthy (standalone env) = false ->
    P (sentWith a (stacksRequest (Some (swarmFilter id)))).
Hypothesis Pcreate :
  forall c,
    contextFrom readFileSync env ep tag c -> stackToUpdate c = None ->
    P (sentWith a (stackCreateRequest JSON_parse env c)).
Hypothesis Pupdate :
  forall c stack,
    contextFrom readFileSync env ep tag c -> stackToUpdate c = Some stack ->
    P (sentWith a (stackUpdateRequest JSON_parse env c stack)).

Lemma resolveStack_A :
  emitsA world a P (contextFrom readFileSync env ep tag)
    (resolveStack readFileSync env world ep tag).
Proof.
  unfold resolveStack.
  eapply emitsA_bind with
    (Q1 := fun mode =>
             if JS.truthy (standalone env) then fst mode = None
             else exists id, fst mode = Some (swarmFilter id)).
  { destruct (JS.truthy (standalone env)) eqn:Es; cbn [negb].
    - now apply emitsA_ret.
    - eapply emitsA_bind with (Q1 := fun _ => True).
      + apply emitsA_issue; [now apply Pswarm | trivial].
      + intros swarmResponse _. apply emitsA_check. intros _.
        apply emitsA_ret. cbn [fst]. now exists (data swarmResponse). }
  intros [stackOptions id] Hmode. cbn [fst snd] in Hmode |- *.
  eapply emitsA_bind with (Q1 := fun _ => True).
  { apply emitsA_issue; [|trivial].
    destruct (JS.truthy (standalone env)) eqn:Es.
    - subst stackOptions. now apply PstacksAll.
    - destruct Hmode as [id' ->]. now apply PstacksOf. }
  intros stacksResponse _. apply emitsA_check. intros _.
  destruct (readFileSync _) as [content|] eqn:Er; [|apply emitsA_exit].
  apply emitsA_ret. repeat split. exact Er.
Qed.

Lemma createOrUpdate_A (c : Context) :
  contextFrom readFileSync env ep tag c ->
  emitsA world a P (fun _ => True) (createOrUpdate JSON_parse env world c).
Proof.
  intros Hc. unfold createOrUpdate.
  destruct (stackToUpdate c) as [stack|] eqn:Eu.
  - eapply emitsA_bind with (Q1 := fun _ => True).
    + apply emitsA_issue; [now apply Pupdate | trivial].
    + intros r _. apply emitsA_check. intros _. now apply emitsA_ret.
  - eapply emitsA_bind with (Q1 := fun _ => True).
    + apply emitsA_issue; [now apply Pcreate | trivial].
    + intros r _. apply emitsA_check. intros _. now apply emitsA_ret.
Qed.

(** Every request after the endpoint lookup is one of the sites above. *)
Lemma afterConnect_A (order : list nat) :
  emitsA world a P (fun _ => True)
    (afterConnect JSON_parse readFileSync env world ep tag order).
Proof.
  unfold afterConnect.
  eapply emitsA_bind with (Q1 := fun _ => True).
  { destruct (JS.truthyStr (images env) && negb (images env =? ""));
      [apply pullImages_A | now apply emitsA_ret]. }
  intros _ _. eapply emitsA_bind; [apply resolveStack_A|].
  intros c Hc. now apply createOrUpdate_A.
Qed.

End Detail.

(** ** The four ways a run begins *)

Lemma main_afterConnect (JSON_parse : string -> list (string * string))
    (readFileSync : string -> option string) (env : ProcessEnv)
    (world : World) (order : list nat) (st : St) :
  main JSON_parse readFileSync env world order st
  = (session <- connect env world ;;
     afterConnect JSON_parse readFileSync env world
       (fst session) (snd session) order) st.
Proof.
  unfold main, prepare, afterConnect, bind.
  destruct (connect env world st) as [session st1|code st1]; [|reflexivity].
  destruct ((if JS.truthyStr (images env) && negb (images env =? "")
             then pullImages env world (fst session) (snd session) order
             else ret tt) st1) as [u st2|code st2]; [|reflexivity].
  reflexivity.
Qed.

Lemma bind_issue {T B : Type} (reply : list Request -> Response T)
    (r : Request) (k : Response T -> M B) (st : St) :
  bind (issue reply r) k st
  = k (reply (trace st ++ [sentWith (authorization st) r]))
      {| trace := trace st ++ [sentWith (authorization st) r];
         registries := registries st; authorization := authorization st |}.
Proof. reflexivity. Qed.

Lemma bind_setAuthorization {B : Type} (v : string) (k : unit -> M B) (st : St) :
  bind (setAuthorization v) k st
  = k tt {| trace := trace st; registries := registries st;
            authorization := Some v |}.
Proof. reflexivity. Qed.

(** What [connect] gives from the start of a run. *)
Lemma connect_initial (env : ProcessEnv) (world : World) :
  connect env world initial
  = match commitHash env with
    | None => Exit 1 initial
    | Some hash =>
        if negb (JS.truthyStr hash) then Exit 1 initial
        else if negb (status (auth_reply world [sentAuth env]) =? 200)%Z
        then Exit 1 {| trace := [sentAuth env]; registries := None;
                       authorization := None |}
        else match resolvedEndpoint env world with
             | Some ep => Ret (ep, releaseTagOf env hash) (connected env world)
             | None => Exit 1 (connected env world)
             end
    end.
Proof.
  unfold connect. destruct (commitHash env) as [hash|]; [|reflexivity].
  destruct (negb (JS.truthyStr hash)); [reflexivity|].
  rewrite bind_issue. cbn [trace registries authorization initial app].
  fold (sentAuth env).
  destruct (negb (status (auth_reply world [sentAuth env]) =? 200)%Z) eqn:Es;
    [reflexivity|].
  rewrite bind_setAuthorization. cbn [trace registries authorization].
  fold (bearer env world).
  rewrite bind_issue. cbn [trace registries authorization app].
  fold (sentEndpoints env world). fold (connected env world).
  change (JS.find _ (data (endpoints_reply world
                             [sentAuth env; sentEndpoints env world])))
    with (resolvedEndpoint env world).
  destruct (resolvedEndpoint env world); reflexivity.
Qed.

(** A run stops at the commit-hash guard, at the login, at the endpoint
    lookup, or goes on from the resolved endpoint. *)
Lemma run_cases (JSON_parse : string -> list (string * string))
    (readFileSync : string -> option string) (env : ProcessEnv)
    (world : World) (order : list nat) :
  let run := main JSON_parse readFileSync env world order initial in
  ((commitHash env = None \/ commitHash env = Some "")
   /\ run = Exit 1 initial)
  \/ (exists hash,
        commitHash env = Some hash /\ hash <> ""
        /\ ((status (auth_reply world [sentAuth env]) <> 200%Z
             /\ run = Exit 1 {| trace := [sentAuth env]; registries := None;
                                authorization := None |})
            \/ (status (auth_reply world [sentAuth env]) = 200%Z
                /\ resolvedEndpoint env world = None
                /\ run = Exit 1 (connected env world))
            \/ (status (auth_reply world [sentAuth env]) = 200%Z
                /\ exists ep,
                     resolvedEndpoint env world = Some ep
                     /\ run = afterConnect JSON_parse readFileSync env world
                                ep (releaseTagOf env hash) order
                                (connected env world)))).
Proof.
  intros run.
  assert (Hrun : run
                 = match connect env world initial with
                   | Ret session st =>
                       afterConnect JSON_parse readFileSync env world
                         (fst session) (snd session) order st
                   | Exit code st => Exit code st
                   end).
  { unfold run. now rewrite main_afterConnect. }
  rewrite connect_initial in Hrun. clearbody run.
  destruct (commitHash env) as [hash|] eqn:Eh; [|left; split; auto].
  destruct hash as [|ch rest]; [left; split; auto|].
  right. exists (String ch rest). split; [reflexivity|]. split; [discriminate|].
  cbn [JS.truthyStr String.eqb negb] in Hrun.
  destruct (status (auth_reply world [sentAuth env]) =? 200)%Z eqn:Es;
    cbn [negb] in Hrun.
  - apply Z.eqb_eq in Es. right.
    destruct (resolvedEndpoint env world) as [ep|].
    + right. split; [exact Es|]. exists ep. split; [reflexivity | exact Hrun].
    + left. split; [exact Es|]. split; [reflexivity | exact Hrun].
  - apply Z.eqb_neq in Es. left. split; [exact Es | exact Hrun].
Qed.

Lemma connected_keeps (env : ProcessEnv) (world : World) :
  keeps world (Some (bearer env world)) (connected env world).
Proof. split; [reflexivity|]. intros rs E. discriminate E. Qed.

(** The requests of a run that resolved its endpoint, after the first two. *)
Lemma afterConnect_trace (JSON_parse : string -> list (string * string))
    (readFileSync : string -> option string) (env : ProcessEnv)
    (world : World) (ep : Entry.t) (tag : string) (order : list nat)
    (P : Request -> Prop) :
  emitsA world (Some (bearer env world)) P (fun _ => True)
    (afterConnect JSON_parse readFileSync env world ep tag order) ->
  exists new,
    trace (final (afterConnect JSON_parse readFileSync env world ep tag order
                    (connected env world)))
    = [sentAuth env; sentEndpoints env world] ++ new
    /\ Forall P new.
Proof.
  intros H. destruct (H (connected env world) (connected_keeps env world))
    as [_ [[new [E F]] _]].
  exists new. split; [exact E | exact F].
Qed.

(** ** The session *)

Lemma header_Authorization (v : string) (r : Request) :
  header "Authorization" (sentWith (Some v) r) = Some v.
Proof. reflexivity. Qed.

(** X1: the login request carries no Authorization header, and every later
    request of the run carries "Bearer " followed by the token of the login
    response. *)
Theorem bearer_token_on_every_later_request
    (JSON_parse : string -> list (string * string))
    (readFileSync : string -> option string) (env : ProcessEnv)
    (world : World) (order : list nat) :
  let tr :=
    trace (final (main JSON_parse readFileSync env world order initial)) in
  let login := sentWith None (authRequest env) in
  tr = []
  \/ exists later,
       tr = login :: later
       /\ header "Authorization" login = None
       /\ Forall (fun r =>
                    header "Authorization" r
                    = Some ("Bearer " +:+ data (auth_reply world [login])))
            later.
Proof.
  intros tr login. unfold tr.
  destruct (run_cases JSON_parse readFileSync env world order)
    as [[_ ->] | [hash [_ [_ [[_ ->] | [[_ [_ ->]] | [_ [ep [_ ->]]]]]]]]].
  - now left.
  - right. exists []. repeat split. constructor.
  - right. exists [sentEndpoints env world]. repeat split.
    constructor; [reflexivity | constructor].
  - right.
    destruct (afterConnect_trace JSON_parse readFileSync env world ep
                (releaseTagOf env hash) order
                (fun r => header "Authorization" r = Some (bearer env world)))
      as [new [-> Hnew]].
    { apply afterConnect_A; intros; apply header_Authorization. }
    exists (sentEndpoints env world :: new). repeat split.
    constructor; [reflexivity | exact Hnew].
Qed.

(** ** The endpoint *)

Lemma first_requests_address (env : ProcessEnv) (world : World) (ep : Entry.t) :
  addresses ep (sentAuth env) /\ addresses ep (sentEndpoints env world).
Proof. split; repeat split; intros H; discriminate H. Qed.

Lemma afterConnect_addresses (JSON_parse : string -> list (string * string))
    (readFileSync : string -> option string) (env : ProcessEnv)
    (world : World) (a : option string) (ep : Entry.t) (tag : string)
    (order : list nat) :
  emitsA world a (addresses ep) (fun _ => True)
    (afterConnect JSON_parse readFileSync env world ep tag order).
Proof.
  apply afterConnect_A; intros; unfold addresses; cbv zeta;
    repeat split; intros Hkind; try discriminate Hkind; try reflexivity.
  - match goal with Hc : contextFrom _ _ _ _ _ |- _ =>
      destruct Hc as [Hep _] end.
    exists (JS.numToStr (operationType env)).
    unfold sentWith, withDefaults, stackCreateRequest. cbn [url].
    rewrite Hep. reflexivity.
  - match goal with Hc : contextFrom _ _ _ _ _ |- _ =>
      destruct Hc as [Hep _] end.
    exists (JS.numToStr (Entry.Id stack)).
    unfold sentWith, withDefaults, stackUpdateRequest. cbn [url].
    rewrite Hep. reflexivity.
Qed.

(** X2: the endpoint is the first entry of the endpoint list whose Name is
    PLUGIN_ENDPOINT, and every image pull, swarm lookup, stack create and
    stack update of the run is addressed to the Id of that entry; when no
    entry has that Name the run issues none of them. *)
Theorem every_request_addresses_the_resolved_endpoint
    (JSON_parse : string -> list (string * string))
    (readFileSync : string -> option string) (env : ProcessEnv)
    (world : World) (order : list nat) :
  let tr :=
    trace (final (main JSON_parse readFileSync env world order initial)) in
  let login := sentWith None (authRequest env) in
  let token := "Bearer " +:+ data (auth_reply world [login]) in
  let listed :=
    data (endpoints_reply world
            [login; sentWith (Some token) endpointsRequest]) in
  match JS.find (fun e => sameName (Entry.Name e) (endpoint env)) listed with
  | Some ep =>
      In ep listed
      /\ endpoint env = Some (Entry.Name ep)
      /\ Forall (addresses ep) tr
  | None =>
      Forall (fun r => isImagePull r = false /\ isSwarmFetch r = false
                       /\ isStackWrite r = false) tr
  end.
Proof.
  intros tr login token listed.
  change (JS.find _ listed) with (resolvedEndpoint env world).
  pose proof (run_cases JSON_parse readFileSync env world order) as Hrun.
  cbv zeta in Hrun. fold tr in Hrun.
  destruct (resolvedEndpoint env world) as [ep|] eqn:Eep.
  - unfold resolvedEndpoint in Eep. apply find_some in Eep as Hsome.
    destruct Hsome as [Hin Hname].
    split; [exact Hin|]. split.
    { unfold sameName in Hname. destruct (endpoint env) as [n|]; [|discriminate].
      apply String.eqb_eq in Hname. now subst n. }
    destruct (first_requests_address env world ep) as [Ha He].
    unfold tr.
    destruct Hrun
      as [[_ ->] | [hash [_ [_ [[_ ->] | [[_ [_ ->]] | [_ [ep' [E' ->]]]]]]]]];
      cbn [final trace initial connected].
    + constructor.
    + constructor; [exact Ha | constructor].
    + constructor; [exact Ha|]. constructor; [exact He | constructor].
    + injection E' as <-.
      destruct (afterConnect_trace JSON_parse readFileSync env world ep
                  (releaseTagOf env hash) order (addresses ep))
        as [new [-> Hnew]]; [apply afterConnect_addresses|].
      constructor; [exact Ha|]. constructor; [exact He | exact Hnew].
  - unfold tr.
    destruct Hrun
      as [[_ ->] | [hash [_ [_ [[_ ->] | [[_ [_ ->]] | [_ [ep' [E' _]]]]]]]]];
      cbn [final trace initial connected].
    + constructor.
    + constructor; [repeat split | constructor].
    + constructor; [repeat split|]. constructor; [repeat split | constructor].
    + discriminate E'.
Qed.

(** X3: when no entry of the endpoint list has the Name PLUGIN_ENDPOINT,
    as when the option is unset, the run exits with code 1 and has issued
    at most the login and the endpoint list. *)
Theorem unknown_endpoint_exits
    (JSON_parse : string -> list (string * string))
    (readFileSync : string -> option string) (env : ProcessEnv)
    (world : World) (order : list nat) :
  let login := sentWith None (authRequest env) in
  let token := "Bearer " +:+ data (auth_reply world [login]) in
  let list := sentWith (Some token) endpointsRequest in
  (forall e, In e (data (endpoints_reply world [login; list])) ->
             endpoint env <> Some (Entry.Name e)) ->
  exists st,
    main JSON_parse readFileSync env world order initial = Exit 1 st
    /\ (trace st = [] \/ trace st = [login] \/ trace st = [login; list]).
Proof.
  intros login token list Hno.
  destruct (run_cases JSON_parse readFileSync env world order)
    as [[_ ->] | [hash [_ [_ [[_ ->] | [[_ [_ ->]] | [_ [ep [Eep _]]]]]]]]].
  - eexists. split; [reflexivity|]. now left.
  - eexists. split; [reflexivity|]. right. now left.
  - eexists. split; [reflexivity|]. right. now right.
  - exfalso. unfold resolvedEndpoint in Eep. apply find_some in Eep.
    destruct Eep as [Hin Hname]. unfold sameName in Hname.
    destruct (endpoint env) as [n|] eqn:En; [|discriminate].
    apply String.eqb_eq in Hname. apply (Hno ep Hin). now subst n.
Qed.

Lemma unknown_endpoint_exits_witness :
  exists st,
    main Sample.JSON_parse Sample.readFileSync
      {| DRONE_BRANCH := Some "dev";
         DRONE_COMMIT_SHA := Some "0123456789abcdef";
         PLUGIN_PORTAINER_URL := None; PLUGIN_PORTAINER_USERNAME := None;
         PLUGIN_PORTAINER_PASSWORD := None;
         PLUGIN_IMAGES := Some "docker.io/app"; PLUGIN_STACK_NAME := Some "web";
         PLUGIN_ENDPOINT := Some "remote";
         PLUGIN_COMPOSE_ENVIRONMENT := None; PLUGIN_COMPOSE_FILE := None;
         PLUGIN_STANDALONE := None; PLUGIN_FORCE_PULL := None |}
      (Sample.world []) [] initial = Exit 1 st
    /\ length (trace st) <= 2.
Proof.
  edestruct (unknown_endpoint_exits Sample.JSON_parse Sample.readFileSync
               {| DRONE_BRANCH := Some "dev";
                  DRONE_COMMIT_SHA := Some "0123456789abcdef";
                  PLUGIN_PORTAINER_URL := None;
                  PLUGIN_PORTAINER_USERNAME := None;
                  PLUGIN_PORTAINER_PASSWORD := None;
                  PLUGIN_IMAGES := Some "docker.io/app";
                  PLUGIN_STACK_NAME := Some "web";
                  PLUGIN_ENDPOINT := Some "remote";
                  PLUGIN_COMPOSE_ENVIRONMENT := None;
                  PLUGIN_COMPOSE_FILE := None;
                  PLUGIN_STANDALONE := None; PLUGIN_FORCE_PULL := None |}
               (Sample.world []) []) as [st [Hrun Htr]].
  { intros e [<- | []] H. discriminate H. }
  exists st. split; [exact Hrun|].
  destruct Htr as [-> | [-> | ->]]; simpl; lia.
Defined.

(** ** Registry credentials *)

Lemma header_of_sent_pull (a : option string) (ep : Entry.t)
    (tag imageName : string) (registryAuth : option string) :
  header "X-Registry-Auth" (sentWith a (imageRequest ep tag imageName registryAuth))
  = registryAuth.
Proof. unfold sentWith. apply header_of_pull. Qed.

(** ** The compose file *)

Lemma create_StackFileContent (JSON_parse : string -> list (string * string))
    (env : ProcessEnv) (c : Context) :
  JS.get "StackFileContent" (stackCreateOptions JSON_parse env c)
  = Some (JS.Str (composeFile c)).
Proof.
  unfold stackCreateOptions. destruct (JS.truthy (standalone env)); reflexivity.
Qed.

(** X5: the compose file is read at PLUGIN_COMPOSE_FILE, or at
    "docker-compose.yml" when that option is unset or empty; every create
    or update of a run carries the content read there as StackFileContent;
    and when the file cannot be read the run issues no create and no
    update. *)
Theorem stack_file_content_is_the_compose_file
    (JSON_parse : string -> list (string * string))
    (readFileSync : string -> option string) (env : ProcessEnv)
    (world : World) (order : list nat) :
  let tr :=
    trace (final (main JSON_parse readFileSync env world order initial)) in
  (dockerComposeFile env
   = match PLUGIN_COMPOSE_FILE env with
     | Some path => if path =? "" then "docker-compose.yml" else path
     | None => "docker-compose.yml"
     end)
  /\ Forall (carriesComposeFile readFileSync env) tr
  /\ (readFileSync (dockerComposeFile env) = None ->
      Forall (fun r => isStackWrite r = false) tr).
Proof.
  intros tr.
  assert (Hall : Forall (carriesComposeFile readFileSync env) tr).
  { unfold tr.
    destruct (run_cases JSON_parse readFileSync env world order)
      as [[_ ->] | [hash [_ [_ [[_ ->] | [[_ [_ ->]] | [_ [ep [_ ->]]]]]]]]];
      cbn [final trace initial connected].
    - constructor.
    - constructor; [intros H; discriminate H | constructor].
    - constructor; [intros H; discriminate H|].
      constructor; [intros H; discriminate H | constructor].
    - destruct (afterConnect_trace JSON_parse readFileSync env world ep
                  (releaseTagOf env hash) order
                  (carriesComposeFile readFileSync env))
        as [new [-> Hnew]].
      { apply afterConnect_A; intros; intros Hkind; try discriminate Hkind;
          match goal with Hc : contextFrom _ _ _ _ _ |- _ =>
            destruct Hc as [_ [_ [Hread _]]] end;
          exists (composeFile c); (split; [exact Hread|]).
        - unfold bodyProp, sentWith, withDefaults, stackCreateRequest.
          cbn [body]. apply create_StackFileContent.
        - reflexivity. }
      constructor; [intros H; discriminate H|].
      constructor; [intros H; discriminate H | exact Hnew]. }
  split; [|split; [exact Hall|]].
  - unfold dockerComposeFile. destruct (PLUGIN_COMPOSE_FILE env) as [path|];
      [|reflexivity].
    unfold JS.truthyStr. destruct (path =? ""); reflexivity.
  - intros Hnone. eapply Forall_impl; [|exact Hall].
    intros r Hr. destruct (isStackWrite r) eqn:E; [|reflexivity].
    destruct (Hr E) as [content [Hread _]].
    rewrite Hnone in Hread. discriminate Hread.
Qed.

(** ** An unset stack name *)

(** X6: when PLUGIN_STACK_NAME is unset no stack matches: a run never
    issues an update, and the body of its create has an undefined Name. *)
Theorem unset_stack_name_always_creates
    (JSON_parse : string -> list (string * string))
    (readFileSync : string -> option string) (env : ProcessEnv)
    (world : World) (order : list nat) :
  PLUGIN_STACK_NAME env = None ->
  Forall (fun r => isStackUpdate r = false
                   /\ (isStackCreate r = true ->
                       bodyProp "Name" r = Some JS.Undefined))
    (trace (final (main JSON_parse readFileSync env world order initial))).
Proof.
  intros Hunset.
  destruct (run_cases JSON_parse readFileSync env world order)
    as [[_ ->] | [hash [_ [_ [[_ ->] | [[_ [_ ->]] | [_ [ep [_ ->]]]]]]]]];
    cbn [final trace initial connected].
  - constructor.
  - constructor; [split; [reflexivity | intros H; discriminate H] | constructor].
  - constructor; [split; [reflexivity | intros H; discriminate H]|].
    constructor; [split; [reflexivity | intros H; discriminate H] | constructor].
  - destruct (afterConnect_trace JSON_parse readFileSync env world ep
                (releaseTagOf env hash) order
                (fun r => isStackUpdate r = false
                          /\ (isStackCreate r = true ->
                              bodyProp "Name" r = Some JS.Undefined)))
      as [new [-> Hnew]].
    { apply afterConnect_A; intros;
        try (split; [reflexivity | intros Hkind; discriminate Hkind]).
      - split; [reflexivity|]. intros _.
        unfold bodyProp, sentWith, withDefaults, stackCreateRequest,
          stackCreateOptions, stackName.
        cbn [body]. rewrite Hunset.
        destruct (JS.truthy (standalone env)); reflexivity.
      - exfalso.
        match goal with Hc : contextFrom _ _ _ _ _ |- _ =>
          destruct Hc as [_ [_ [_ Hfind]]] end.
        match goal with Hs : stackToUpdate _ = Some _ |- _ =>
          rewrite Hs in Hfind end.
        symmetry in Hfind. apply find_some in Hfind. destruct Hfind as [_ Hm].
        unfold matchesStack, stackName, sameName in Hm.
        rewrite Hunset in Hm. discriminate Hm. }
    constructor; [split; [reflexivity | intros H; discriminate H]|].
    constructor; [split; [reflexivity | intros H; discriminate H] | exact Hnew].
Qed.

Lemma unset_stack_name_always_creates_witness :
  Forall (fun r => isStackUpdate r = false
                   /\ (isStackCreate r = true ->
                       bodyProp "Name" r = Some JS.Undefined))
    (trace (final (main Sample.JSON_parse Sample.readFileSync
                     {| DRONE_BRANCH := Some "dev";
                        DRONE_COMMIT_SHA := Some "0123456789abcdef";
                        PLUGIN_PORTAINER_URL := None;
                        PLUGIN_PORTAINER_USERNAME := None;
                        PLUGIN_PORTAINER_PASSWORD := None;
                        PLUGIN_IMAGES := None; PLUGIN_STACK_NAME := None;
                        PLUGIN_ENDPOINT := Some "local";
                        PLUGIN_COMPOSE_ENVIRONMENT := None;
                        PLUGIN_COMPOSE_FILE := None;
                        PLUGIN_STANDALONE := Some "1";
                        PLUGIN_FORCE_PULL := None |}
                     (Sample.world [Sample.web]) [] initial))).
Proof.
  apply unset_stack_name_always_creates. reflexivity.
Defined.

(** ** The order of the stages *)

Lemma stageOf_connecting (env : ProcessEnv) (r : Request) :
  Connecting env r -> stageOf r = 0.
Proof. intros Hr; destruct Hr; reflexivity. Qed.

Lemma stageOf_pulling (env : ProcessEnv) (r : Request) :
  Pulling env r -> stageOf r = 1.
Proof.
  intros [Hr | Hr]; destruct Hr; try reflexivity;
    unfold stageOf, isAuth, isEndpointsList, isRegistriesFetch, isImagePull;
    simpl; now destruct (JS.numToStr (Entry.Id ep) +:+ _).
Qed.

Lemma stageOf_resolving (env : ProcessEnv) (r : Request) :
  Resolving env r -> stageOf r = 2.
Proof.
  intros Hr; destruct Hr; try reflexivity.
  unfold stageOf, isAuth, isEndpointsList, isRegistriesFetch, isImagePull,
    isSwarmFetch; simpl.
  now destruct (JS.numToStr (Entry.Id ep) +:+ _).
Qed.

Lemma stageOf_deciding (JSON_parse : string -> list (string * string))
    (env : ProcessEnv) (r : Request) :
  Deciding JSON_parse env r -> stageOf r = 3.
Proof. intros Hr; destruct Hr; reflexivity. Qed.

(** The trace of a run is made of four segments, one per stage. *)
Lemma main_segments (JSON_parse : string -> list (string * string))
    (readFileSync : string -> option string) (env : ProcessEnv)
    (world : World) (order : list nat) :
  exists t1 t2 t3 t4,
    trace (final (main JSON_parse readFileSync env world order initial))
    = t1 ++ t2 ++ t3 ++ t4
    /\ Forall (Connecting env) t1 /\ Forall (Pulling env) t2
    /\ Forall (Resolving env) t3 /\ Forall (Deciding JSON_parse env) t4.
Proof.
  unfold main, prepare, bind.
  destruct (connect_emits env world initial) as [[t1 [E1 F1]] Q1].
  cbn [trace initial app] in E1.
  destruct (connect env world initial) as [[ep tag] st1|code st1] eqn:Ec;
    cbn [final] in E1 |- *.
  2:{ exists t1, [], [], []. rewrite !app_nil_r. repeat split; auto. }
  destruct (Q1 _ _ eq_refl) as [hash [Hhash Htag]]. cbn [snd fst] in Htag |- *.
  subst tag.
  assert (H2 : emits (Pulling env) (fun _ : unit => True)
                 (if JS.truthyStr (images env) && negb (images env =? "")
                  then pullImages env world ep (releaseTagOf env hash) order
                  else ret tt)).
  { destruct (JS.truthyStr (images env)) eqn:Ei; cbn [andb];
      [|now apply emits_ret].
    destruct (negb (images env =? "")); [|now apply emits_ret].
    now apply pullImages_emits. }
  destruct (H2 st1) as [[t2 [E2 F2]] _].
  destruct ((if JS.truthyStr (images env) && negb (images env =? "")
             then pullImages env world ep (releaseTagOf env hash) order
             else ret tt) st1) as [u st2|code st2]; cbn [final] in E2 |- *.
  2:{ exists t1, t2, [], []. rewrite !app_nil_r, E2, E1.
      repeat split; auto. }
  destruct (resolveStack_emits readFileSync env world hash ep st2)
    as [[t3 [E3 F3]] Q3].
  destruct (resolveStack readFileSync env world ep (releaseTagOf env hash) st2)
    as [c st3|code st3]; cbn [final] in E3 |- *.
  2:{ exists t1, t2, t3, []. rewrite !app_nil_r, E3, E2, E1.
      rewrite <- app_assoc. repeat split; auto. }
  destruct (createOrUpdate_emits JSON_parse env world hash c Hhash
              (Q3 _ _ eq_refl) st3) as [[t4 [E4 F4]] _].
  exists t1, t2, t3, t4. rewrite E4, E3, E2, E1, <- !app_assoc.
  repeat split; auto.
Qed.

Lemma sorted_constant (n : nat) (l : list nat) :
  Forall (fun x => x = n) l -> StronglySorted le l.
Proof.
  induction 1 as [|x rest Hx Hrest IH]; constructor; [exact IH|].
  subst x. eapply Forall_impl; [|exact Hrest]. intros y ->. constructor.
Qed.

Lemma sorted_app (l1 l2 : list nat) :
  StronglySorted le l1 -> StronglySorted le l2 ->
  (forall x y, In x l1 -> In y l2 -> x <= y) ->
  StronglySorted le (l1 ++ l2).
Proof.
  intros S1 S2 Hle. induction S1 as [|x rest Srest IH Hx]; [exact S2|].
  simpl. constructor.
  - apply IH. intros u v Hu Hv. apply Hle; [now right | exact Hv].
  - apply Forall_app. split; [exact Hx|].
    apply Forall_forall. intros y Hy. apply Hle; [now left | exact Hy].
Qed.

Lemma stages_of_segment (P : Request -> Prop) (n : nat) (t : list Request) :
  (forall r, P r -> stageOf r = n) ->
  Forall P t -> Forall (fun x => x = n) (map stageOf t).
Proof.
  intros HP Ht. apply Forall_forall. intros x Hx.
  apply in_map_iff in Hx. destruct Hx as [r [<- Hr]].
  rewrite Forall_forall in Ht. now apply HP, Ht.
Qed.

(** X7: the requests of a run come stage by stage: first the login and
    the endpoint list, then the registry fetches and image pulls, then
    the swarm lookup and the stack list, then the create or update; no
    request of an earlier stage follows one of a later stage. *)
Theorem requests_come_stage_by_stage
    (JSON_parse : string -> list (string * string))
    (readFileSync : string -> option string) (env : ProcessEnv)
    (world : World) (order : list nat) :
  StronglySorted le
    (map stageOf
       (trace (final (main JSON_parse readFileSync env world order initial)))).
Proof.
  destruct (main_segments JSON_parse readFileSync env world order)
    as [t1 [t2 [t3 [t4 [-> [F1 [F2 [F3 F4]]]]]]]].
  pose proof (stages_of_segment _ 0 t1 (stageOf_connecting env) F1) as S1.
  pose proof (stages_of_segment _ 1 t2 (stageOf_pulling env) F2) as S2.
  pose proof (stages_of_segment _ 2 t3 (stageOf_resolving env) F3) as S3.
  pose proof (stages_of_segment _ 3 t4 (stageOf_deciding JSON_parse env) F4)
    as S4.
  rewrite !map_app.
  rewrite Forall_forall in S1, S2, S3, S4.
  repeat apply sorted_app;
    try (eapply sorted_constant; apply Forall_forall; eassumption).
  all: intros x y Hx Hy;
    repeat match goal with
    | H : In _ (_ ++ _) |- _ => apply in_app_or in H; destruct H as [H | H]
    end;
    repeat match goal with
    | H : In ?z (map stageOf ?t), S : forall u, In u (map stageOf ?t) -> _ |- _ =>
        apply S in H
    end; lia.
Qed.

(** ** How a run ends *)

(** X8: a run ends normally only after a create or an update, its last
    request, was answered with status 200. *)
Theorem normal_end_follows_an_acknowledged_write
    (JSON_parse : string -> list (string * string))
    (readFileSync : string -> option string) (env : ProcessEnv)
    (world : World) (order : list nat) (st : St) :
  main JSON_parse readFileSync env world order initial = Ret tt st ->
  exists before r,
    trace st = before ++ [r]
    /\ ((isStackCreate r = true /\ isStackUpdate r = false
         /\ status (create_reply world (trace st)) = 200%Z)
        \/ (isStackUpdate r = true /\ isStackCreate r = false
            /\ status (update_reply world (trace st)) = 200%Z)).
Proof.
  unfold main, bind.
  destruct (prepare readFileSync env world order initial) as [c st1|code st1];
    [|discriminate].
  unfold createOrUpdate. destruct (stackToUpdate c) as [stack|].
  - rewrite bind_issue.
    destruct (negb (status _ =? 200)%Z) eqn:Es; [discriminate|].
    apply negb_false_iff, Z.eqb_eq in Es.
    unfold ret. intros H. injection H as <-. cbn [trace].
    eexists. eexists. split; [reflexivity|]. right.
    split; [|split; [reflexivity | exact Es]].
    rewrite <- withDefaults_sentWith. apply update_isStackUpdate.
  - rewrite bind_issue.
    destruct (negb (status _ =? 200)%Z) eqn:Es; [discriminate|].
    apply negb_false_iff, Z.eqb_eq in Es.
    unfold ret. intros H. injection H as <-. cbn [trace].
    eexists. eexists. split; [reflexivity|]. left.
    split; [reflexivity|]. split; [reflexivity | exact Es].
Qed.

Lemma normal_end_follows_an_acknowledged_write_witness :
  exists st before r,
    main Sample.JSON_parse Sample.readFileSync (Sample.env None None)
      (Sample.world [Sample.web]) [] initial = Ret tt st
    /\ trace st = before ++ [r]
    /\ url r = "/stacks/7?endpointId=1".
Proof.
  destruct (main Sample.JSON_parse Sample.readFileSync (Sample.env None None)
              (Sample.world [Sample.web]) [] initial) as [[] st|code st] eqn:E;
    [|discriminate E].
  destruct (normal_end_follows_an_acknowledged_write _ _ _ _ _ _ E)
    as [before [r [Ht _]]].
  exists st, before, r. split; [reflexivity|]. split; [exact Ht|].
  assert (Hlast : last (trace st) r = r) by (rewrite Ht; apply last_last).
  rewrite <- Hlast. injection E as <-. reflexivity.
Defined.

Lemma exitsWith1_ret {A : Type} (v : A) : exitsWith1 (ret v).
Proof. intros st code st' E. discriminate E. Qed.

Lemma exitsWith1_exit {A : Type} : exitsWith1 (@exit A 1).
Proof. intros st code st' E. now injection E as <- _. Qed.

Lemma exitsWith1_issue {T : Type} (reply : list Request -> Response T)
    (r : Request) : exitsWith1 (issue reply r).
Proof. intros st code st' E. discriminate E. Qed.

Lemma exitsWith1_bind {A B : Type} (m : M A) (k : A -> M B) :
  exitsWith1 m -> (forall v, exitsWith1 (k v)) -> exitsWith1 (bind m k).
Proof.
  intros Hm Hk st code st' E. unfold bind in E.
  destruct (m st) as [v st1|code1 st1] eqn:Em.
  - eapply Hk. exact E.
  - injection E as <- _. eapply Hm. exact Em.
Qed.

Lemma exitsWith1_check {A : Type} (b : bool) (m : M A) :
  exitsWith1 m -> exitsWith1 (if b then exit 1 else m).
Proof. destruct b; [intros _; apply exitsWith1_exit | auto]. Qed.

Lemma exitsWith1_mapM {A B : Type} (f : A -> M B) (l : list A) :
  (forall x, exitsWith1 (f x)) -> exitsWith1 (mapM f l).
Proof.
  intros Hf. induction l as [|x rest IH]; simpl.
  - apply exitsWith1_ret.
  - apply exitsWith1_bind; [apply Hf|]. intros y.
    apply exitsWith1_bind; [exact IH|]. intros ys. apply exitsWith1_ret.
Qed.

Lemma exitsWith1_pull_step (world : World) (ep : Entry.t) (tag : string)
    (t : Task) :
  exitsWith1 (pull_step world ep tag t).
Proof.
  assert (Hauth : forall imageName registry rs,
             exitsWith1 (pull_withAuth world ep tag imageName registry rs)).
  { intros imageName registry rs. unfold pull_withAuth.
    apply exitsWith1_bind.
    - unfold getRegistryAuth_resume.
      destruct (JS.find _ rs); [apply exitsWith1_ret | apply exitsWith1_exit].
    - intros v. apply exitsWith1_bind; [apply exitsWith1_issue|].
      intros r. apply exitsWith1_ret. }
  destruct t; simpl.
  - apply exitsWith1_bind; [|intros rs; apply Hauth].
    unfold getRegistries_resume. apply exitsWith1_check.
    apply exitsWith1_bind; [|intros u; apply exitsWith1_ret].
    intros st code st' E. discriminate E.
  - apply Hauth.
  - apply exitsWith1_check, exitsWith1_ret.
  - apply exitsWith1_ret.
Qed.

Lemma exitsWith1_pullImages (env : ProcessEnv) (world : World) (ep : Entry.t)
    (tag : string) (order : list nat) :
  exitsWith1 (pullImages env world ep tag order).
Proof.
  unfold pullImages, pullTasks.
  apply exitsWith1_bind; [|intros v; apply exitsWith1_ret].
  apply exitsWith1_bind.
  { apply exitsWith1_mapM. intros imageName. unfold pull_start.
    destruct (negb _).
    - apply exitsWith1_bind.
      + intros st code st' E. unfold getRegistries_call in E.
        destruct (registries st); discriminate E.
      + intros [cached|response]; apply exitsWith1_ret.
    - apply exitsWith1_bind; [apply exitsWith1_issue|].
      intros r. apply exitsWith1_ret. }
  intros tasks0. apply exitsWith1_bind.
  { apply exitsWith1_mapM. intros t. unfold pull_microtask.
    destruct (awaitsResponse t);
      [apply exitsWith1_ret | apply exitsWith1_pull_step]. }
  intros tasks1. apply exitsWith1_bind.
  { revert tasks1. induction order as [|i later IH]; intros tasks1; simpl.
    - apply exitsWith1_ret.
    - apply exitsWith1_bind; [|exact IH]. unfold deliver.
      destruct (nth_error tasks1 i) as [t|]; [|apply exitsWith1_ret].
      destruct (awaitsResponse t); [|apply exitsWith1_ret].
      apply exitsWith1_bind; [apply exitsWith1_pull_step|].
      intros t'. apply exitsWith1_ret. }
  intros tasks2. apply exitsWith1_bind.
  - apply exitsWith1_mapM. apply exitsWith1_pull_step.
  - intros tasks3. apply exitsWith1_mapM. apply exitsWith1_pull_step.
Qed.

(** X9: a run that does not end normally ends with exit code 1, at
    whatever point it stops. *)
Theorem only_exit_code_is_1
    (JSON_parse : string -> list (string * string))
    (readFileSync : string -> option string) (env : ProcessEnv)
    (world : World) (order : list nat) (st : St) :
  match main JSON_parse readFileSync env world order st with
  | Ret _ _ => True
  | Exit code _ => code = 1%Z
  end.
Proof.
  assert (H : exitsWith1 (main JSON_parse readFileSync env world order)).
  { unfold main, prepare.
    apply exitsWith1_bind.
    - apply exitsWith1_bind.
      + unfold connect. destruct (commitHash env); [|apply exitsWith1_exit].
        apply exitsWith1_check.
        apply exitsWith1_bind; [apply exitsWith1_issue|]. intros response.
        apply exitsWith1_check.
        apply exitsWith1_bind.
        { intros s0 code s1 E. discriminate E. }
        intros u. apply exitsWith1_bind; [apply exitsWith1_issue|].
        intros endpointsReponse. apply exitsWith1_check.
        destruct (JS.find _ _); [apply exitsWith1_ret | apply exitsWith1_exit].
      + intros session. apply exitsWith1_bind.
        * destruct (_ && _);
            [apply exitsWith1_pullImages | apply exitsWith1_ret].
        * intros u. unfold resolveStack. apply exitsWith1_bind.
          { destruct (negb _); [|apply exitsWith1_ret].
            apply exitsWith1_bind; [apply exitsWith1_issue|].
            intros r. apply exitsWith1_check, exitsWith1_ret. }
          intros mode. apply exitsWith1_bind; [apply exitsWith1_issue|].
          intros r. apply exitsWith1_check.
          destruct (readFileSync _);
            [apply exitsWith1_ret | apply exitsWith1_exit].
    - intros c. unfold createOrUpdate.
      destruct (stackToUpdate c);
        (apply exitsWith1_bind; [apply exitsWith1_issue|]);
        intros r; apply exitsWith1_check, exitsWith1_ret. }
  destruct (main JSON_parse readFileSync env world order st) as [v s|code s]
    eqn:E; [exact I|].
  eapply H. exact E.
Qed.

(** ** The swarm identifier *)

(** [resolveStack] in clustered mode, when it returns. *)
Lemma resolveStack_clustered (readFileSync : string -> option string)
    (env : ProcessEnv) (world : World) (ep : Entry.t) (tag : string)
    (st0 st : St) (c : Context) :
  JS.truthy (standalone env) = false ->
  resolveStack readFileSync env world ep tag st0 = Ret c st ->
  let sw := sentWith (authorization st0) (swarmRequest ep) in
  let id := data (swarm_reply world (trace st0 ++ [sw])) in
  trace st
  = (trace st0 ++ [sw])
    ++ [sentWith (authorization st0) (stacksRequest (Some (swarmFilter id)))]
  /\ swarmId c = id.
Proof.
  intros Hs. unfold resolveStack. rewrite Hs. cbn [negb].
  unfold bind at 1. rewrite bind_issue.
  destruct (negb (status _ =? 200)%Z); [discriminate|].
  unfold ret at 1. cbn [fst snd]. rewrite bind_issue.
  cbn [trace registries authorization].
  destruct (negb (status _ =? 200)%Z); [discriminate|].
  destruct (readFileSync _); [|discriminate].
  unfold ret. intros H. injection H as <- <-. split; reflexivity.
Qed.

(** X10: in clustered mode (standalone option unset or empty), when the
    decision is reached, the last two requests are the swarm lookup and
    the stack list; the identifier that the swarm lookup returned is the
    SwarmID of the list's filter and the SwarmID of the create body. *)
Theorem one_swarm_id_scopes_list_and_create
    (JSON_parse : string -> list (string * string))
    (readFileSync : string -> option string) (env : ProcessEnv)
    (world : World) (order : list nat) (c : Context) (st : St) :
  PLUGIN_STANDALONE env = None \/ PLUGIN_STANDALONE env = Some "" ->
  prepare readFileSync env world order initial = Ret c st ->
  exists before lookup list,
    trace st = before ++ [lookup; list]
    /\ isSwarmFetch lookup = true
    /\ isStacksList list = true
    /\ swarmId c = data (swarm_reply world (before ++ [lookup]))
    /\ params list = Some (swarmFilter (swarmId c))
    /\ JS.get "SwarmID" (stackCreateOptions JSON_parse env c)
       = Some (JS.Str (swarmId c)).
Proof.
  intros Hunset Hprep. apply truthy_flag in Hunset.
  change (JS.truthy (standalone env) = false) in Hunset.
  destruct (prepare_Ret _ _ _ _ _ _ _ Hprep) as [ep [tag [st1 Hres]]].
  destruct (resolveStack_clustered _ _ _ _ _ _ _ _ Hunset Hres) as [Ht Hid].
  exists (trace st1), (sentWith (authorization st1) (swarmRequest ep)).
  eexists. rewrite <- app_assoc in Ht. split; [exact Ht|].
  split.
  { unfold isSwarmFetch. simpl.
    now destruct (JS.numToStr (Entry.Id ep) +:+ _). }
  split; [reflexivity|]. split; [exact Hid|].
  split; [cbn [params sentWith withDefaults stacksRequest]; now rewrite Hid|].
  unfold stackCreateOptions. rewrite Hunset. reflexivity.
Qed.

Lemma one_swarm_id_scopes_list_and_create_witness :
  exists c st,
    prepare Sample.readFileSync (Sample.env None None) (Sample.world []) []
      initial = Ret c st
    /\ swarmId c = "swarm1"
    /\ JS.get "SwarmID" (stackCreateOptions Sample.JSON_parse
                           (Sample.env None None) c)
       = Some (JS.Str "swarm1").
Proof.
  destruct (prepare Sample.readFileSync (Sample.env None None)
              (Sample.world []) [] initial) as [c st|code st] eqn:E;
    [|discriminate E].
  destruct (one_swarm_id_scopes_list_and_create Sample.JSON_parse
              Sample.readFileSync (Sample.env None None) (Sample.world [])
              [] c st (or_introl eq_refl) E)
    as [before [lookup [list [_ [_ [_ [Hid [_ Hbody]]]]]]]].
  exists c, st. split; [reflexivity|].
  assert (Hc : swarmId c = "swarm1") by (injection E as <- _; reflexivity).
  split; [exact Hc|]. rewrite Hbody, Hc. reflexivity.
Defined.

(** ** The image list *)

Lemma split_nonempty (sep : ascii) (s : string) : JS.split sep s <> [].
Proof.
  destruct s as [|c rest]; simpl; [discriminate|].
  destruct (Ascii.eqb c sep); [discriminate|].
  destruct (JS.split sep rest); discriminate.
Qed.

Lemma join_cons_char (sep : string) (c : ascii) (piece : string)
    (pieces : list string) :
  join sep (String c piece :: pieces) = String c (join sep (piece :: pieces)).
Proof. destruct pieces; reflexivity. Qed.

(** X11: splitting at a character loses nothing and leaves the character
    in no piece: the pieces joined by it give the string back, no piece
    holds it; so the image names of the pull stage are exactly the
    comma-separated items of PLUGIN_IMAGES, and the registry of an image
    holds no "/". *)
Theorem split_then_join_is_identity (sep : ascii) (s : string) :
  join (String sep EmptyString) (JS.split sep s) = s
  /\ Forall (fun piece => occurs sep piece = false) (JS.split sep s)
  /\ occurs "/" (registryOf s) = false.
Proof.
  assert (H : join (String sep EmptyString) (JS.split sep s) = s
              /\ Forall (fun piece => occurs sep piece = false) (JS.split sep s)).
  { induction s as [|c rest [IHj IHf]]; simpl.
    - split; [reflexivity | repeat constructor].
    - destruct (Ascii.eqb c sep) eqn:Ec.
      + apply Ascii.eqb_eq in Ec. subst c. split.
        * destruct (JS.split sep rest) as [|piece pieces] eqn:Es;
            [now apply split_nonempty in Es|].
          change (join (String sep "") ("" :: piece :: pieces))
            with (String sep (join (String sep "") (piece :: pieces))).
          now rewrite IHj.
        * constructor; [reflexivity | exact IHf].
      + destruct (JS.split sep rest) as [|piece pieces] eqn:Es;
          [now apply split_nonempty in Es|].
        split.
        * rewrite join_cons_char. now rewrite IHj.
        * inversion IHf as [|? ? Hp Hps]; subst.
          constructor; [|exact Hps]. simpl. now rewrite Ec. }
  destruct H as [Hj Hf]. split; [exact Hj|]. split; [exact Hf|].
  rewrite registryOf_beforeFirst. clear.
  induction s as [|c rest IH]; simpl; [reflexivity|].
  destruct (Ascii.eqb c "/") eqn:Ec; [reflexivity|].
  simpl. rewrite Ec. exact IH.
Qed.

(** ** The registry cache, call by call *)

(** X12: with nothing cached, [getRegistries] issues one GET /registries
    and stores nothing yet. When the response has status 200 the list is
    stored, also an empty one, and returned, and a call made after that
    returns the stored list without a request. With any other status the
    run exits with code 1 and nothing is stored. *)
Theorem registry_list_is_cached_once_it_has_arrived (world : World) (st : St) :
  registries st = None ->
  exists response st1,
    getRegistries_call world st = Ret (inr response) st1
    /\ trace st1 = trace st ++ [sentWith (authorization st) registriesRequest]
    /\ registries st1 = None
    /\ (status response = 200%Z ->
        exists st2,
          getRegistries_resume response st1 = Ret (data response) st2
          /\ trace st2 = trace st1
          /\ registries st2 = Some (data response)
          /\ getRegistries_call world st2 = Ret (inl (data response)) st2)
    /\ (status response <> 200%Z ->
        getRegistries_resume response st1 = Exit 1 st1).
Proof.
  intros Hnone. unfold getRegistries_call. rewrite Hnone.
  rewrite bind_issue. unfold ret. eexists. eexists.
  split; [reflexivity|]. cbn [trace registries].
  split; [reflexivity|]. split; [exact Hnone|]. split.
  - intros H200. unfold getRegistries_resume. rewrite H200.
    cbn [Z.eqb Pos.eqb negb]. unfold bind, setRegistries, ret.
    eexists. split; [reflexivity|]. cbn [trace registries].
    repeat split.
  - intros Hother. apply Z.eqb_neq in Hother.
    unfold getRegistries_resume. now rewrite Hother.
Qed.

Lemma registry_list_is_cached_once_it_has_arrived_witness :
  exists response st1 st2,
    getRegistries_call (Sample.world []) initial = Ret (inr response) st1
    /\ getRegistries_resume response st1 = Ret (data response) st2
    /\ getRegistries_call (Sample.world []) st2 = Ret (inl (data response)) st2.
Proof.
  destruct (registry_list_is_cached_once_it_has_arrived (Sample.world [])
              initial eq_refl)
    as [response [st1 [Hcall [_ [_ [Hok _]]]]]].
  assert (H200 : status response = 200%Z).
  { unfold getRegistries_call in Hcall. cbn in Hcall.
    injection Hcall as <- _. reflexivity. }
  destruct (Hok H200) as [st2 [Hres [_ [_ Hhit]]]].
  exists response, st1, st2. split; [exact Hcall|]. split; assumption.
Defined.

(** ** The pull stage from its launch *)

Lemma sent_pull_isImagePull (a : option string) (ep : Entry.t)
    (tag imageName : string) (registryAuth : option string) :
  isImagePull (sentWith a (imageRequest ep tag imageName registryAuth)) = true.
Proof.
  unfold isImagePull. simpl.
  now destruct (JS.numToStr (Entry.Id ep) +:+ _).
Qed.

Lemma pulled_app (tr1 tr2 : list Request) :
  pulled (tr1 ++ tr2) = pulled tr1 ++ pulled tr2.
Proof. apply flat_map_app. Qed.

Lemma pulled_sent_pull (a : option string) (ep : Entry.t)
    (tag imageName : string) (registryAuth : option string) :
  pulled [sentWith a (imageRequest ep tag imageName registryAuth)]
  = [imageName].
Proof.
  unfold pulled. cbn [flat_map]. rewrite sent_pull_isImagePull.
  reflexivity.
Qed.

Lemma pulled_none (tr : list Request) :
  Forall (fun r => isImagePull r = false) tr -> pulled tr = [].
Proof.
  induction 1 as [|r rest Hr _ IH]; [reflexivity|].
  unfold pulled in *. cbn [flat_map]. now rewrite Hr, IH.
Qed.

(** The launch issues one request per image, in the order of the list:
    the pull itself for a "docker.io" image, the registry list for any
    other. *)
Lemma launch_exact (world : World) (ep : Entry.t) (tag : string)
    (names : list string) (st : St) :
  registries st = None ->
  exists tasks st',
    mapM (pull_start world ep tag) names st = Ret tasks st'
    /\ trace st'
       = trace st ++ map (launchRequest (authorization st) ep tag) names
    /\ registries st' = None
    /\ authorization st' = authorization st
    /\ forall n, occ n (pulled (trace st')) + occ n (flat_map unpulled tasks)
                 = occ n (pulled (trace st)) + occ n names.
Proof.
  revert st. induction names as [|imageName rest IH]; intros st Hnone.
  - exists [], st. split; [reflexivity|]. cbn [map]. rewrite app_nil_r.
    repeat split; auto.
  - assert (Hstart : exists t st1,
               pull_start world ep tag imageName st = Ret t st1
               /\ trace st1
                  = trace st ++ [launchRequest (authorization st) ep tag imageName]
               /\ registries st1 = None
               /\ authorization st1 = authorization st
               /\ pulled [launchRequest (authorization st) ep tag imageName]
                  ++ unpulled t = [imageName]).
    { unfold pull_start, launchRequest, needsAuth.
      destruct (registryOf imageName =? "docker.io"); cbn [negb].
      - rewrite bind_issue. unfold ret. eexists. eexists.
        split; [reflexivity|]. cbn [trace registries authorization unpulled].
        repeat split; auto. now rewrite pulled_sent_pull.
      - unfold bind, getRegistries_call. rewrite Hnone.
        rewrite bind_issue. unfold ret. eexists. eexists.
        split; [reflexivity|]. cbn [trace registries authorization unpulled].
        repeat split; auto. }
    destruct Hstart as [t [st1 [Hs [Ht1 [Hn1 [Ha1 Hp1]]]]]].
    destruct (IH st1 Hn1) as [tasks [st' [Hrest [Ht' [Hn' [Ha' Hc']]]]]].
    exists (t :: tasks), st'. split.
    { cbn [mapM]. unfold bind. now rewrite Hs, Hrest. }
    split.
    { rewrite Ht', Ht1, Ha1. cbn [map]. now rewrite <- app_assoc. }
    split; [exact Hn'|]. split; [now rewrite Ha', Ha1|].
    intros n. specialize (Hc' n). rewrite Ht1, pulled_app in Hc'.
    unfold occ in *. rewrite count_occ_app in Hc'.
    cbn [flat_map]. rewrite count_occ_app.
    apply (f_equal (fun l => count_occ string_dec l n)) in Hp1.
    rewrite count_occ_app in Hp1.
    change (imageName :: rest) with ([imageName] ++ rest).
    rewrite (count_occ_app string_dec [imageName] rest). lia.
Qed.

(** What a run does once the callbacks have started. *)
Lemma main_from_launch (JSON_parse : string -> list (string * string))
    (readFileSync : string -> option string) (env : ProcessEnv)
    (world : World) (order : list nat) (ep : Entry.t) (tag : string)
    (st1 st2 : St) (tasks0 : list Task) :
  connect env world initial = Ret (ep, tag) st1 ->
  images env <> "" ->
  mapM (pull_start world ep tag) (JS.split "," (images env)) st1
  = Ret tasks0 st2 ->
  main JSON_parse readFileSync env world order initial
  = (settle world ep tag order tasks0 ;;;
     finish JSON_parse readFileSync env world ep tag) st2.
Proof.
  intros Hconnect Himages Hlaunch.
  rewrite main_afterConnect. unfold bind at 1. rewrite Hconnect. cbn [fst snd].
  unfold afterConnect, pullImages, pullTasks, settle, finish.
  apply String.eqb_neq in Himages. unfold JS.truthyStr. rewrite Himages.
  cbn [negb andb]. unfold bind. rewrite Hlaunch. unfold ret.
  repeat (cbv beta iota;
          match goal with
          | |- match ?m with _ => _ end = _ => destruct_innermost m
          end);
    reflexivity.
Qed.

Lemma later_requests (JSON_parse : string -> list (string * string))
    (env : ProcessEnv) (r : Request) :
  Resuming env r \/ Resolving env r \/ Deciding JSON_parse env r ->
  isRegistriesFetch r = false
  /\ (isImagePull r = true -> header "X-Registry-Auth" r <> None).
Proof.
  intros [Hr | [Hr | Hr]]; destruct Hr; (split; [reflexivity|]);
    intros Hkind; try discriminate Hkind.
  rewrite header_of_pull. discriminate.
Qed.

(** After the launch: credentialed pulls, then the stack stage. *)
Lemma after_launch_emits (JSON_parse : string -> list (string * string))
    (readFileSync : string -> option string) (env : ProcessEnv)
    (world : World) (order : list nat) (ep : Entry.t) (hash : string)
    (tasks0 : list Task) :
  commitHash env = Some hash ->
  JS.truthyStr (images env) = true ->
  Forall (taskOk (JS.split "," (images env))) tasks0 ->
  emits (fun r => Resuming env r \/ Resolving env r \/ Deciding JSON_parse env r)
    (fun _ => True)
    (settle world ep (releaseTagOf env hash) order tasks0 ;;;
     finish JSON_parse readFileSync env world ep (releaseTagOf env hash)).
Proof.
  intros Hhash Htruthy Hok. eapply emits_bind.
  { eapply emits_weaken;
      [| |exact (afterLaunch_emits env world hash Hhash Htruthy
                   ep order tasks0 Hok)].
    - intros r Hr. left. exact Hr.
    - intros v Hv. exact Hv. }
  intros _ _. unfold finish. eapply emits_bind.
  { eapply emits_weaken; [| |apply resolveStack_emits with (hash := hash)].
    - intros r Hr. right. left. exact Hr.
    - intros v Hv. exact Hv. }
  intros c Hc.
  eapply emits_weaken;
    [| |exact (createOrUpdate_emits JSON_parse env world hash c Hhash Hc)].
  - intros r Hr. right. right. exact Hr.
  - auto.
Qed.

Lemma connect_Ret_state (env : ProcessEnv) (world : World)
    (session : Entry.t * string) (st1 : St) :
  connect env world initial = Ret session st1 ->
  st1 = connected env world
  /\ exists hash, commitHash env = Some hash
                  /\ snd session = releaseTagOf env hash.
Proof.
  rewrite connect_initial.
  destruct (commitHash env) as [hash|]; [|discriminate].
  destruct (negb (JS.truthyStr hash)); [discriminate|].
  destruct (negb (status _ =? 200)%Z); [discriminate|].
  destruct (resolvedEndpoint env world); [|discriminate].
  intros H. injection H as <- <-. split; [reflexivity|].
  exists hash. now split.
Qed.

(** X13: the callbacks of the pull stage all start before any of their
    responses is looked at: after the endpoint lookup the run issues one
    request per image, in the order of the list (the pull, without
    credential, of a "docker.io" image; the registry list for any other
    image), and only then the pulls with a credential and the requests of
    the stack stage. *)
Theorem callbacks_start_before_any_response
    (JSON_parse : string -> list (string * string))
    (readFileSync : string -> option string) (env : ProcessEnv)
    (world : World) (order : list nat) (ep : Entry.t) (tag : string)
    (st1 : St) :
  connect env world initial = Ret (ep, tag) st1 ->
  images env <> "" ->
  exists later,
    trace (final (main JSON_parse readFileSync env world order initial))
    = trace st1
      ++ map (launchRequest (authorization st1) ep tag)
           (JS.split "," (images env))
      ++ later
    /\ Forall (fun r => isRegistriesFetch r = false
                        /\ (isImagePull r = true ->
                            header "X-Registry-Auth" r <> None))
         later.
Proof.
  intros Hconnect Himages.
  destruct (connect_Ret_state _ _ _ _ Hconnect) as [Hst1 [hash [Hhash Htag]]].
  cbn [snd] in Htag. subst tag.
  assert (Htruthy : JS.truthyStr (images env) = true).
  { unfold JS.truthyStr. apply String.eqb_neq in Himages. now rewrite Himages. }
  assert (Hnone : registries st1 = None) by now rewrite Hst1.
  destruct (launch_exact world ep (releaseTagOf env hash)
              (JS.split "," (images env)) st1 Hnone)
    as [tasks0 [st2 [Hlaunch [Ht2 _]]]].
  destruct (launch_emits env world hash Hhash Htruthy ep st1) as [_ Hok].
  specialize (Hok tasks0 st2 Hlaunch).
  rewrite (main_from_launch JSON_parse readFileSync env world order ep _
             st1 st2 tasks0 Hconnect Himages Hlaunch).
  destruct (after_launch_emits JSON_parse readFileSync env world order ep hash
              tasks0 Hhash Htruthy Hok st2) as [[later [E F]] _].
  exists later. split.
  - rewrite E, Ht2. now rewrite <- app_assoc.
  - eapply Forall_impl; [|exact F]. apply later_requests.
Qed.

Lemma callbacks_start_before_any_response_witness :
  exists later,
    map url
      (trace (final (main Sample.JSON_parse Sample.readFileSync
                       (Sample.env
                          (Some "registry.example.com/a,docker.io/b") None)
                       (Sample.world []) [1; 0] initial)))
    = ["/auth"; "/endpoints"; "/registries";
       "/endpoints/1/docker/images/create"] ++ later.
Proof.
  destruct (connect (Sample.env (Some "registry.example.com/a,docker.io/b") None)
              (Sample.world []) initial) as [[ep tag] st1|code st1] eqn:E;
    [|discriminate E].
  destruct (callbacks_start_before_any_response Sample.JSON_parse
              Sample.readFileSync
              (Sample.env (Some "registry.example.com/a,docker.io/b") None)
              (Sample.world []) [1; 0] ep tag st1 E)
    as [later [Ht _]]; [discriminate|].
  exists (map url later). rewrite Ht, !map_app.
  injection E as <- <- <-. reflexivity.
Defined.

(** ** Every image is pulled once *)

Lemma pull_withAuth_pulled (world : World) (ep : Entry.t)
    (tag imageName registry : string) (rs : list Registry.t)
    (st st' : St) (t' : Task) :
  pull_withAuth world ep tag imageName registry rs st = Ret t' st' ->
  pulled (trace st') = pulled (trace st) ++ [imageName] /\ unpulled t' = [].
Proof.
  unfold pull_withAuth, bind, getRegistryAuth_resume.
  destruct (JS.find _ rs); [|discriminate].
  unfold ret, issue. intros H. injection H as <- <-. cbn [trace unpulled].
  split; [|reflexivity].
  rewrite pulled_app, withDefaults_sentWith. now rewrite pulled_sent_pull.
Qed.

(** A resumption that returns has issued the pull its task still owed. *)
Lemma pull_step_pulled (world : World) (ep : Entry.t) (tag : string)
    (t t' : Task) (st st' : St) :
  pull_step world ep tag t st = Ret t' st' ->
  pulled (trace st') = pulled (trace st) ++ unpulled t /\ unpulled t' = [].
Proof.
  destruct t as [imageName registry response | imageName registry rs
                | imageName response | ]; cbn [pull_step unpulled].
  - unfold bind, getRegistries_resume.
    destruct (negb (status response =? 200)%Z); [discriminate|].
    unfold bind, setRegistries, ret. intros H.
    apply pull_withAuth_pulled in H. cbn [trace] in H. exact H.
  - apply pull_withAuth_pulled.
  - destruct (negb (status response =? 200)%Z); [discriminate|].
    unfold ret. intros H. injection H as <- <-.
    now rewrite app_nil_r.
  - unfold ret. intros H. injection H as <- <-. now rewrite app_nil_r.
Qed.

Lemma occ_app (n : string) (l1 l2 : list string) :
  occ n (l1 ++ l2) = occ n l1 + occ n l2.
Proof. apply count_occ_app. Qed.

Lemma mapM_conserves {A B : Type} (ownedBefore : A -> list string)
    (ownedAfter : B -> list string) (f : A -> M B) :
  conserves ownedBefore ownedAfter f ->
  conserves (flat_map ownedBefore) (flat_map ownedAfter) (mapM f).
Proof.
  intros Hf l. induction l as [|x rest IH]; intros st ys st' E n.
  - unfold mapM, ret in E. injection E as <- <-. reflexivity.
  - cbn [mapM] in E. unfold bind in E.
    destruct (f x st) as [y st1|] eqn:Ex; [|discriminate].
    destruct (mapM f rest st1) as [ys' st2|] eqn:Er; [|discriminate].
    unfold ret in E. injection E as <- <-.
    pose proof (Hf _ _ _ _ Ex n) as H1. pose proof (IH _ _ _ Er n) as H2.
    cbn [flat_map]. rewrite !occ_app. lia.
Qed.

Lemma pull_step_conserves (world : World) (ep : Entry.t) (tag : string) :
  conserves unpulled unpulled (pull_step world ep tag).
Proof.
  intros t st t' st' E n. destruct (pull_step_pulled _ _ _ _ _ _ _ E) as [-> ->].
  rewrite occ_app. cbn. lia.
Qed.

Lemma pull_microtask_conserves (world : World) (ep : Entry.t) (tag : string) :
  conserves unpulled unpulled (pull_microtask world ep tag).
Proof.
  intros t st t' st' E n. unfold pull_microtask in E.
  destruct (awaitsResponse t).
  - unfold ret in E. now injection E as <- <-.
  - eapply pull_step_conserves. exact E.
Qed.

Lemma replaceAt_owned (n : string) (i : nat) (t t' : Task) (tasks : list Task) :
  nth_error tasks i = Some t ->
  occ n (flat_map unpulled (replaceAt i t' tasks)) + occ n (unpulled t)
  = occ n (flat_map unpulled tasks) + occ n (unpulled t').
Proof.
  revert i. induction tasks as [|x rest IH]; intros [|i] E;
    try discriminate E; cbn [nth_error] in E; cbn [replaceAt flat_map].
  - injection E as ->. rewrite !occ_app. lia.
  - specialize (IH i E). rewrite !occ_app. lia.
Qed.

Lemma arrivals_conserves (world : World) (ep : Entry.t) (tag : string)
    (order : list nat) :
  conserves (flat_map unpulled) (flat_map unpulled)
    (arrivals world ep tag order).
Proof.
  induction order as [|i later IH]; intros tasks st tasks' st' E n.
  - unfold arrivals, ret in E. now injection E as <- <-.
  - cbn [arrivals] in E. unfold bind in E.
    destruct (deliver world ep tag i tasks st) as [tasks1 st1|] eqn:Ed;
      [|discriminate].
    rewrite (IH _ _ _ _ E n). clear E.
    unfold deliver in Ed.
    destruct (nth_error tasks i) as [t|] eqn:Ei;
      [|unfold ret in Ed; now injection Ed as <- <-].
    destruct (awaitsResponse t);
      [|unfold ret in Ed; now injection Ed as <- <-].
    unfold bind in Ed.
    destruct (pull_step world ep tag t st) as [t' st2|] eqn:Es; [|discriminate].
    unfold ret in Ed. injection Ed as <- <-.
    pose proof (pull_step_conserves _ _ _ _ _ _ _ Es n) as H1.
    pose proof (replaceAt_owned n i t t' tasks Ei) as H2. lia.
Qed.

Lemma mapM_pull_step_done (world : World) (ep : Entry.t) (tag : string)
    (tasks tasks' : list Task) (st st' : St) :
  mapM (pull_step world ep tag) tasks st = Ret tasks' st' ->
  flat_map unpulled tasks' = [].
Proof.
  revert st tasks' st'.
  induction tasks as [|t rest IH]; intros st tasks' st' E.
  - unfold mapM, ret in E. now injection E as <- _.
  - cbn [mapM] in E. unfold bind in E.
    destruct (pull_step world ep tag t st) as [t' sa|] eqn:Et; [|discriminate].
    destruct (mapM (pull_step world ep tag) rest sa) as [ts sb|] eqn:Er;
      [|discriminate].
    unfold ret in E. injection E as <- _. cbn [flat_map].
    destruct (pull_step_pulled _ _ _ _ _ _ _ Et) as [_ ->].
    now rewrite (IH _ _ _ Er).
Qed.

(** When the callbacks have all finished, every pull that was owed has
    been issued. *)
Lemma settle_pulls (world : World) (ep : Entry.t) (tag : string)
    (order : list nat) (tasks0 tasks : list Task) (st st' : St) :
  settle world ep tag order tasks0 st = Ret tasks st' ->
  forall n,
    occ n (pulled (trace st'))
    = occ n (pulled (trace st)) + occ n (flat_map unpulled tasks0).
Proof.
  unfold settle, bind. intros E n.
  destruct (mapM (pull_microtask world ep tag) tasks0 st) as [tasks1 st1|] eqn:E1;
    [|discriminate].
  destruct (arrivals world ep tag order tasks1 st1) as [tasks2 st2|] eqn:E2;
    [|discriminate].
  destruct (mapM (pull_step world ep tag) tasks2 st2) as [tasks3 st3|] eqn:E3;
    [|discriminate].
  pose proof (mapM_conserves _ _ _ (pull_microtask_conserves world ep tag)
                _ _ _ _ E1 n) as H1.
  pose proof (arrivals_conserves world ep tag order _ _ _ _ E2 n) as H2.
  pose proof (mapM_conserves _ _ _ (pull_step_conserves world ep tag)
                _ _ _ _ E3 n) as H3.
  pose proof (mapM_conserves _ _ _ (pull_step_conserves world ep tag)
                _ _ _ _ E n) as H4.
  rewrite (mapM_pull_step_done _ _ _ _ _ _ _ E3) in H3, H4.
  rewrite (mapM_pull_step_done _ _ _ _ _ _ _ E) in H4.
  change (occ n []) with 0 in H3, H4. lia.
Qed.

Lemma finish_no_pull (JSON_parse : string -> list (string * string))
    (readFileSync : string -> option string) (env : ProcessEnv)
    (world : World) (ep : Entry.t) (hash : string) (st : St) :
  commitHash env = Some hash ->
  pulled (trace (final (finish JSON_parse readFileSync env world ep
                          (releaseTagOf env hash) st)))
  = pulled (trace st).
Proof.
  intros Hhash.
  assert (H : emits (fun r => Resolving env r \/ Deciding JSON_parse env r)
                (fun _ => True)
                (finish JSON_parse readFileSync env world ep
                   (releaseTagOf env hash))).
  { unfold finish. eapply emits_bind.
    { eapply emits_weaken; [| |apply resolveStack_emits with (hash := hash)].
      - intros r Hr. left. exact Hr.
      - intros v Hv. exact Hv. }
    intros c Hc.
    eapply emits_weaken;
      [| |exact (createOrUpdate_emits JSON_parse env world hash c Hhash Hc)].
    - intros r Hr. right. exact Hr.
    - auto. }
  destruct (H st) as [[new [-> Hnew]] _].
  rewrite pulled_app, (pulled_none new); [now rewrite app_nil_r|].
  eapply Forall_impl; [|exact Hnew].
  intros r [Hr | Hr]; destruct Hr; reflexivity.
Qed.

(** X14: in a run that ends normally the images pulled are exactly the
    images of the list, each as often as the list names it: none is
    skipped and none is pulled twice. Without an image list nothing is
    pulled. *)
Theorem normal_end_pulled_every_image_once
    (JSON_parse : string -> list (string * string))
    (readFileSync : string -> option string) (env : ProcessEnv)
    (world : World) (order : list nat) (st : St) :
  main JSON_parse readFileSync env world order initial = Ret tt st ->
  Permutation (pulled (trace st))
    (if images env =? "" then [] else JS.split "," (images env)).
Proof.
  intros Hrun.
  assert (Hconnect : exists ep tag,
             connect env world initial = Ret (ep, tag) (connected env world)).
  { revert Hrun. rewrite main_afterConnect. unfold bind at 1.
    destruct (connect env world initial) as [[ep tag] st1|] eqn:Ec;
      [|discriminate].
    intros _. destruct (connect_Ret_state _ _ _ _ Ec) as [-> _].
    now exists ep, tag. }
  destruct Hconnect as [ep [tag Hconnect]].
  destruct (connect_Ret_state _ _ _ _ Hconnect) as [_ [hash [Hhash Htag]]].
  cbn [snd] in Htag. subst tag.
  destruct (images env =? "") eqn:Ei.
  - (* no image list: the run is the stack stage *)
    revert Hrun. rewrite main_afterConnect. unfold bind at 1.
    rewrite Hconnect. cbn [fst snd]. unfold afterConnect.
    unfold JS.truthyStr. rewrite Ei. cbn [negb andb].
    unfold bind at 1. unfold ret at 1. fold (finish JSON_parse readFileSync
                                              env world ep (releaseTagOf env hash)).
    intros Hfin.
    pose proof (finish_no_pull JSON_parse readFileSync env world ep hash
                  (connected env world) Hhash) as Hp.
    rewrite Hfin in Hp. cbn [final] in Hp. rewrite Hp. constructor.
  - apply String.eqb_neq in Ei.
    assert (Hnone : registries (connected env world) = None) by reflexivity.
    destruct (launch_exact world ep (releaseTagOf env hash)
                (JS.split "," (images env)) (connected env world) Hnone)
      as [tasks0 [st2 [Hlaunch [_ [_ [_ Hcount]]]]]].
    rewrite (main_from_launch JSON_parse readFileSync env world order ep _
               _ st2 tasks0 Hconnect Ei Hlaunch) in Hrun.
    unfold bind in Hrun.
    destruct (settle world ep (releaseTagOf env hash) order tasks0 st2)
      as [tasks st3|] eqn:Es; [|discriminate].
    pose proof (finish_no_pull JSON_parse readFileSync env world ep hash
                  st3 Hhash) as Hp.
    rewrite Hrun in Hp. cbn [final] in Hp.
    apply (Permutation_count_occ string_dec). intros n.
    pose proof (settle_pulls _ _ _ _ _ _ _ _ Es n) as H1.
    specialize (Hcount n). rewrite Hp.
    unfold occ in *. cbn in Hcount. lia.
Qed.

Lemma normal_end_pulled_every_image_once_witness :
  exists st,
    main Sample.JSON_parse Sample.readFileSync
      (Sample.env (Some "registry.example.com/a,docker.io/b") None)
      (Sample.world []) [1; 0] initial = Ret tt st
    /\ Permutation (pulled (trace st)) ["registry.example.com/a"; "docker.io/b"].
Proof.
  destruct (main Sample.JSON_parse Sample.readFileSync
              (Sample.env (Some "registry.example.com/a,docker.io/b") None)
              (Sample.world []) [1; 0] initial) as [[] st|code st] eqn:E;
    [|discriminate E].
  exists st. split; [reflexivity|].
  exact (normal_end_pulled_every_image_once _ _ _ _ _ _ E).
Defined.

(** ** No stack stage after a failed pull *)

Lemma answersFrom_app (world : World) (before tr1 tr2 : list Request) :
  answersFrom world before (tr1 ++ tr2)
  = answersFrom world before tr1 ++ answersFrom world (before ++ tr1) tr2.
Proof.
  revert before. induction tr1 as [|r rest IH]; intros before; cbn [app answersFrom].
  - now rewrite app_nil_r.
  - rewrite IH, <- !app_assoc. reflexivity.
Qed.

Lemma answersFrom_none (world : World) (before tr : list Request) :
  Forall (fun r => isImagePull r = false /\ isRegistriesFetch r = false) tr ->
  answersFrom world before tr = [].
Proof.
  intros H. revert before.
  induction H as [|r rest [Hp Hf] _ IH]; intros before; [reflexivity|].
  cbn [answersFrom]. unfold answerOf. now rewrite Hp, Hf, IH.
Qed.

Lemma answers_after_issue (world : World) (st : St) (r : Request) :
  answersFrom world [] (trace st ++ [withDefaults st r])
  = answersFrom world [] (trace st)
    ++ answerOf world (trace st ++ [withDefaults st r]) (withDefaults st r).
Proof.
  rewrite answersFrom_app. cbn [answersFrom app]. now rewrite app_nil_r.
Qed.

Lemma awaited_weaken (world : World) (P P' : list Z) (st : St) :
  (forall s, s <> 200%Z -> In s P -> In s P') ->
  answeredOrAwaited world P st -> answeredOrAwaited world P' st.
Proof.
  intros Hsub H. eapply Forall_impl; [|exact H].
  intros s [Hs | Hs]; [now left|].
  destruct (Z.eq_dec s 200) as [E | E]; [now left | right; auto].
Qed.

(** Issuing a request whose answer the new task waits for. *)
Lemma awaited_after_issue (world : World) (L R : list Z) (st : St)
    (r : Request) (s : Z) :
  answerOf world (trace st ++ [withDefaults st r]) (withDefaults st r) = [s] ->
  answeredOrAwaited world (L ++ R) st ->
  answeredOrAwaited world (L ++ [s] ++ R)
    {| trace := trace st ++ [withDefaults st r];
       registries := registries st; authorization := authorization st |}.
Proof.
  intros Ha H. unfold answeredOrAwaited in *. cbn [trace].
  rewrite answers_after_issue, Ha. apply Forall_app. split.
  - eapply Forall_impl; [|exact H]. intros x [Hx | Hx]; [now left|].
    right. apply in_app_or in Hx. apply in_or_app.
    destruct Hx as [Hx | Hx]; [now left | right; now right].
  - constructor; [|constructor]. right. apply in_or_app. right. now left.
Qed.

Lemma answerOf_pull (world : World) (st : St) (ep : Entry.t)
    (tag imageName : string) (registryAuth : option string) (tr : list Request) :
  answerOf world tr
    (withDefaults st (imageRequest ep tag imageName registryAuth))
  = [status (pull_reply world tr)].
Proof.
  unfold answerOf. rewrite withDefaults_sentWith.
  now rewrite sent_pull_isImagePull.
Qed.

Lemma pull_withAuth_awaited (world : World) (ep : Entry.t)
    (tag imageName registry : string) (rs : list Registry.t)
    (L R : list Z) (st st' : St) (t' : Task) :
  answeredOrAwaited world (L ++ R) st ->
  pull_withAuth world ep tag imageName registry rs st = Ret t' st' ->
  answeredOrAwaited world (L ++ awaited t' ++ R) st'.
Proof.
  intros H. unfold pull_withAuth, bind, getRegistryAuth_resume.
  destruct (JS.find _ rs); [|discriminate].
  unfold ret, issue. intros E. injection E as <- <-. cbn [awaited status].
  apply awaited_after_issue; [apply answerOf_pull | exact H].
Qed.

(** A resumption that returns saw status 200, and waits for the answer
    to what it issued. *)
Lemma pull_step_awaited (world : World) (ep : Entry.t) (tag : string)
    (t t' : Task) (L R : list Z) (st st' : St) :
  answeredOrAwaited world (L ++ awaited t ++ R) st ->
  pull_step world ep tag t st = Ret t' st' ->
  answeredOrAwaited world (L ++ awaited t' ++ R) st'.
Proof.
  assert (Hdrop : forall s,
             s = 200%Z ->
             answeredOrAwaited world (L ++ [s] ++ R) st ->
             answeredOrAwaited world (L ++ R) st).
  { intros s -> H. eapply awaited_weaken; [|exact H].
    intros x Hx Hin. apply in_app_or in Hin. apply in_or_app.
    destruct Hin as [Hin | [Hin | Hin]]; [now left | now elim Hx | now right]. }
  destruct t as [imageName registry response | imageName registry rs
                | imageName response | ]; cbn [pull_step awaited].
  - intros H. unfold bind, getRegistries_resume.
    destruct (negb (status response =? 200)%Z) eqn:Es; [discriminate|].
    apply negb_false_iff, Z.eqb_eq in Es.
    unfold bind, setRegistries, ret. intros E.
    eapply pull_withAuth_awaited; [|exact E].
    exact (Hdrop _ Es H).
  - intros H E. eapply pull_withAuth_awaited; [|exact E]. exact H.
  - intros H. destruct (negb (status response =? 200)%Z) eqn:Es; [discriminate|].
    apply negb_false_iff, Z.eqb_eq in Es.
    unfold ret. intros E. injection E as <- <-. cbn [awaited app].
    exact (Hdrop _ Es H).
  - unfold ret. intros H E. now injection E as <- <-.
Qed.

Lemma pull_microtask_awaited (world : World) (ep : Entry.t) (tag : string)
    (t t' : Task) (L R : list Z) (st st' : St) :
  answeredOrAwaited world (L ++ awaited t ++ R) st ->
  pull_microtask world ep tag t st = Ret t' st' ->
  answeredOrAwaited world (L ++ awaited t' ++ R) st'.
Proof.
  unfold pull_microtask. destruct (awaitsResponse t).
  - unfold ret. intros H E. now injection E as <- <-.
  - apply pull_step_awaited.
Qed.

Lemma pull_start_awaited (world : World) (ep : Entry.t) (tag imageName : string)
    (t : Task) (L R : list Z) (st st' : St) :
  answeredOrAwaited world (L ++ [] ++ R) st ->
  pull_start world ep tag imageName st = Ret t st' ->
  answeredOrAwaited world (L ++ awaited t ++ R) st'.
Proof.
  cbn [app]. intros H. unfold pull_start.
  destruct (negb (registryOf imageName =? "docker.io")).
  - unfold bind, getRegistries_call.
    destruct (registries st) as [cached|].
    + unfold ret. intros E. now injection E as <- <-.
    + unfold bind, issue, ret. intros E. injection E as <- <-.
      cbn [awaited status]. apply awaited_after_issue; [reflexivity | exact H].
  - unfold bind, issue, ret. intros E. injection E as <- <-.
    cbn [awaited status]. apply awaited_after_issue; [|exact H].
    apply answerOf_pull.
Qed.

Lemma mapM_awaited {A B : Type} (world : World)
    (before : A -> list Z) (after : B -> list Z) (f : A -> M B) :
  (forall x y L R st st',
     answeredOrAwaited world (L ++ before x ++ R) st ->
     f x st = Ret y st' ->
     answeredOrAwaited world (L ++ after y ++ R) st') ->
  forall l ys L R st st',
    answeredOrAwaited world (L ++ flat_map before l ++ R) st ->
    mapM f l st = Ret ys st' ->
    answeredOrAwaited world (L ++ flat_map after ys ++ R) st'.
Proof.
  intros Hf l. induction l as [|x rest IH]; intros ys L R st st' H E.
  - unfold mapM, ret in E. now injection E as <- <-.
  - cbn [mapM] in E. unfold bind in E.
    destruct (f x st) as [y st1|] eqn:Ex; [|discriminate].
    destruct (mapM f rest st1) as [ys' st2|] eqn:Er; [|discriminate].
    unfold ret in E. injection E as <- <-.
    cbn [flat_map] in H |- *. rewrite <- app_assoc in H.
    pose proof (Hf x y L (flat_map before rest ++ R) st st1 H Ex) as H1.
    rewrite !app_assoc in H1. rewrite <- (app_assoc _ (flat_map before rest) R) in H1.
    pose proof (IH ys' (L ++ after y) R st1 st2 H1 Er) as H2.
    rewrite <- !app_assoc in H2. rewrite <- app_assoc. exact H2.
Qed.

Lemma replaceAt_split (i : nat) (t t' : Task) (tasks : list Task) :
  nth_error tasks i = Some t ->
  exists T1 T2,
    tasks = T1 ++ t :: T2 /\ replaceAt i t' tasks = T1 ++ t' :: T2.
Proof.
  revert i. induction tasks as [|x rest IH]; intros [|i] E;
    try discriminate E; cbn [nth_error] in E.
  - injection E as ->. exists [], rest. split; reflexivity.
  - destruct (IH i E) as [T1 [T2 [-> Hr]]].
    exists (x :: T1), T2. split; [reflexivity|].
    cbn [replaceAt app]. now rewrite Hr.
Qed.

Lemma arrivals_awaited (world : World) (ep : Entry.t) (tag : string)
    (order : list nat) (tasks tasks' : list Task) (st st' : St) :
  answeredOrAwaited world (flat_map awaited tasks) st ->
  arrivals world ep tag order tasks st = Ret tasks' st' ->
  answeredOrAwaited world (flat_map awaited tasks') st'.
Proof.
  revert tasks st. induction order as [|i later IH]; intros tasks st H E.
  - unfold arrivals, ret in E. now injection E as <- <-.
  - cbn [arrivals] in E. unfold bind in E.
    destruct (deliver world ep tag i tasks st) as [tasks1 st1|] eqn:Ed;
      [|discriminate].
    apply (IH tasks1 st1); [|exact E]. clear E IH.
    unfold deliver in Ed.
    destruct (nth_error tasks i) as [t|] eqn:Ei;
      [|unfold ret in Ed; now injection Ed as <- <-].
    destruct (awaitsResponse t);
      [|unfold ret in Ed; now injection Ed as <- <-].
    unfold bind in Ed.
    destruct (pull_step world ep tag t st) as [t' st2|] eqn:Es; [|discriminate].
    unfold ret in Ed. injection Ed as <- <-.
    destruct (replaceAt_split i t t' tasks Ei) as [T1 [T2 [-> ->]]].
    rewrite flat_map_app in H |- *. cbn [flat_map] in H |- *.
    exact (pull_step_awaited world ep tag t t' _ _ st st2 H Es).
Qed.

Lemma flat_map_nothing {A B : Type} (l : list A) :
  flat_map (fun _ : A => @nil B) l = [].
Proof. induction l; [reflexivity | exact IHl]. Qed.

Lemma launch_awaited (world : World) (ep : Entry.t) (tag : string)
    (names : list string) (tasks0 : list Task) (st st' : St) :
  answeredOrAwaited world [] st ->
  mapM (pull_start world ep tag) names st = Ret tasks0 st' ->
  answeredOrAwaited world (flat_map awaited tasks0) st'.
Proof.
  intros H E.
  pose proof (mapM_awaited world (fun _ : string => []) awaited
                (pull_start world ep tag)) as Hm.
  specialize (Hm (fun x y L R s s' => pull_start_awaited world ep tag x y L R s s')
                names tasks0 [] [] st st').
  rewrite flat_map_nothing in Hm. cbn [app] in Hm.
  rewrite app_nil_r in Hm. exact (Hm H E).
Qed.

Lemma settle_awaited (world : World) (ep : Entry.t) (tag : string)
    (order : list nat) (tasks0 tasks : list Task) (st st' : St) :
  answeredOrAwaited world (flat_map awaited tasks0) st ->
  settle world ep tag order tasks0 st = Ret tasks st' ->
  answeredOrAwaited world (flat_map awaited tasks) st'.
Proof.
  unfold settle, bind. intros H E.
  destruct (mapM (pull_microtask world ep tag) tasks0 st) as [tasks1 st1|] eqn:E1;
    [|discriminate].
  destruct (arrivals world ep tag order tasks1 st1) as [tasks2 st2|] eqn:E2;
    [|discriminate].
  destruct (mapM (pull_step world ep tag) tasks2 st2) as [tasks3 st3|] eqn:E3;
    [|discriminate].
  assert (Hmap : forall f,
             (forall x y L R s s',
                answeredOrAwaited world (L ++ awaited x ++ R) s ->
                f x s = Ret y s' ->
                answeredOrAwaited world (L ++ awaited y ++ R) s') ->
             forall l ys s s',
               answeredOrAwaited world (flat_map awaited l) s ->
               mapM f l s = Ret ys s' ->
               answeredOrAwaited world (flat_map awaited ys) s').
  { intros f Hf l ys s s' Hl El.
    pose proof (mapM_awaited world awaited awaited f Hf l ys [] [] s s') as Hm.
    cbn [app] in Hm. rewrite !app_nil_r in Hm. exact (Hm Hl El). }
  apply (Hmap (pull_step world ep tag)) with (l := tasks3) (s := st3);
    [intros; eapply pull_step_awaited; eassumption | | exact E].
  apply (Hmap (pull_step world ep tag)) with (l := tasks2) (s := st2);
    [intros; eapply pull_step_awaited; eassumption | | exact E3].
  apply (arrivals_awaited world ep tag order tasks1 tasks2 st1 st2); [|exact E2].
  apply (Hmap (pull_microtask world ep tag)) with (l := tasks0) (s := st);
    [intros; eapply pull_microtask_awaited; eassumption | exact H | exact E1].
Qed.

Lemma stage_le_1 (env : ProcessEnv) (tr : list Request) :
  Forall (fun r => Connecting env r \/ Pulling env r) tr ->
  forall r, In r tr -> stageOf r <= 1.
Proof.
  intros H r Hin. rewrite Forall_forall in H.
  destruct (H r Hin) as [Hr | Hr].
  - rewrite (stageOf_connecting env r Hr). lia.
  - rewrite (stageOf_pulling env r Hr). lia.
Qed.

(** X15: a run issues a request of the stack stage only after every
    registry list and every image pull it asked for was answered with
    status 200. *)
Theorem stack_stage_only_after_successful_pulls
    (JSON_parse : string -> list (string * string))
    (readFileSync : string -> option string) (env : ProcessEnv)
    (world : World) (order : list nat) :
  let tr :=
    trace (final (main JSON_parse readFileSync env world order initial)) in
  (exists r, In r tr /\ 2 <= stageOf r) ->
  Forall (fun s => s = 200%Z) (answersFrom world [] tr).
Proof.
  intros tr [r [Hin Hstage]]. unfold tr in *. clear tr.
  destruct (connect env world initial) as [[ep tag] st1|code st1] eqn:Ec.
  2:{ exfalso. revert Hin. rewrite main_afterConnect. unfold bind at 1.
      rewrite Ec. cbn [final]. intros Hin.
      destruct (connect_emits env world initial) as [[new [E F]] _].
      rewrite Ec in E. cbn [final trace initial app] in E. rewrite E in Hin.
      rewrite Forall_forall in F.
      rewrite (stageOf_connecting env r (F r Hin)) in Hstage. lia. }
  destruct (connect_Ret_state _ _ _ _ Ec) as [-> [hash [Hhash Htag]]].
  cbn [snd] in Htag. subst tag.
  assert (Hstart : answeredOrAwaited world [] (connected env world))
    by (unfold answeredOrAwaited; cbn; constructor).
  assert (Hfinish : forall st,
             answeredOrAwaited world [] st ->
             answeredOrAwaited world []
               (final (finish JSON_parse readFileSync env world ep
                         (releaseTagOf env hash) st))).
  { intros st Hst.
    assert (H : emits (fun q => Resolving env q \/ Deciding JSON_parse env q)
                  (fun _ => True)
                  (finish JSON_parse readFileSync env world ep
                     (releaseTagOf env hash))).
    { unfold finish. eapply emits_bind.
      { eapply emits_weaken; [| |apply resolveStack_emits with (hash := hash)].
        - intros q Hq. left. exact Hq.
        - intros v Hv. exact Hv. }
      intros c Hc.
      eapply emits_weaken;
        [| |exact (createOrUpdate_emits JSON_parse env world hash c Hhash Hc)].
      - intros q Hq. right. exact Hq.
      - auto. }
    destruct (H st) as [[new [E F]] _].
    unfold answeredOrAwaited. rewrite E, answersFrom_app. cbn [app].
    rewrite (answersFrom_none world (trace st) new); [now rewrite app_nil_r|].
    eapply Forall_impl; [|exact F].
    intros q [Hq | Hq]; destruct Hq; split; reflexivity. }
  assert (Hdone : forall st,
             answeredOrAwaited world [] st ->
             Forall (fun s => s = 200%Z) (answersFrom world [] (trace st))).
  { intros st Hst. eapply Forall_impl; [|exact Hst].
    intros s [Hs | []]. exact Hs. }
  destruct (images env =? "") eqn:Ei.
  - apply Hdone. clear Hin.
    rewrite main_afterConnect. unfold bind at 1. rewrite Ec. cbn [fst snd].
    unfold afterConnect, JS.truthyStr. rewrite Ei. cbn [negb andb].
    unfold bind at 1. unfold ret at 1.
    fold (finish JSON_parse readFileSync env world ep (releaseTagOf env hash)).
    now apply Hfinish.
  - apply String.eqb_neq in Ei.
    assert (Htruthy : JS.truthyStr (images env) = true).
    { unfold JS.truthyStr. apply String.eqb_neq in Ei. now rewrite Ei. }
    destruct (launch_exact world ep (releaseTagOf env hash)
                (JS.split "," (images env)) (connected env world) eq_refl)
      as [tasks0 [st2 [Hlaunch _]]].
    destruct (launch_emits env world hash Hhash Htruthy ep (connected env world))
      as [[new1 [E1 F1]] Hok].
    rewrite Hlaunch in E1. cbn [final] in E1.
    specialize (Hok tasks0 st2 Hlaunch).
    rewrite (main_from_launch JSON_parse readFileSync env world order ep _
               _ st2 tasks0 Ec Ei Hlaunch) in Hin |- *.
    destruct (afterLaunch_emits env world hash Hhash Htruthy ep order tasks0
                Hok st2) as [[new2 [E2 F2]] Hsettled].
    fold (settle world ep (releaseTagOf env hash) order tasks0) in E2, Hsettled.
    unfold bind in Hin |- *.
    destruct (settle world ep (releaseTagOf env hash) order tasks0 st2)
      as [tasks st3|code st3] eqn:Es; cbn [final] in E2.
    + apply Hdone, Hfinish.
      pose proof (launch_awaited _ _ _ _ _ _ _ Hstart Hlaunch) as H0.
      pose proof (settle_awaited _ _ _ _ _ _ _ _ H0 Es) as H1.
      assert (Hnil : flat_map awaited tasks = []).
      { specialize (Hsettled tasks st3 eq_refl).
        clear - Hsettled. induction Hsettled as [|t rest -> _ IH];
          [reflexivity | exact IH]. }
      now rewrite Hnil in H1.
    + exfalso. cbn [final] in Hin. rewrite E2, E1 in Hin.
      assert (Hle : stageOf r <= 1).
      { apply (stage_le_1 env
                 ((trace (connected env world) ++ new1) ++ new2)); [|exact Hin].
        apply Forall_app. split; [apply Forall_app; split|].
        - apply Forall_cons; [left; apply (IssuedAuth env initial)|].
          apply Forall_cons; [|apply Forall_nil]. left.
          apply (IssuedEndpoints env
                   {| trace := []; registries := None;
                      authorization := Some (bearer env world) |}).
        - eapply Forall_impl; [|exact F1]. intros q Hq. right. now left.
        - eapply Forall_impl; [|exact F2]. intros q Hq. right. now right. }
      lia.
Qed.

Lemma stack_stage_only_after_successful_pulls_witness :
  Forall (fun s => s = 200%Z)
    (answersFrom (Sample.world []) []
       (trace (final (main Sample.JSON_parse Sample.readFileSync
                        (Sample.env
                           (Some "registry.example.com/a,docker.io/b") None)
                        (Sample.world []) [1; 0] initial)))).
Proof.
  apply stack_stage_only_after_successful_pulls.
  eexists. split.
  - apply in_or_app. right. cbn. left. reflexivity.
  - cbn. lia.
Defined.

(** ** The lookups before the decision *)

Lemma resolveStack_statuses (readFileSync : string -> option string)
    (env : ProcessEnv) (world : World) (ep : Entry.t) (tag : string)
    (st0 st : St) (c : Context) :
  resolveStack readFileSync env world ep tag st0 = Ret c st ->
  status (stacks_reply world (trace st)) = 200%Z
  /\ (JS.truthy (standalone env) = false ->
      status (swarm_reply world (removelast (trace st))) = 200%Z).
Proof.
  unfold resolveStack.
  destruct (JS.truthy (standalone env)); cbn [negb].
  - unfold bind at 1. unfold ret at 1. cbn [fst snd]. rewrite bind_issue.
    destruct (negb (status _ =? 200)%Z) eqn:Es; [discriminate|].
    apply negb_false_iff, Z.eqb_eq in Es.
    destruct (readFileSync _); [|discriminate].
    unfold ret. intros H. injection H as <- <-. cbn [trace].
    split; [exact Es | discriminate].
  - unfold bind at 1. rewrite bind_issue.
    destruct (negb (status _ =? 200)%Z) eqn:Ew; [discriminate|].
    apply negb_false_iff, Z.eqb_eq in Ew.
    unfold ret at 1. cbn [fst snd]. rewrite bind_issue.
    cbn [trace registries authorization].
    destruct (negb (status _ =? 200)%Z) eqn:Es; [discriminate|].
    apply negb_false_iff, Z.eqb_eq in Es.
    destruct (readFileSync _); [|discriminate].
    unfold ret. intros H. injection H as <- <-. cbn [trace].
    split; [exact Es|]. intros _. now rewrite removelast_last.
Qed.

(** X16: the decision is reached only when the login and the stack list,
    the last request before it, were answered with status 200, and in
    clustered mode also the swarm lookup, the request before the stack
    list. *)
Theorem decision_follows_successful_lookups
    (readFileSync : string -> option string) (env : ProcessEnv)
    (world : World) (order : list nat) (c : Context) (st : St) :
  prepare readFileSync env world order initial = Ret c st ->
  status (auth_reply world [sentWith None (authRequest env)]) = 200%Z
  /\ status (stacks_reply world (trace st)) = 200%Z
  /\ (PLUGIN_STANDALONE env = None \/ PLUGIN_STANDALONE env = Some "" ->
      status (swarm_reply world (removelast (trace st))) = 200%Z).
Proof.
  intros Hprep.
  destruct (prepare_Ret _ _ _ _ _ _ _ Hprep) as [ep [tag [st1 Hres]]].
  destruct (resolveStack_statuses _ _ _ _ _ _ _ _ Hres) as [Hlist Hswarm].
  split; [|split; [exact Hlist|]].
  - revert Hprep. unfold prepare. unfold bind at 1. rewrite connect_initial.
    destruct (commitHash env); [|discriminate].
    destruct (negb (JS.truthyStr s)); [discriminate|].
    destruct (negb (status _ =? 200)%Z) eqn:Es; [discriminate|].
    intros _. now apply negb_false_iff, Z.eqb_eq in Es.
  - intros Hunset. apply Hswarm. now apply truthy_flag in Hunset.
Qed.

Lemma decision_follows_successful_lookups_witness :
  exists c st,
    prepare Sample.readFileSync (Sample.env None None) (Sample.world []) []
      initial = Ret c st
    /\ status (stacks_reply (Sample.world []) (trace st)) = 200%Z.
Proof.
  destruct (prepare Sample.readFileSync (Sample.env None None)
              (Sample.world []) [] initial) as [c st|code st] eqn:E;
    [|discriminate E].
  exists c, st. split; [reflexivity|].
  exact (proj1 (proj2 (decision_follows_successful_lookups _ _ _ _ _ _ E))).
Defined.

(** ** A failed login *)

(** X17: when the login is answered with another status than 200 the run
    exits with code 1 and the login is the only request it has issued. *)
Theorem failed_login_issues_nothing_else
    (JSON_parse : string -> list (string * string))
    (readFileSync : string -> option string) (env : ProcessEnv)
    (world : World) (order : list nat) (hash : string) :
  commitHash env = Some hash -> hash <> "" ->
  let login := sentWith None (authRequest env) in
  status (auth_reply world [login]) <> 200%Z ->
  main JSON_parse readFileSync env world order initial
  = Exit 1 {| trace := [login]; registries := None; authorization := None |}.
Proof.
  intros Hhash Hne login Hstatus.
  destruct (run_cases JSON_parse readFileSync env world order)
    as [[[Hbad | Hbad] _] | [hash' [_ [_ [[_ Hrun] | [[H200 _] | [H200 _]]]]]]].
  - rewrite Hhash in Hbad. discriminate Hbad.
  - rewrite Hhash in Hbad. injection Hbad as ->. now elim Hne.
  - exact Hrun.
  - now elim Hstatus.
  - now elim Hstatus.
Qed.

Lemma failed_login_issues_nothing_else_witness :
  length
    (trace (final (main Sample.JSON_parse Sample.readFileSync
                     (Sample.env (Some "docker.io/app") None)
                     {| auth_reply := fun _ => {| status := 401; data := "" |};
                        endpoints_reply := Sample.ok Sample.endpoints;
                        registries_reply := Sample.ok [];
                        pull_reply := Sample.ok tt;
                        swarm_reply := Sample.ok "swarm1";
                        stacks_reply := Sample.ok [];
                        create_reply := Sample.ok tt;
                        update_reply := Sample.ok tt |}
                     [] initial)))
  = 1.
Proof.
  rewrite (failed_login_issues_nothing_else Sample.JSON_parse
             Sample.readFileSync (Sample.env (Some "docker.io/app") None)
             _ [] "0123456789abcdef" eq_refl);
    [reflexivity | discriminate | discriminate].
Defined.

(** ** The registry list behind a credential *)

Lemma fromImage_sent_pull (a : option string) (ep : Entry.t)
    (tag imageName : string) (registryAuth : option string) :
  fromImage (sentWith a (imageRequest ep tag imageName registryAuth))
  = Some imageName.
Proof. reflexivity. Qed.

Lemma launchRequest_plain (a : option string) (ep : Entry.t)
    (tag imageName : string) :
  isRegistriesFetch (launchRequest a ep tag imageName) = needsAuth imageName
  /\ (isImagePull (launchRequest a ep tag imageName) = true ->
      header "X-Registry-Auth" (launchRequest a ep tag imageName) = None).
Proof.
  unfold launchRequest. destruct (needsAuth imageName).
  - split; [reflexivity|]. intros H. discriminate H.
  - split; [|intros _; apply header_of_sent_pull].
    unfold isRegistriesFetch, sentWith, withDefaults, imageRequest.
    cbn [method url]. reflexivity.
Qed.

Section Own.

Variable world : World.
Variable a : option string.
Variable ep : Entry.t.
Variable tag : string.
Variable base : list Request.
Variable names : list string.

Let P : Request -> Prop := ownCredential world a ep tag base names.
Let own : Task -> Prop := ownList world a ep tag base names.

Lemma launch_own (done rest : list string) (st : St) :
  names = done ++ rest ->
  registries st = None ->
  authorization st = a ->
  trace st = base ++ map (launchRequest a ep tag) done ->
  forall tasks st',
    mapM (pull_start world ep tag) rest st = Ret tasks st' ->
    Forall own tasks.
Proof.
  revert done st. induction rest as [|imageName rest IH];
    intros done st Hnames Hnone Ha Htrace tasks st'.
  - cbn [mapM]. unfold ret. intros H. injection H as <- _. constructor.
  - cbn [mapM]. unfold bind at 1.
    assert (Hstart : exists t st1,
               pull_start world ep tag imageName st = Ret t st1
               /\ own t
               /\ registries st1 = None
               /\ authorization st1 = a
               /\ trace st1
                  = base ++ map (launchRequest a ep tag) (done ++ [imageName])).
    { assert (Hnext : forall r,
                 launchRequest a ep tag imageName = sentWith a r ->
                 trace st ++ [sentWith (authorization st) r]
                 = base ++ map (launchRequest a ep tag) (done ++ [imageName])).
      { intros r Hr. rewrite Htrace, Ha, map_app, <- app_assoc.
        cbn [map]. now rewrite Hr. }
      unfold pull_start.
      destruct (negb (registryOf imageName =? "docker.io")) eqn:En.
      - unfold bind at 1. unfold getRegistries_call. rewrite Hnone.
        rewrite bind_issue. unfold ret.
        eexists. eexists. split; [reflexivity|].
        cbn [trace registries authorization].
        assert (Hl : launchRequest a ep tag imageName
                     = sentWith a registriesRequest).
        { unfold launchRequest, needsAuth. now rewrite En. }
        rewrite (Hnext _ Hl).
        split; [|now repeat split].
        exists done, rest. split; [exact Hnames|].
        split; [exact En|]. split; reflexivity.
      - rewrite bind_issue. unfold ret.
        eexists. eexists. split; [reflexivity|].
        cbn [trace registries authorization].
        assert (Hl : launchRequest a ep tag imageName
                     = sentWith a (imageRequest ep tag imageName None)).
        { unfold launchRequest, needsAuth. now rewrite En. }
        rewrite (Hnext _ Hl).
        split; [exact I|]. now repeat split. }
    destruct Hstart as [t [st1 [-> [Hown [Hn1 [Ha1 Ht1]]]]]].
    unfold bind at 1.
    destruct (mapM (pull_start world ep tag) rest st1) as [ts st2|] eqn:Erest;
      [|discriminate].
    unfold ret. intros H. injection H as <- _.
    constructor; [exact Hown|].
    apply (IH (done ++ [imageName]) st1) with (st' := st2); auto.
    now rewrite <- app_assoc.
Qed.

Lemma pull_withAuth_own (imageName : string) (earlier later : list string) :
  names = earlier ++ imageName :: later ->
  needsAuth imageName = true ->
  status (registries_reply world (launchedTo a ep tag base earlier imageName))
  = 200%Z ->
  emits P own
    (pull_withAuth world ep tag imageName (registryOf imageName)
       (data (registries_reply world
                (launchedTo a ep tag base earlier imageName)))).
Proof.
  intros Hnames Hneeds Hstatus. unfold pull_withAuth, getRegistryAuth_resume.
  destruct (JS.find _ _) as [reg|] eqn:Efind.
  - eapply emits_bind with (Q1 := fun v => v = credential reg).
    { now apply emits_ret. }
    intros v ->.
    eapply emits_bind with (Q1 := fun _ => True).
    + apply emits_issue; [|trivial]. intros st _ v Hv.
      rewrite withDefaults_sentWith, header_of_sent_pull in Hv.
      injection Hv as <-.
      exists imageName, earlier, later, reg.
      split; [exact Hnames|]. split; [exact Hneeds|].
      split; [apply fromImage_sent_pull|].
      split; [exact Hstatus|]. split; [exact Efind | reflexivity].
    + intros r _. now apply emits_ret.
  - eapply emits_bind with (Q1 := fun _ => False);
      [apply emits_exit | intros v []].
Qed.

Lemma pull_step_own (t : Task) :
  own t -> emits P own (pull_step world ep tag t).
Proof.
  destruct t as [imageName registry response | imageName registry rs
                | imageName response | ]; cbn [pull_step].
  - intros [earlier [later [Hnames [Hneeds [-> ->]]]]].
    unfold getRegistries_resume.
    destruct (negb (status _ =? 200)%Z) eqn:Es.
    + eapply emits_bind with (Q1 := fun _ => False);
        [apply emits_exit | intros v []].
    + apply negb_false_iff, Z.eqb_eq in Es.
      eapply emits_bind
        with (Q1 := fun rs =>
                      rs = data (registries_reply world
                                   (launchedTo a ep tag base earlier imageName))).
      * eapply emits_bind; [apply emits_setRegistries|].
        intros _ _. now apply emits_ret.
      * intros rs ->. now apply pull_withAuth_own with (later := later).
  - intros [].
  - intros _. apply status_check_emits. now apply emits_ret.
  - intros _. now apply emits_ret.
Qed.

Lemma pull_microtask_own (t : Task) :
  own t -> emits P own (pull_microtask world ep tag t).
Proof.
  intros Hown. unfold pull_microtask. destruct (awaitsResponse t).
  - now apply emits_ret.
  - now apply pull_step_own.
Qed.

Lemma deliver_own (i : nat) (tasks : list Task) :
  Forall own tasks -> emits P (Forall own) (deliver world ep tag i tasks).
Proof.
  intros Hall. unfold deliver.
  destruct (nth_error tasks i) as [t|] eqn:Ei; [|now apply emits_ret].
  destruct (awaitsResponse t); [|now apply emits_ret].
  eapply emits_bind.
  - apply pull_step_own.
    apply nth_error_In in Ei. rewrite Forall_forall in Hall. now apply Hall.
  - intros t' Hown. apply emits_ret. now apply replaceAt_ok.
Qed.

Lemma arrivals_own (order : list nat) (tasks : list Task) :
  Forall own tasks -> emits P (Forall own) (arrivals world ep tag order tasks).
Proof.
  revert tasks. induction order as [|i later IH]; intros tasks Hall;
    cbn [arrivals].
  - now apply emits_ret.
  - eapply emits_bind; [now apply deliver_own|]. exact IH.
Qed.

Lemma settle_own (order : list nat) (tasks0 : list Task) :
  Forall own tasks0 ->
  emits P (Forall own) (settle world ep tag order tasks0).
Proof.
  intros H0. unfold settle.
  eapply emits_bind.
  { apply emits_mapM with (Pre := own) (Q := own);
      [apply pull_microtask_own | exact H0]. }
  intros tasks1 H1.
  eapply emits_bind; [apply arrivals_own; exact H1|].
  intros tasks2 H2.
  eapply emits_bind.
  { apply emits_mapM with (Pre := own) (Q := own);
      [apply pull_step_own | exact H2]. }
  intros tasks3 H3.
  apply emits_mapM with (Pre := own); [apply pull_step_own | exact H3].
Qed.

End Own.

Lemma finish_own (JSON_parse : string -> list (string * string))
    (readFileSync : string -> option string) (env : ProcessEnv)
    (world : World) (a : option string) (ep : Entry.t) (hash : string)
    (base : list Request) (names : list string) :
  commitHash env = Some hash ->
  emits (ownCredential world a ep (releaseTagOf env hash) base names)
    (fun _ => True)
    (finish JSON_parse readFileSync env world ep (releaseTagOf env hash)).
Proof.
  intros Hhash. unfold finish. eapply emits_bind.
  { eapply emits_weaken; [| |apply resolveStack_emits with (hash := hash)].
    - intros r Hr. destruct Hr; intros Hkind; discriminate Hkind.
    - intros v Hv. exact Hv. }
  intros c Hc.
  eapply emits_weaken;
    [| |exact (createOrUpdate_emits JSON_parse env world hash c Hhash Hc)].
  - intros r Hr. destruct Hr; intros Hkind; discriminate Hkind.
  - auto.
Qed.

(** A credential traced in the run itself. *)
Lemma own_in_trace (world : World) (a : option string) (ep : Entry.t)
    (tag : string) (first second : Request) (names : list string)
    (new : list Request) (r : Request) :
  In r new ->
  ownCredential world a ep tag [first; second] names r ->
  credentialOfOwnLookup world names
    ([first; second] ++ map (launchRequest a ep tag) names ++ new) r.
Proof.
  intros Hin Hown Hpull v Hv.
  destruct (Hown Hpull v Hv)
    as [imageName [earlier [later [reg [Hnames [Hneeds [Hfrom [Hs [Hf ->]]]]]]]]].
  unfold launchedTo in Hs, Hf. rewrite map_app, app_assoc in Hs, Hf.
  cbn [map] in Hs, Hf.
  exists imageName, earlier, later,
    ([first; second] ++ map (launchRequest a ep tag) earlier),
    (launchRequest a ep tag imageName),
    (map (launchRequest a ep tag) later ++ new), reg.
  split; [exact Hnames|]. split; [exact Hfrom|].
  split.
  { rewrite Hnames, map_app. cbn [map]. now rewrite <- !app_assoc. }
  split.
  { rewrite length_app, length_map. reflexivity. }
  split.
  { rewrite (proj1 (launchRequest_plain a ep tag imageName)). exact Hneeds. }
  split; [apply in_or_app; now right|].
  split; [exact Hs|]. split; [|reflexivity].
  rewrite <- registryOf_beforeFirst. exact Hf.
Qed.

(** X4: every image pull of a run that carries an X-Registry-Auth header
    is the pull of the image at some position of the list; the request at
    that position of the trace, counted after the login and the endpoint
    list, is a registry fetch, issued before the pull; that fetch was
    answered with status 200; and the header is the base64 text of
    [{"registryId":Id}] for the first registry of the answer whose URL is
    the part of the image name before the first "/". *)
Theorem credential_is_first_match_of_own_lookup
    (JSON_parse : string -> list (string * string))
    (readFileSync : string -> option string) (env : ProcessEnv)
    (world : World) (order : list nat) :
  let tr :=
    trace (final (main JSON_parse readFileSync env world order initial)) in
  Forall (credentialOfOwnLookup world (JS.split "," (images env)) tr) tr.
Proof.
  intros tr. subst tr.
  destruct (images env =? "") eqn:Ei.
  { apply String.eqb_eq in Ei.
    eapply Forall_impl;
      [|exact (main_trace_issued JSON_parse readFileSync env world order)].
    intros r Hr Hpull.
    destruct (issued_without_images _ _ _ Ei Hr) as [Hno _].
    rewrite Hno in Hpull. discriminate Hpull. }
  apply String.eqb_neq in Ei.
  destruct (connect env world initial) as [[ep tag] st1|code st1] eqn:Ec.
  - destruct (connect_Ret_state _ _ _ _ Ec) as [Hst1 [hash [Hhash Htag]]].
    cbn [snd] in Htag. subst tag. subst st1.
    set (names := JS.split "," (images env)).
    set (a := Some (bearer env world)).
    set (tag := releaseTagOf env hash).
    destruct (launch_exact world ep tag names (connected env world) eq_refl)
      as [tasks0 [st2 [Hlaunch [Ht2 _]]]].
    assert (Hown : Forall (ownList world a ep tag
                             [sentAuth env; sentEndpoints env world] names)
                     tasks0).
    { apply (launch_own world a ep tag [sentAuth env; sentEndpoints env world]
               names [] names (connected env world) eq_refl eq_refl eq_refl)
        with (st' := st2); [|exact Hlaunch].
      cbn [map]. now rewrite app_nil_r. }
    rewrite (main_from_launch JSON_parse readFileSync env world order ep _
               _ st2 tasks0 Ec Ei Hlaunch).
    assert (Hemits : emits (ownCredential world a ep tag
                              [sentAuth env; sentEndpoints env world] names)
                       (fun _ => True)
                       (settle world ep tag order tasks0 ;;;
                        finish JSON_parse readFileSync env world ep tag)).
    { eapply emits_bind; [apply settle_own; exact Hown|].
      intros _ _. now apply finish_own. }
    subst names a tag.
    destruct (Hemits st2) as [[new [-> Hnew]] _].
    rewrite Ht2. cbn [connected trace authorization].
    rewrite <- app_assoc.
    apply Forall_app. split.
    { constructor; [intros H; discriminate H|].
      constructor; [intros H; discriminate H | constructor]. }
    apply Forall_app. split.
    + apply Forall_forall. intros r Hr. apply in_map_iff in Hr.
      destruct Hr as [imageName [<- _]]. intros Hpull v Hv.
      rewrite (proj2 (launchRequest_plain _ _ _ imageName) Hpull) in Hv.
      discriminate Hv.
    + apply Forall_forall. intros r Hr.
      apply own_in_trace; [exact Hr|].
      rewrite Forall_forall in Hnew. now apply Hnew.
  - assert (Hrun : main JSON_parse readFileSync env world order initial
                   = Exit code st1).
    { rewrite main_afterConnect. unfold bind. now rewrite Ec. }
    rewrite Hrun. cbn [final].
    destruct (connect_emits env world initial) as [[new [Hnew Hall]] _].
    rewrite Ec in Hnew. cbn [final initial trace app] in Hnew. rewrite Hnew.
    eapply Forall_impl; [|exact Hall].
    intros r Hr. destruct Hr; intros Hkind; discriminate Hkind.
Qed.

(** Two registries with the same URL: the credential is that of the
    first, in the answer to the fetch of the image's own callback. *)
Example first_of_two_registries :
  map (fun r => (url r, header "X-Registry-Auth" r))
    (trace (final (main Sample.JSON_parse Sample.readFileSync
                     (Sample.env (Some "registry.example.com/svc:1") None)
                     {| auth_reply := Sample.ok "token";
                        endpoints_reply := Sample.ok Sample.endpoints;
                        registries_reply :=
                          Sample.ok
                            [ {| Registry.Id := 7;
                                 Registry.URL := "registry.example.com" |};
                              {| Registry.Id := 9;
                                 Registry.URL := "registry.example.com" |} ];
                        pull_reply := Sample.ok tt;
                        swarm_reply := Sample.ok "swarm1";
                        stacks_reply := Sample.ok [];
                        create_reply := Sample.ok tt;
                        update_reply := Sample.ok tt |}
                     [] initial)))
  = [("/auth", None); ("/endpoints", None); ("/registries", None);
     ("/endpoints/1/docker/images/create", Some "eyJyZWdpc3RyeUlkIjo3fQ==");
     ("/endpoints/1/docker/swarm", None); ("/stacks", None);
     ("/stacks?type=1&method=string&endpointId=1", None)].
Proof. vm_compute. reflexivity. Qed.

Lemma credential_is_first_match_of_own_lookup_witness :
  exists r imageName fetch reg,
    nth_error
      (trace (final (main Sample.JSON_parse Sample.readFileSync
                       (Sample.env
                          (Some "docker.io/app:latest,registry.example.com/svc:latest")
                          None)
                       (Sample.world [Sample.web]) [] initial))) 4 = Some r
    /\ fromImage r = Some imageName
    /\ nth_error
         (trace (final (main Sample.JSON_parse Sample.readFileSync
                          (Sample.env
                             (Some "docker.io/app:latest,registry.example.com/svc:latest")
                             None)
                          (Sample.world [Sample.web]) [] initial))) 3
       = Some fetch
    /\ isRegistriesFetch fetch = true
    /\ Registry.URL reg = beforeFirst "/" imageName
    /\ header "X-Registry-Auth" r = Some (credential reg).
Proof.
  pose proof (credential_is_first_match_of_own_lookup Sample.JSON_parse
                Sample.readFileSync
                (Sample.env
                   (Some "docker.io/app:latest,registry.example.com/svc:latest")
                   None)
                (Sample.world [Sample.web]) []) as H.
  cbv zeta in H. rewrite Forall_forall in H.
  destruct (nth_error
              (trace (final (main Sample.JSON_parse Sample.readFileSync
                               (Sample.env
                                  (Some "docker.io/app:latest,registry.example.com/svc:latest")
                                  None)
                               (Sample.world [Sample.web]) [] initial))) 4)
    as [r|] eqn:E4; [|discriminate E4].
  pose proof (nth_error_In _ _ E4) as Hin.
  assert (Hr : r = sentWith (Some "Bearer token")
                     (imageRequest {| Entry.Id := 1; Entry.Name := "local" |}
                        "dev-01234567" "registry.example.com/svc:latest"
                        (Some "eyJyZWdpc3RyeUlkIjo3fQ=="))).
  { vm_compute in E4. injection E4 as <-. reflexivity. }
  destruct (H r Hin) with (v := "eyJyZWdpc3RyeUlkIjo3fQ==")
    as [imageName [earlier [later [before [fetch [after [reg
          [Hnames [Hfrom [Htr [Hlen [Hfetch [_ [_ [Hfind Hv]]]]]]]]]]]]]]].
  { rewrite Hr. reflexivity. }
  { rewrite Hr. reflexivity. }
  assert (Hname : imageName = "registry.example.com/svc:latest").
  { rewrite Hr in Hfrom. vm_compute in Hfrom. now injection Hfrom as <-. }
  assert (Hearlier : earlier = ["docker.io/app:latest"]).
  { rewrite Hname in Hnames. vm_compute in Hnames.
    destruct earlier as [|x [|y rest]].
    - discriminate Hnames.
    - now injection Hnames as <-.
    - injection Hnames as _ _ Hrest. destruct rest; discriminate Hrest. }
  exists r, imageName, fetch, reg.
  split; [reflexivity|]. split; [exact Hfrom|].
  split.
  { rewrite Htr. rewrite nth_error_app2 by (rewrite Hlen, Hearlier; simpl; lia).
    rewrite Hlen, Hearlier. reflexivity. }
  split; [exact Hfetch|].
  split.
  { apply List.find_some in Hfind. now apply String.eqb_eq. }
  rewrite <- Hv, Hr. reflexivity.
Defined.

(** ** The pull set, image by image *)

(** The callbacks have all started when a run gets past the endpoint
    lookup with a list of images. *)
Lemma trace_from_launch (JSON_parse : string -> list (string * string))
    (readFileSync : string -> option string) (env : ProcessEnv)
    (world : World) (order : list nat) (ep : Entry.t) (tag : string)
    (st1 : St) :
  connect env world initial = Ret (ep, tag) st1 ->
  images env <> "" ->
  exists later,
    trace (final (main JSON_parse readFileSync env world order initial))
    = [sentAuth env; sentEndpoints env world]
      ++ map (launchRequest (Some (bearer env world)) ep tag)
           (JS.split "," (images env))
      ++ later.
Proof.
  intros Hconnect Himages.
  destruct (connect_Ret_state _ _ _ _ Hconnect) as [Hst1 [hash [Hhash Htag]]].
  cbn [snd] in Htag. subst tag.
  assert (Htruthy : JS.truthyStr (images env) = true).
  { unfold JS.truthyStr. apply String.eqb_neq in Himages. now rewrite Himages. }
  assert (Hnone : registries st1 = None) by now rewrite Hst1.
  destruct (launch_exact world ep (releaseTagOf env hash)
              (JS.split "," (images env)) st1 Hnone)
    as [tasks0 [st2 [Hlaunch [Ht2 _]]]].
  destruct (launch_emits env world hash Hhash Htruthy ep st1) as [_ Hok].
  specialize (Hok tasks0 st2 Hlaunch).
  rewrite (main_from_launch JSON_parse readFileSync env world order ep _
             st1 st2 tasks0 Hconnect Himages Hlaunch).
  destruct (after_launch_emits JSON_parse readFileSync env world order ep hash
              tasks0 Hhash Htruthy Hok st2) as [[later [E _]] _].
  exists later. rewrite E, Ht2, Hst1. cbn [connected trace authorization].
  now rewrite <- app_assoc.
Qed.

(** A run that ends normally has pulled every image as often as the list
    names it. *)
Lemma normal_end_pull_count (JSON_parse : string -> list (string * string))
    (readFileSync : string -> option string) (env : ProcessEnv)
    (world : World) (order : list nat) (st : St) :
  main JSON_parse readFileSync env world order initial = Ret tt st ->
  images env <> "" ->
  forall n, occ n (pulled (trace st)) = occ n (JS.split "," (images env)).
Proof.
  intros Hrun Hi.
  assert (Hconnect : exists ep tag,
             connect env world initial = Ret (ep, tag) (connected env world)).
  { revert Hrun. rewrite main_afterConnect. unfold bind at 1.
    destruct (connect env world initial) as [[ep tag] st1|] eqn:Ec;
      [|discriminate].
    intros _. destruct (connect_Ret_state _ _ _ _ Ec) as [-> _].
    now exists ep, tag. }
  destruct Hconnect as [ep [tag Hconnect]].
  destruct (connect_Ret_state _ _ _ _ Hconnect) as [_ [hash [Hhash Htag]]].
  cbn [snd] in Htag. subst tag.
  destruct (launch_exact world ep (releaseTagOf env hash)
              (JS.split "," (images env)) (connected env world) eq_refl)
    as [tasks0 [st2 [Hlaunch [_ [_ [_ Hcount]]]]]].
  rewrite (main_from_launch JSON_parse readFileSync env world order ep _
             _ st2 tasks0 Hconnect Hi Hlaunch) in Hrun.
  unfold bind in Hrun.
  destruct (settle world ep (releaseTagOf env hash) order tasks0 st2)
    as [tasks st3|] eqn:Es; [|discriminate].
  pose proof (finish_no_pull JSON_parse readFileSync env world ep hash
                st3 Hhash) as Hp.
  rewrite Hrun in Hp. cbn [final] in Hp.
  intros n.
  pose proof (settle_pulls _ _ _ _ _ _ _ _ Es n) as H1.
  specialize (Hcount n). rewrite Hp.
  unfold occ in *. cbn in Hcount. lia.
Qed.

(** C5: the registry of an image is the part of its name before the first
    "/". The callback of an image starts a registry lookup exactly when
    that part differs from "docker.io", and otherwise issues its pull at
    once without an X-Registry-Auth header. A lookup whose registry list
    arrives with status 200 goes on to the pull of its image with the
    credential of the first registry of the list that has the registry's
    URL as X-Registry-Auth header, and ends the run with code 1, without a
    pull, when the list has none. In a run: every image pull is for an
    image of the list and carries an X-Registry-Auth header if and only if
    that part of its image name differs from "docker.io"; once the
    endpoint is resolved, the callback of every image of a non-empty list
    has issued its first request, the registry fetch of its lookup when
    that part differs from "docker.io" and its pull without the header
    otherwise, and the run holds as many registry fetches as the list has
    images whose part differs; and a run that ends normally has pulled
    every image of the list, with the header exactly for those images. *)
Theorem registry_auth_iff_not_docker_io
    (JSON_parse : string -> list (string * string))
    (readFileSync : string -> option string) (env : ProcessEnv)
    (world : World) (order : list nat) :
  (forall imageName, registryOf imageName = beforeFirst "/" imageName)
  /\ (forall ep tag imageName st,
        match pull_start world ep tag imageName st with
        | Ret (AwaitPull _ _) st' =>
            beforeFirst "/" imageName = "docker.io"
            /\ trace st'
               = trace st
                 ++ [withDefaults st (imageRequest ep tag imageName None)]
        | Ret (AwaitRegistries _ registry _) st' =>
            beforeFirst "/" imageName <> "docker.io"
            /\ registry = beforeFirst "/" imageName
            /\ trace st' = trace st ++ [withDefaults st registriesRequest]
        | Ret (Resume _ registry _) st' =>
            beforeFirst "/" imageName <> "docker.io"
            /\ registry = beforeFirst "/" imageName
            /\ st' = st
        | Ret Settled _ | Exit _ _ => False
        end)
  /\ (forall ep tag imageName registry response st,
        status response = 200%Z ->
        let resumed :=
          pull_step world ep tag (AwaitRegistries imageName registry response)
            st in
        match JS.find (fun reg => Registry.URL reg =? registry)
                (data response) with
        | Some found =>
            let pull :=
              withDefaults st
                (imageRequest ep tag imageName (Some (credential found))) in
            header "X-Registry-Auth" pull = Some (credential found)
            /\ fromImage pull = Some imageName
            /\ exists imageResponse st',
                 resumed = Ret (AwaitPull imageName imageResponse) st'
                 /\ trace st' = trace st ++ [pull]
        | None =>
            exists st', resumed = Exit 1 st' /\ trace st' = trace st
        end)
  /\ Forall
       (fun r =>
          isImagePull r = true ->
          exists imageName,
            In imageName (JS.split "," (images env))
            /\ fromImage r = Some imageName
            /\ (header "X-Registry-Auth" r <> None
                <-> beforeFirst "/" imageName <> "docker.io"))
       (trace (final (main JSON_parse readFileSync env world order initial)))
  /\ (forall ep tag st1,
        connect env world initial = Ret (ep, tag) st1 ->
        images env <> "" ->
        let tr :=
          trace (final (main JSON_parse readFileSync env world order initial)) in
        (forall k imageName,
           nth_error (JS.split "," (images env)) k = Some imageName ->
           nth_error tr (2 + k)
           = Some (withDefaults st1
                     (if beforeFirst "/" imageName =? "docker.io"
                      then imageRequest ep tag imageName None
                      else registriesRequest)))
        /\ count isRegistriesFetch tr
           = length (filter (fun imageName =>
                               negb (beforeFirst "/" imageName =? "docker.io"))
                       (JS.split "," (images env))))
  /\ (forall st,
        main JSON_parse readFileSync env world order initial = Ret tt st ->
        images env <> "" ->
        forall imageName,
          In imageName (JS.split "," (images env)) ->
          exists r,
            In r (trace st)
            /\ isImagePull r = true
            /\ fromImage r = Some imageName
            /\ (header "X-Registry-Auth" r <> None
                <-> beforeFirst "/" imageName <> "docker.io")).
Proof.
  split; [exact registryOf_beforeFirst|]. split.
  { intros ep tag imageName st.
    destruct (pull_start_cases world ep tag imageName st)
      as [[Hd [_ [resp [st' [-> Ht]]]]]
         | [Hn [[_ [resp [st' [-> Ht]]]] | [cached [_ ->]]]]]; auto. }
  split.
  { intros ep tag imageName registry response st Hstatus.
    cbv zeta. cbn [pull_step]. unfold bind at 1.
    unfold getRegistries_resume. rewrite Hstatus. cbn [Z.eqb Pos.eqb negb].
    unfold bind at 1. unfold setRegistries at 1. unfold ret at 1.
    destruct (JS.find _ (data response)) as [found|] eqn:Efind.
    - split; [apply header_of_pull|].
      split; [reflexivity|].
      unfold pull_withAuth, bind, getRegistryAuth_resume, setRegistries, ret.
      cbv beta iota. rewrite Efind. unfold issue.
      eexists. eexists. split; reflexivity.
    - unfold pull_withAuth, bind, getRegistryAuth_resume, setRegistries, ret.
      cbv beta iota. rewrite Efind.
      eexists. split; reflexivity. }
  split.
  { eapply Forall_impl; [|apply main_trace_issued].
    intros r. apply issued_pull_header. }
  split.
  { intros ep tag st1 Hconnect Hi tr. split.
    - intros k imageName Hk.
      destruct (trace_from_launch JSON_parse readFileSync env world order
                  ep tag st1 Hconnect Hi) as [later Htr].
      subst tr. rewrite Htr.
      destruct (connect_Ret_state _ _ _ _ Hconnect) as [-> _].
      change (2 + k) with (length [sentAuth env; sentEndpoints env world] + k).
      rewrite nth_error_app2 by lia.
      replace (length [sentAuth env; sentEndpoints env world] + k
               - length [sentAuth env; sentEndpoints env world]) with k by lia.
      rewrite nth_error_app1.
      + rewrite (map_nth_error _ _ _ Hk). unfold launchRequest, needsAuth.
        rewrite registryOf_beforeFirst.
        destruct (beforeFirst "/" imageName =? "docker.io"); reflexivity.
      + rewrite length_map. apply nth_error_Some. now rewrite Hk.
    - subst tr.
      rewrite (registry_list_fetched_per_image JSON_parse readFileSync env
                 world order (ep, tag) st1 Hconnect Hi).
      f_equal. apply filter_ext. intros imageName. unfold needsAuth.
      now rewrite registryOf_beforeFirst. }
  intros st Hrun Hi imageName Hin.
  pose proof (normal_end_pull_count JSON_parse readFileSync env world order
                st Hrun Hi imageName) as Hcount.
  assert (Hpulled : In imageName (pulled (trace st))).
  { apply (count_occ_In string_dec). unfold occ in Hcount. rewrite Hcount.
    now apply count_occ_In. }
  unfold pulled in Hpulled. apply in_flat_map in Hpulled.
  destruct Hpulled as [r [Hr Hof]].
  destruct (isImagePull r) eqn:Hpull; [|destruct Hof].
  destruct (fromImage r) as [name|] eqn:Hfrom; [|destruct Hof].
  destruct Hof as [-> | []].
  exists r. split; [exact Hr|]. split; [exact Hpull|].
  split; [exact Hfrom|].
  pose proof (main_trace_issued JSON_parse readFileSync env world order)
    as Hissued.
  rewrite Hrun in Hissued. cbn [final] in Hissued.
  rewrite Forall_forall in Hissued.
  destruct (issued_pull_header JSON_parse env r (Hissued r Hr) Hpull)
    as [name [_ [Hname Hiff]]].
  rewrite Hfrom in Hname. injection Hname as <-. exact Hiff.
Qed.

Lemma registry_auth_iff_not_docker_io_witness :
  exists st plain credentialed,
    main Sample.JSON_parse Sample.readFileSync
      (Sample.env
         (Some "docker.io/app:latest,registry.example.com/svc:latest") None)
      (Sample.world [Sample.web]) [] initial = Ret tt st
    /\ In plain (trace st)
    /\ fromImage plain = Some "docker.io/app:latest"
    /\ header "X-Registry-Auth" plain = None
    /\ In credentialed (trace st)
    /\ fromImage credentialed = Some "registry.example.com/svc:latest"
    /\ header "X-Registry-Auth" credentialed <> None.
Proof.
  destruct (main Sample.JSON_parse Sample.readFileSync
              (Sample.env
                 (Some "docker.io/app:latest,registry.example.com/svc:latest")
                 None)
              (Sample.world [Sample.web]) [] initial) as [[] st|code st] eqn:E;
    [|discriminate E].
  pose proof (proj2 (proj2 (proj2 (proj2 (proj2
                (registry_auth_iff_not_docker_io Sample.JSON_parse
                   Sample.readFileSync
                   (Sample.env
                      (Some "docker.io/app:latest,registry.example.com/svc:latest")
                      None)
                   (Sample.world [Sample.web]) [])))))) as Hall.
  assert (Hi : images (Sample.env
                         (Some "docker.io/app:latest,registry.example.com/svc:latest")
                         None) <> "") by discriminate.
  destruct (Hall st E Hi "docker.io/app:latest")
    as [plain [Hin1 [_ [Hfrom1 Hiff1]]]].
  { vm_compute. left. reflexivity. }
  destruct (Hall st E Hi "registry.example.com/svc:latest")
    as [credentialed [Hin2 [_ [Hfrom2 Hiff2]]]].
  { vm_compute. right. left. reflexivity. }
  exists st, plain, credentialed.
  split; [reflexivity|]. split; [exact Hin1|]. split; [exact Hfrom1|].
  split.
  { destruct (header "X-Registry-Auth" plain) as [v|] eqn:Hh; [|reflexivity].
    exfalso. apply (proj1 Hiff1); [discriminate|]. reflexivity. }
  split; [exact Hin2|]. split; [exact Hfrom2|].
  apply (proj2 Hiff2). vm_compute. discriminate.
Defined.
